(** * Smart Money Concepts indicator: pivot scan, break classifier, channel
      writer, renderer

    A shallow embedding of the SMART_MONEY_CONCEPTS indicator template: its
    [calc] (offset-confirmation version) with [writeRange] and [pushPivot],
    its figure table and its [draw], and the [calc] of its symmetric-window
    predecessor, with the properties of the market-structure engine proved
    over them. *)

From Stdlib Require Import ZArith List Bool Lia Permutation Sorted.
From Stdlib Require String.
Import String.StringSyntax.
Import ListNotations.
Local Open Scope Z_scope.
Delimit Scope string_scope with string.

(** ** JavaScript numbers

    The engine never computes with a price, it only compares prices with
    [>], [<], [>=] and [<=]; a finite price is therefore carried as an
    integer, standing for its place in the order.  [NaN] and the two
    infinities are kept because the code starts its window extrema at
    [-Infinity] and [Infinity] and because [NaN] makes every comparison
    false.  Indices and lookback lengths are integers. *)

Inductive num : Type :=
| NaN
| NegInf
| Fin (z : Z)
| PosInf.

(** [a > b] *)
Definition gt (a b : num) : bool :=
  match a, b with
  | NaN, _ => false
  | _, NaN => false
  | NegInf, _ => false
  | Fin _, NegInf => true
  | Fin x, Fin y => y <? x
  | Fin _, PosInf => false
  | PosInf, PosInf => false
  | PosInf, _ => true
  end.

(** [a < b] *)
Definition lt (a b : num) : bool := gt b a.

(** [a >= b] *)
Definition ge (a b : num) : bool :=
  match a, b with
  | NaN, _ => false
  | _, NaN => false
  | _, _ => negb (gt b a)
  end.

(** [a <= b] *)
Definition le (a b : num) : bool := ge b a.

(** [Number(x)].  A field holds a number; [Number] leaves a number as it is
    and makes [NaN] of a missing ([undefined]) or non-numeric field, so that
    such a field is carried as [NaN]. *)
Definition Number (x : num) : num := x.

(** [Number.isFinite(x)] *)
Definition isFinite (x : num) : bool :=
  match x with Fin _ => true | _ => false end.

(** ** Results of code that may throw

    The only exception the engine can raise is the [TypeError] of a property
    access on [undefined] (an array element out of range). *)

Inductive Result (A : Type) : Type :=
| Ok (a : A)
| TypeError.
Arguments Ok {A} a.
Arguments TypeError {A}.

Definition bind {A B : Type} (r : Result A) (k : A -> Result B) : Result B :=
  match r with
  | Ok a => k a
  | TypeError => TypeError
  end.

Notation "x <- r ;; k" := (bind r (fun x => k))
  (at level 61, r at next level, right associativity).
Notation "' pat <- r ;; k" := (bind r (fun x => match x with pat => k end))
  (at level 61, pat pattern, r at next level, right associativity).

(** [l[j]]: [None] is JavaScript's [undefined]. *)
Definition getZ {A : Type} (l : list A) (j : Z) : option A :=
  if j <? 0 then None else nth_error l (Z.to_nat j).

(** [l[j].field]: reading a property of [undefined] throws. *)
Definition item {A : Type} (l : list A) (j : Z) : Result A :=
  match getZ l j with
  | Some a => Ok a
  | None => TypeError
  end.

Definition len {A : Type} (l : list A) : Z := Z.of_nat (length l).

(** [for (let i = lo; ...; i++) body], run for [count] iterations. *)
Fixpoint forLoop {S : Type} (lo : Z) (count : nat)
    (body : Z -> S -> Result S) (s : S) : Result S :=
  match count with
  | O => Ok s
  | Datatypes.S c =>
      match body lo s with
      | Ok s' => forLoop (lo + 1) c body s'
      | TypeError => TypeError
      end
  end.

(** [for (let i = lo; i < hi; i++) body] *)
Definition forUpTo {S : Type} (lo hi : Z) (body : Z -> S -> Result S) (s : S)
  : Result S :=
  forLoop lo (Z.to_nat (hi - lo)) body s.

(** ** Data model *)

(** A bar of [dataList], with the fields [calc] reads ([open] is never
    read). *)
Record KLineData : Type := mkBar
  { open : num; high : num; low : num; close : num }.

(** The ten figure keys of [SmartMoneyResult]. *)
Inductive Key : Type :=
| swingBosBull | swingBosBear | swingChochBull | swingChochBear
| internalBosBull | internalBosBear | internalChochBull | internalChochBear
| swingHighMarker | swingLowMarker.

Definition Key_eq_dec (a b : Key) : {a = b} + {a <> b}.
Proof. decide equality. Defined.

(** [k === key] on property names. *)
Definition Key_eqb (a b : Key) : bool :=
  if Key_eq_dec a b then true else false.

(** One entry of [results]: an object whose absent properties read
    [undefined]. *)
Definition SmartMoneyResult : Type := Key -> option num.

(** [{}] *)
Definition emptyResult : SmartMoneyResult := fun _ => None.

(** [r[key] = v], [None] deleting the property. *)
Definition setProp (r : SmartMoneyResult) (key : Key) (v : option num)
  : SmartMoneyResult :=
  fun k => if Key_eqb k key then v else r k.

(** ['swing' | 'internal'] *)
Inductive Level : Type := Swing | Internal.

Definition Level_eqb (a b : Level) : bool :=
  match a, b with
  | Swing, Swing | Internal, Internal => true
  | _, _ => false
  end.

Module Pivot.
(** An element of [swingHighs], [swingLows], [internalHighs],
    [internalLows]. *)
Record t : Type := mk { index : Z; price : num }.
End Pivot.

Module Line.
(** An element of [pivots], the render instruction recorded by
    [pushPivot]: one structure-break event. *)
Record t : Type := mk
  { key : Key; pivotIndex : Z; breakIndex : Z; price : num; level : Level }.
End Line.

(** [swingOs]/[internalOs]: 0 = top, 1 = bottom, [null] = [None]. *)
Inductive Os : Type := Top | Bottom.

Definition isTop (o : option Os) : bool :=
  match o with Some Top => true | _ => false end.

Definition isBottom (o : option Os) : bool :=
  match o with Some Bottom => true | _ => false end.

(** [swingTrend]/[internalTrend]: 1 = bullish, -1 = bearish, 0 = neutral. *)
Inductive Trend : Type := Neutral | Bullish | Bearish.

Definition Trend_eqb (a b : Trend) : bool :=
  match a, b with
  | Neutral, Neutral | Bullish, Bullish | Bearish, Bearish => true
  | _, _ => false
  end.

(** ** The [results] array *)

(** The array with its element [n] replaced by [f] of it. *)
Fixpoint updNat {A : Type} (l : list A) (n : nat) (f : A -> A) : list A :=
  match l, n with
  | [], _ => []
  | a :: r, O => f a :: r
  | a :: r, Datatypes.S n' => a :: updNat r n' f
  end.

(** [results[k]?.[key]] *)
Definition readKey (results : list SmartMoneyResult) (k : Z) (key : Key)
  : option num :=
  match getZ results k with
  | Some r => r key
  | None => None
  end.

(** [results[j][key] = v] ([v = None] is [delete results[j][key]]). *)
Definition setKey (results : list SmartMoneyResult) (j : Z) (key : Key)
    (v : option num) : Result (list SmartMoneyResult) :=
  match getZ results j with
  | Some _ => Ok (updNat results (Z.to_nat j) (fun r => setProp r key v))
  | None => TypeError
  end.

(** ** Phase 1: pivot detection by offset confirmation *)

(** The variables of a pivot loop: [swingOs], [swingHighs], [swingLows] (or
    the internal ones) and [results]. *)
Record Scan : Type := mkScan
  { os : option Os;
    highs : list Pivot.t;
    lows : list Pivot.t;
    marks : list SmartMoneyResult }.

(** The two updates of [maxHigh] and [minLow] by a bar of the window. *)
Definition windowStep (bar : KLineData) (acc : num * num) : num * num :=
  let hj := Number (high bar) in
  let lj := Number (low bar) in
  let maxHigh := if gt hj (fst acc) then hj else fst acc in
  let minLow := if lt lj (snd acc) then lj else snd acc in
  (maxHigh, minLow).

(** One turn of the inner loop [for (let j = p + 1; j <= i; j++)]. *)
Definition windowBody (dataList : list KLineData) (j : Z) (acc : num * num)
  : Result (num * num) :=
  bar <- item dataList j ;;
  Ok (windowStep bar acc).

(** [maxHigh] and [minLow] over the forward window [p+1 .. i]. *)
Definition windowExtrema (dataList : list KLineData) (p i : Z)
  : Result (num * num) :=
  forUpTo (p + 1) (i + 1) (windowBody dataList) (NegInf, PosInf).

(** The state the candidate bar puts the register in. *)
Definition nextOs (prev : option Os) (pivotHigh pivotLow maxHigh minLow : num)
  : option Os :=
  if gt pivotHigh maxHigh then Some Top
  else if lt pivotLow minLow then Some Bottom
  else prev.

(** The marker write of the swing loop; the internal loop has none. *)
Definition writeMarker (lvl : Level) (key : Key) (p : Z) (v : num)
    (results : list SmartMoneyResult) : Result (list SmartMoneyResult) :=
  match lvl with
  | Swing => setKey results p key (Some v)
  | Internal => Ok results
  end.

(** Body of the pivot loop of a level at evaluation index [i]. *)
Definition pivotBody (lvl : Level) (dataList : list KLineData) (length : Z)
    (i : Z) (st : Scan) : Result Scan :=
  let p := i - length in
  ext <- windowExtrema dataList p i ;;
  bar <- item dataList p ;;
  let pivotHigh := Number (high bar) in
  let pivotLow := Number (low bar) in
  let currOs := nextOs (os st) pivotHigh pivotLow (fst ext) (snd ext) in
  st1 <- (if isTop currOs && negb (isTop (os st)) then
            r <- writeMarker lvl swingHighMarker p pivotHigh (marks st) ;;
            Ok (mkScan (os st) (highs st ++ [Pivot.mk p pivotHigh]) (lows st) r)
          else Ok st) ;;
  st2 <- (if isBottom currOs && negb (isBottom (os st)) then
            r <- writeMarker lvl swingLowMarker p pivotLow (marks st1) ;;
            Ok (mkScan (os st1) (highs st1) (lows st1 ++ [Pivot.mk p pivotLow]) r)
          else Ok st1) ;;
  Ok (mkScan currOs (highs st2) (lows st2) (marks st2)).

(** [for (let i = length; i < dataList.length; i++)] *)
Definition detectPivots (lvl : Level) (dataList : list KLineData) (length : Z)
    (results : list SmartMoneyResult) : Result Scan :=
  forUpTo length (len dataList) (pivotBody lvl dataList length)
    (mkScan None [] [] results).

(** ** Channel writer: [writeRange] *)

(** [results[k]?.[key] !== undefined] *)
Definition defined (results : list SmartMoneyResult) (key : Key) (k : Z)
  : bool :=
  match readKey results k key with
  | Some _ => true
  | None => false
  end.

(** [while (k >= 0) { if (results[k]?.[key] !== undefined) { runStart = k; k-- }
    else break }] *)
Fixpoint scanBack (results : list SmartMoneyResult) (key : Key) (k : nat)
    (runStart : option Z) : option Z :=
  if defined results key (Z.of_nat k) then
    match k with
    | O => Some 0
    | Datatypes.S k' => scanBack results key k' (Some (Z.of_nat k))
    end
  else runStart.

(** [while (runEnd + 1 < results.length &&
            results[runEnd + 1]?.[key] !== undefined) runEnd++] *)
Fixpoint scanFwd (results : list SmartMoneyResult) (key : Key) (fuel : nat)
    (runEnd : Z) : Z :=
  match fuel with
  | O => runEnd
  | Datatypes.S f =>
      if (runEnd + 1 <? len results) && defined results key (runEnd + 1)
      then scanFwd results key f (runEnd + 1)
      else runEnd
  end.

(** [for (let j = start; j <= stop && j < results.length; j++)
      results[j][key] = v] *)
Definition fillRange (key : Key) (start stop : Z) (v : option num)
    (results : list SmartMoneyResult) : Result (list SmartMoneyResult) :=
  forUpTo start (Z.min stop (len results - 1) + 1)
    (fun j rs => setKey rs j key v) results.

(** The first half of [writeRange]: cut the run that reaches [start]. *)
Definition truncateRun (key : Key) (start : Z)
    (results : list SmartMoneyResult) : Result (list SmartMoneyResult) :=
  match scanBack results key (Z.to_nat (Z.max 0 (start - 1))) None with
  | Some runStart =>
      let runEnd :=
        scanFwd results key (Z.to_nat (len results - runStart)) runStart in
      if start <=? runEnd then fillRange key start runEnd None results
      else Ok results
  | None => Ok results
  end.

(** [writeRange(key, start, end, price)] *)
Definition writeRange (key : Key) (start stop : Z) (price : num)
    (results : list SmartMoneyResult) : Result (list SmartMoneyResult) :=
  rs <- truncateRun key start results ;;
  fillRange key start stop (Some price) rs.

(** ** Phases 2 and 3: break detection *)

(** The variables of a level in phase 2: [swingHighs], [swingLows],
    [swingTrend], or the internal ones. *)
Record LevelState : Type := mkLevel
  { liveHighs : list Pivot.t;
    liveLows : list Pivot.t;
    trend : Trend }.

(** The variables of the break loop. *)
Record Break : Type := mkBreak
  { swing : LevelState;
    internal : LevelState;
    results : list SmartMoneyResult;
    pivots : list Line.t }.

(** The variables of level [lvl]. *)
Definition levelState (lvl : Level) (st : Break) : LevelState :=
  match lvl with
  | Swing => swing st
  | Internal => internal st
  end.

(** Assignment to the variables of level [lvl]. *)
Definition setLevel (lvl : Level) (ls : LevelState) (st : Break) : Break :=
  match lvl with
  | Swing => mkBreak ls (internal st) (results st) (pivots st)
  | Internal => mkBreak (swing st) ls (results st) (pivots st)
  end.

(** [for (const pivot of xs) { if (cond) { ...; xs.splice(xs.indexOf(pivot), 1);
    break } }]: the first element that satisfies the test, with the elements
    before and after it. *)
Fixpoint findFirst {A : Type} (test : A -> bool) (xs : list A)
  : option (list A * A * list A) :=
  match xs with
  | [] => None
  | x :: r =>
      if test x then Some ([], x, r)
      else match findFirst test r with
           | Some (pre, y, post) => Some (x :: pre, y, post)
           | None => None
           end
  end.

(** The four figure keys of a level. *)
Definition chochBull (lvl : Level) : Key :=
  match lvl with Swing => swingChochBull | Internal => internalChochBull end.
Definition bosBull (lvl : Level) : Key :=
  match lvl with Swing => swingBosBull | Internal => internalBosBull end.
Definition chochBear (lvl : Level) : Key :=
  match lvl with Swing => swingChochBear | Internal => internalChochBear end.
Definition bosBear (lvl : Level) : Key :=
  match lvl with Swing => swingBosBear | Internal => internalBosBear end.

(** The branch taken by a bullish break. *)
Definition bullKey (lvl : Level) (t : Trend) : Key :=
  if Trend_eqb t Bearish then chochBull lvl else bosBull lvl.

(** The branch taken by a bearish break: the swing loop spells the second
    branch as [else if (swingTrend === -1 || swingTrend === 0)], the internal
    loop as a plain [else]. *)
Definition bearKey (lvl : Level) (t : Trend) : option Key :=
  match lvl with
  | Swing =>
      if Trend_eqb t Bullish then Some swingChochBear
      else if Trend_eqb t Bearish || Trend_eqb t Neutral then Some swingBosBear
      else None
  | Internal =>
      if Trend_eqb t Bullish then Some internalChochBear
      else Some internalBosBear
  end.

(** [pivots.push({ key, pivotIndex, breakIndex, price, level })] *)
Definition pushPivot (key : Key) (pivotIndex breakIndex : Z) (price : num)
    (level : Level) (pivots : list Line.t) : list Line.t :=
  pivots ++ [Line.mk key pivotIndex breakIndex price level].

(** [writeRange(key, pivot.index, i, pivot.price)] followed by
    [pushPivot(key, pivot.index, i, pivot.price, level)]. *)
Definition record (lvl : Level) (key : Key) (pivot : Pivot.t) (i : Z)
    (st : Break) : Result Break :=
  rs <- writeRange key (Pivot.index pivot) i (Pivot.price pivot) (results st) ;;
  Ok (mkBreak (swing st) (internal st) rs
        (pushPivot key (Pivot.index pivot) i (Pivot.price pivot) lvl
           (pivots st))).

(** [pivot.index < i && close > pivot.price] *)
Definition breaksHigh (i : Z) (close : num) (pivot : Pivot.t) : bool :=
  (Pivot.index pivot <? i) && gt close (Pivot.price pivot).

(** [pivot.index < i && close < pivot.price] *)
Definition breaksLow (i : Z) (close : num) (pivot : Pivot.t) : bool :=
  (Pivot.index pivot <? i) && lt close (Pivot.price pivot).

(** Bullish check of a level at bar [i]. *)
Definition bullishCheck (lvl : Level) (i : Z) (close : num) (st : Break)
  : Result Break :=
  let ls := levelState lvl st in
  match findFirst (breaksHigh i close) (liveHighs ls) with
  | None => Ok st
  | Some (pre, pivot, post) =>
      st1 <- record lvl (bullKey lvl (trend ls)) pivot i st ;;
      Ok (setLevel lvl (mkLevel (pre ++ post) (liveLows ls) Bullish) st1)
  end.

(** Bearish check of a level at bar [i]. *)
Definition bearishCheck (lvl : Level) (i : Z) (close : num) (st : Break)
  : Result Break :=
  let ls := levelState lvl st in
  match findFirst (breaksLow i close) (liveLows ls) with
  | None => Ok st
  | Some (pre, pivot, post) =>
      match bearKey lvl (trend ls) with
      | Some key =>
          st1 <- record lvl key pivot i st ;;
          Ok (setLevel lvl (mkLevel (liveHighs ls) (pre ++ post) Bearish) st1)
      | None =>
          Ok (setLevel lvl (mkLevel (liveHighs ls) (pre ++ post) (trend ls)) st)
      end
  end.

(** Body of [for (let i = 0; i < dataList.length; i++)]. *)
Definition breakBody (dataList : list KLineData) (i : Z) (st : Break)
  : Result Break :=
  bar <- item dataList i ;;
  let close := Number (close bar) in
  st1 <- bullishCheck Swing i close st ;;
  st2 <- bearishCheck Swing i close st1 ;;
  st3 <- bullishCheck Internal i close st2 ;;
  bearishCheck Internal i close st3.

(** [for (let i = 0; i < dataList.length; i++)] *)
Definition detectBreaks (dataList : list KLineData) (st : Break)
  : Result Break :=
  forUpTo 0 (len dataList) (breakBody dataList) st.

(** ** [calc] *)

(** What [calc] returns and leaves in [indicator.extendData], with the pivot
    lists of phase 1 and the variables before and after the break loop. *)
Record Output : Type := mkOutput
  { outResults : list SmartMoneyResult;   (* the returned array *)
    outPivots : list Line.t;              (* [indicator.extendData.pivots] *)
    swingHighs : list Pivot.t;            (* the pivots found by phase 1 *)
    swingLows : list Pivot.t;
    internalHighs : list Pivot.t;
    internalLows : list Pivot.t;
    startState : Break;                   (* the variables before phase 2 *)
    finalState : Break }.

(** [calc(dataList, indicator)], [swingLength] and [internalLength] being
    [indicator.calcParams[0]] and [indicator.calcParams[1]]. *)
Definition calc (dataList : list KLineData) (swingLength internalLength : Z)
  : Result Output :=
  let results0 := map (fun _ => emptyResult) dataList in
  sw <- detectPivots Swing dataList swingLength results0 ;;
  inl <- detectPivots Internal dataList internalLength (marks sw) ;;
  let st0 := mkBreak (mkLevel (highs sw) (lows sw) Neutral)
                     (mkLevel (highs inl) (lows inl) Neutral)
                     (marks inl) [] in
  st <- detectBreaks dataList st0 ;;
  Ok (mkOutput (results st) (pivots st)
        (highs sw) (lows sw) (highs inl) (lows inl) st0 st).

(** ** The earlier version: symmetric-window detection, plain line writes

    [smartMoneyConcepts.ts] under [src/extension/indicator] detects pivots in
    one loop over the bars, with a window on both sides of the bar, and
    draws the line of a break by assigning the price over its range. *)

Module Symmetric.

(** The variables of the pivot loop. *)
Record Scan : Type := mkScan
  { swingHighs : list Pivot.t;
    swingLows : list Pivot.t;
    internalHighs : list Pivot.t;
    internalLows : list Pivot.t;
    results : list SmartMoneyResult }.

(** [for (let j = lo; ...; j++) { if (j !== i && beaten(dataList[j])) {
    flag = false; break } }], the flag starting [true]. *)
Fixpoint unbeaten (dataList : list KLineData) (beaten : KLineData -> bool)
    (i : Z) (j : Z) (count : nat) : Result bool :=
  match count with
  | O => Ok true
  | Datatypes.S c =>
      if j =? i then unbeaten dataList beaten i (j + 1) c
      else
        bar <- item dataList j ;;
        if beaten bar then Ok false
        else unbeaten dataList beaten i (j + 1) c
  end.

(** The window [i - length .. i + length] around bar [i]. *)
Definition window (dataList : list KLineData) (beaten : KLineData -> bool)
    (length i : Z) : Result bool :=
  unbeaten dataList beaten i (i - length)
    (Z.to_nat (i + length + 1 - (i - length))).

(** [i >= length && i < dataList.length - length] *)
Definition inRange (dataList : list KLineData) (length i : Z) : bool :=
  (length <=? i) && (i <? len dataList - length).

(** The push of a pivot-high; the swing one also drops a marker. *)
Definition pushHigh (lvl : Level) (p : Pivot.t) (st : Scan) : Result Scan :=
  match lvl with
  | Swing =>
      r <- setKey (results st) (Pivot.index p) swingHighMarker
             (Some (Pivot.price p)) ;;
      Ok (mkScan (swingHighs st ++ [p]) (swingLows st)
            (internalHighs st) (internalLows st) r)
  | Internal =>
      Ok (mkScan (swingHighs st) (swingLows st)
            (internalHighs st ++ [p]) (internalLows st) (results st))
  end.

(** The push of a pivot-low; the swing one also drops a marker. *)
Definition pushLow (lvl : Level) (p : Pivot.t) (st : Scan) : Result Scan :=
  match lvl with
  | Swing =>
      r <- setKey (results st) (Pivot.index p) swingLowMarker
             (Some (Pivot.price p)) ;;
      Ok (mkScan (swingHighs st) (swingLows st ++ [p])
            (internalHighs st) (internalLows st) r)
  | Internal =>
      Ok (mkScan (swingHighs st) (swingLows st)
            (internalHighs st) (internalLows st ++ [p]) (results st))
  end.

(** The high-detection block of a level at bar [i]. *)
Definition highBlock (lvl : Level) (dataList : list KLineData) (length : Z)
    (i : Z) (h : num) (st : Scan) : Result Scan :=
  if inRange dataList length i then
    isHigh <- window dataList (fun bar => ge (high bar) h) length i ;;
    if isHigh then pushHigh lvl (Pivot.mk i h) st else Ok st
  else Ok st.

(** The low-detection block of a level at bar [i]. *)
Definition lowBlock (lvl : Level) (dataList : list KLineData) (length : Z)
    (i : Z) (l : num) (st : Scan) : Result Scan :=
  if inRange dataList length i then
    isLow <- window dataList (fun bar => le (low bar) l) length i ;;
    if isLow then pushLow lvl (Pivot.mk i l) st else Ok st
  else Ok st.

(** Body of [for (let i = 0; i < dataList.length; i++)]: the four blocks. *)
Definition pivotBody (dataList : list KLineData)
    (swingLength internalLength : Z) (i : Z) (st : Scan) : Result Scan :=
  bar <- item dataList i ;;
  let h := high bar in
  let l := low bar in
  st1 <- highBlock Swing dataList swingLength i h st ;;
  st2 <- lowBlock Swing dataList swingLength i l st1 ;;
  st3 <- highBlock Internal dataList internalLength i h st2 ;;
  lowBlock Internal dataList internalLength i l st3.

(** The pivot loop, from empty lists and an array of empty results. *)
Definition detectPivots (dataList : list KLineData)
    (swingLength internalLength : Z) : Result Scan :=
  forUpTo 0 (len dataList) (pivotBody dataList swingLength internalLength)
    (mkScan [] [] [] [] (map (fun _ => emptyResult) dataList)).

(** [for (let j = pivot.index; j <= i; j++) results[j][key] = pivot.price]:
    the earlier version draws a line by plain assignment, with no bound on
    [j] other than [i]. *)
Definition paint (key : Key) (pivot : Pivot.t) (i : Z)
    (rs : list SmartMoneyResult) : Result (list SmartMoneyResult) :=
  forUpTo (Pivot.index pivot) (i + 1)
    (fun j r => setKey r j key (Some (Pivot.price pivot))) rs.

(** The variables of the break loop: the live pivot lists and trend register
    of each level, and [results], here [lines] since the record of the pivot
    loop has the name. *)
Record Break : Type := mkBreak
  { swing : LevelState;
    internal : LevelState;
    lines : list SmartMoneyResult }.

Definition levelState (lvl : Level) (st : Break) : LevelState :=
  match lvl with
  | Swing => swing st
  | Internal => internal st
  end.

Definition setLevel (lvl : Level) (ls : LevelState) (st : Break) : Break :=
  match lvl with
  | Swing => mkBreak ls (internal st) (lines st)
  | Internal => mkBreak (swing st) ls (lines st)
  end.

(** Bullish check of a level at bar [i]. *)
Definition bullishCheck (lvl : Level) (i : Z) (close : num) (st : Break)
  : Result Break :=
  let ls := levelState lvl st in
  match findFirst (breaksHigh i close) (liveHighs ls) with
  | None => Ok st
  | Some (pre, pivot, post) =>
      rs <- paint (bullKey lvl (trend ls)) pivot i (lines st) ;;
      Ok (setLevel lvl (mkLevel (pre ++ post) (liveLows ls) Bullish)
            (mkBreak (swing st) (internal st) rs))
  end.

(** Bearish check of a level at bar [i]. *)
Definition bearishCheck (lvl : Level) (i : Z) (close : num) (st : Break)
  : Result Break :=
  let ls := levelState lvl st in
  match findFirst (breaksLow i close) (liveLows ls) with
  | None => Ok st
  | Some (pre, pivot, post) =>
      match bearKey lvl (trend ls) with
      | Some key =>
          rs <- paint key pivot i (lines st) ;;
          Ok (setLevel lvl (mkLevel (liveHighs ls) (pre ++ post) Bearish)
                (mkBreak (swing st) (internal st) rs))
      | None =>
          Ok (setLevel lvl (mkLevel (liveHighs ls) (pre ++ post) (trend ls)) st)
      end
  end.

(** Body of the break loop [for (let i = 0; i < dataList.length; i++)]. *)
Definition breakBody (dataList : list KLineData) (i : Z) (st : Break)
  : Result Break :=
  bar <- item dataList i ;;
  let close := close bar in
  st1 <- bullishCheck Swing i close st ;;
  st2 <- bearishCheck Swing i close st1 ;;
  st3 <- bullishCheck Internal i close st2 ;;
  bearishCheck Internal i close st3.

Definition detectBreaks (dataList : list KLineData) (st : Break)
  : Result Break :=
  forUpTo 0 (len dataList) (breakBody dataList) st.

(** [calc(dataList, indicator)] of the earlier version: it returns [results]
    and records no render instructions. *)
Definition calc (dataList : list KLineData) (swingLength internalLength : Z)
  : Result (list SmartMoneyResult) :=
  s <- detectPivots dataList swingLength internalLength ;;
  st <- detectBreaks dataList
          (mkBreak (mkLevel (swingHighs s) (swingLows s) Neutral)
                   (mkLevel (internalHighs s) (internalLows s) Neutral)
                   (results s)) ;;
  Ok (lines st).

End Symmetric.

(** ** Rendering: the figure table and [draw] *)

(** ['line' | 'circle'] *)
Inductive FigureType : Type := line | circle.

Module FigureStyle.
(** What [styles()] of a figure returns. *)
Record t : Type := mk
  { color : String.string;
    size : option Z;
    style : option String.string;
    dashValue : option (list Z) }.
End FigureStyle.

Module Figure.
(** An element of [figures]. *)
Record t : Type := mk
  { key : Key;
    title : String.string;
    type : FigureType;
    styles : FigureStyle.t }.
End Figure.

(** [figures] *)
Definition figures : list Figure.t :=
  [ Figure.mk swingBosBull "BOS ↑: "%string line
      (FigureStyle.mk "#22c55e"%string (Some 2) None None);
    Figure.mk swingBosBear "BOS ↓: "%string line
      (FigureStyle.mk "#ef4444"%string (Some 2) None None);
    Figure.mk swingChochBull "CHoCH ↑: "%string line
      (FigureStyle.mk "#10b981"%string (Some 2) None None);
    Figure.mk swingChochBear "CHoCH ↓: "%string line
      (FigureStyle.mk "#f87171"%string (Some 2) None None);
    Figure.mk internalBosBull "BOS ↑ (Internal): "%string line
      (FigureStyle.mk "#86efac"%string (Some 1) (Some "dashed"%string)
         (Some [4; 4]));
    Figure.mk internalBosBear "BOS ↓ (Internal): "%string line
      (FigureStyle.mk "#fca5a5"%string (Some 1) (Some "dashed"%string)
         (Some [4; 4]));
    Figure.mk internalChochBull "CHoCH ↑ (Internal): "%string line
      (FigureStyle.mk "#6ee7b7"%string (Some 1) (Some "dashed"%string)
         (Some [4; 4]));
    Figure.mk internalChochBear "CHoCH ↓ (Internal): "%string line
      (FigureStyle.mk "#fbbf24"%string (Some 1) (Some "dashed"%string)
         (Some [4; 4]));
    Figure.mk swingHighMarker "Swing High: "%string circle
      (FigureStyle.mk "#a855f7"%string None None None);
    Figure.mk swingLowMarker "Swing Low: "%string circle
      (FigureStyle.mk "#22d3ee"%string None None None) ].

Module Style.
(** A value of [styleMap]. *)
Record t : Type := mk
  { color : String.string;
    size : Z;
    style : option String.string;
    dashedValue : option (list Z) }.
End Style.

(** [styleMap[key]], [None] for a key the map does not have. *)
Definition styleMap (key : Key) : option Style.t :=
  match key with
  | swingBosBull => Some (Style.mk "#22c55e"%string 2 None None)
  | swingBosBear => Some (Style.mk "#ef4444"%string 2 None None)
  | swingChochBull => Some (Style.mk "#10b981"%string 2 None None)
  | swingChochBear => Some (Style.mk "#f87171"%string 2 None None)
  | internalBosBull =>
      Some (Style.mk "#86efac"%string 1 (Some "dashed"%string) (Some [4; 4]))
  | internalBosBear =>
      Some (Style.mk "#fca5a5"%string 1 (Some "dashed"%string) (Some [4; 4]))
  | internalChochBull =>
      Some (Style.mk "#6ee7b7"%string 1 (Some "dashed"%string) (Some [4; 4]))
  | internalChochBear =>
      Some (Style.mk "#fbbf24"%string 1 (Some "dashed"%string) (Some [4; 4]))
  | swingHighMarker | swingLowMarker => None
  end.

(** The calls [draw] makes on the canvas context, and its two property
    assignments. *)
Inductive CanvasOp : Type :=
| save
| strokeStyle (color : String.string)
| lineWidth (width : Z)
| setLineDash (segments : list Z)
| beginPath
| moveTo (x y : num)
| lineTo (x y : num)
| stroke
| restore.

(** The canvas context, as the sequence of operations it has received. *)
Definition Canvas : Type := list CanvasOp.

(** [ctx.op(...)] *)
Definition call (op : CanvasOp) (ctx : Canvas) : Canvas := ctx ++ [op].

(** [xAxis] and [yAxis], of which [draw] uses [convertToPixel]. *)
Record Axis (A : Type) : Type := mkAxis { convertToPixel : A -> num }.
Arguments mkAxis {A} _.
Arguments convertToPixel {A} _ _.

(** [indicator.extendData], when it is an object: its [pivots] property. *)
Record ExtendData : Type := mkExtendData { pivotsOf : option (list Line.t) }.

(** [styleMap[p.key] ?? { color: '#999', size: 1 }] *)
Definition stylesOf (key : Key) : Style.t :=
  match styleMap key with
  | Some styles => styles
  | None => Style.mk "#999"%string 1 None None
  end.

(** The argument of [setLineDash]:
    [styles.style === 'dashed' && Array.isArray(styles.dashedValue)]. *)
Definition lineDash (styles : Style.t) : list Z :=
  match Style.style styles, Style.dashedValue styles with
  | Some s, Some v => if String.eqb s "dashed"%string then v else []
  | _, _ => []
  end.

(** Body of [for (const p of pivots)] in [draw]. *)
Definition drawPivot (xAxis : Axis Z) (yAxis : Axis num) (p : Line.t)
    (ctx : Canvas) : Canvas :=
  let x1 := convertToPixel xAxis (Line.pivotIndex p) in
  let x2 := convertToPixel xAxis (Line.breakIndex p) in
  let y := convertToPixel yAxis (Line.price p) in
  let styles := stylesOf (Line.key p) in
  let ctx := call save ctx in
  let ctx := call (strokeStyle (Style.color styles)) ctx in
  let ctx := call (lineWidth (Style.size styles)) ctx in
  let ctx := call (setLineDash (lineDash styles)) ctx in
  let ctx := call beginPath ctx in
  let ctx := call (moveTo x1 y) ctx in
  let ctx := call (lineTo x2 y) ctx in
  let ctx := call stroke ctx in
  call restore ctx.

(** [draw({ ctx, indicator, xAxis, yAxis })]: the value returned and the
    canvas afterwards. *)
Definition draw (ctx : Canvas) (extendData : option ExtendData)
    (xAxis : Axis Z) (yAxis : Axis num) : bool * Canvas :=
  let pivots :=
    match extendData with
    | Some data =>
        match pivotsOf data with
        | Some ps => ps
        | None => []
        end
    | None => []
    end in
  if len pivots =? 0 then (true, ctx)
  else (true, fold_left (fun c p => drawPivot xAxis yAxis p c) pivots ctx).

(** [indicator.extendData] as [calc] leaves it: [{ pivots }]. *)
Definition extendDataOf (o : Output) : option ExtendData :=
  Some (mkExtendData (Some (outPivots o))).

(** * Definitions used to state and prove the properties

    ** The pivot scan as a trace

    The pivot loop touches [results] only to drop markers; its register and
    its two pivot lists are a function of the bars alone. *)

(** The indices [lo .. lo + count - 1]. *)
Fixpoint zrange (lo : Z) (count : nat) : list Z :=
  match count with
  | O => []
  | Datatypes.S c => lo :: zrange (lo + 1) c
  end.

(** The bar at an index known to be in range. *)
Definition barAt (dataList : list KLineData) (j : Z) : KLineData :=
  match getZ dataList j with
  | Some bar => bar
  | None => mkBar NaN NaN NaN NaN
  end.

(** [maxHigh], [minLow] after the window loop. *)
Definition extrema (dataList : list KLineData) (p i : Z) : num * num :=
  fold_left (fun acc j => windowStep (barAt dataList j) acc)
    (zrange (p + 1) (Z.to_nat (i + 1 - (p + 1)))) (NegInf, PosInf).

(** The pivot-high pushed at candidate [p], if any. *)
Definition emitHigh (prev cur : option Os) (p : Z) (bar : KLineData)
  : list Pivot.t :=
  if isTop cur && negb (isTop prev) then [Pivot.mk p (high bar)] else [].

(** The pivot-low pushed at candidate [p], if any. *)
Definition emitLow (prev cur : option Os) (p : Z) (bar : KLineData)
  : list Pivot.t :=
  if isBottom cur && negb (isBottom prev) then [Pivot.mk p (low bar)] else [].

(** The register after the evaluation of candidate [p] at index [p + L]. *)
Definition stateAt (d : list KLineData) (L : Z) (prev : option Os) (p : Z)
  : option Os :=
  let ext := extrema d p (p + L) in
  nextOs prev (high (barAt d p)) (low (barAt d p)) (fst ext) (snd ext).

(** Register, pivot-highs and pivot-lows after the first [k] evaluations,
    which are those of the candidates [0 .. k-1]. *)
Fixpoint scanTrace (d : list KLineData) (L : Z) (k : nat)
  : option Os * list Pivot.t * list Pivot.t :=
  match k with
  | O => (None, [], [])
  | Datatypes.S k' =>
      let '(prev, hs, ls) := scanTrace d L k' in
      let p := Z.of_nat k' in
      let cur := stateAt d L prev p in
      (cur, hs ++ emitHigh prev cur p (barAt d p),
            ls ++ emitLow prev cur p (barAt d p))
  end.

(** Register and pivot lists of the loop variables. *)
Definition traceOf (st : Scan) : option Os * list Pivot.t * list Pivot.t :=
  (os st, highs st, lows st).

(** The two keys written by the swing pivot loop. *)
Definition isMarker (k : Key) : bool :=
  match k with
  | swingHighMarker | swingLowMarker => true
  | _ => false
  end.

(** Equal on every key that is not a marker. *)
Definition sameBreaks (rs rs' : list SmartMoneyResult) : Prop :=
  forall m k, isMarker k = false -> readKey rs' m k = readKey rs m k.

(** ** The break loop, level by level

    The four checks of a bar work on disjoint variables: the checks of a
    level read and write that level's two live lists and trend register
    only.  [levelRun] is what one level does over the first [k] bars. *)

(** [Number(dataList[i].close)] *)
Definition closeAt (d : list KLineData) (i : Z) : num := close (barAt d i).

(** The bullish check of a level, on the level's variables: the new
    variables and the events recorded. *)
Definition levelBull (lvl : Level) (i : Z) (c : num) (ls : LevelState)
  : LevelState * list Line.t :=
  match findFirst (breaksHigh i c) (liveHighs ls) with
  | None => (ls, [])
  | Some (pre, pivot, post) =>
      (mkLevel (pre ++ post) (liveLows ls) Bullish,
       [Line.mk (bullKey lvl (trend ls)) (Pivot.index pivot) i
          (Pivot.price pivot) lvl])
  end.

(** The bearish check of a level, on the level's variables. *)
Definition levelBear (lvl : Level) (i : Z) (c : num) (ls : LevelState)
  : LevelState * list Line.t :=
  match findFirst (breaksLow i c) (liveLows ls) with
  | None => (ls, [])
  | Some (pre, pivot, post) =>
      match bearKey lvl (trend ls) with
      | Some key =>
          (mkLevel (liveHighs ls) (pre ++ post) Bearish,
           [Line.mk key (Pivot.index pivot) i (Pivot.price pivot) lvl])
      | None => (mkLevel (liveHighs ls) (pre ++ post) (trend ls), [])
      end
  end.

(** The two checks of a level at bar [i]. *)
Definition levelStep (lvl : Level) (i : Z) (c : num) (ls : LevelState)
  : LevelState * list Line.t :=
  let r1 := levelBull lvl i c ls in
  let r2 := levelBear lvl i c (fst r1) in
  (fst r2, snd r1 ++ snd r2).

(** The variables of a level and its events after the bars [0 .. k-1]. *)
Fixpoint levelRun (lvl : Level) (d : list KLineData) (k : nat)
    (ls0 : LevelState) : LevelState * list Line.t :=
  match k with
  | O => (ls0, [])
  | Datatypes.S k' =>
      let r := levelRun lvl d k' ls0 in
      let s := levelStep lvl (Z.of_nat k') (closeAt d (Z.of_nat k')) (fst r) in
      (fst s, snd r ++ snd s)
  end.

(** The events of a level, in the order they were recorded. *)
Definition eventsOf (lvl : Level) (evs : list Line.t) : list Line.t :=
  filter (fun e => Level_eqb (Line.level e) lvl) evs.

(** One [writeRange] call seen from outside. *)
Definition wrote (e : Line.t) (rs rs' : list SmartMoneyResult) : Prop :=
  length rs' = length rs /\
  forall m k,
    (k = Line.key e -> Line.pivotIndex e <= m <= Line.breakIndex e ->
     m < len rs -> readKey rs' m k = Some (Line.price e)) /\
    (k <> Line.key e \/ m < Line.pivotIndex e ->
     readKey rs' m k = readKey rs m k) /\
    (Line.breakIndex e < m ->
     readKey rs' m k = readKey rs m k \/ readKey rs' m k = None).

(** The [writeRange] calls of a list of events, in order. *)
Inductive writes : list Line.t -> list SmartMoneyResult ->
                   list SmartMoneyResult -> Prop :=
| writes_nil rs : writes [] rs rs
| writes_cons e es rs rs1 rs2 :
    wrote e rs rs1 -> writes es rs1 rs2 -> writes (e :: es) rs rs2.

(** Pivots whose index can be written at. *)
Definition nonneg (xs : list Pivot.t) : Prop :=
  Forall (fun pv => 0 <= Pivot.index pv) xs.

(** What a check of level [lvl] does to the whole state, given what it does
    to the level ([f]). *)
Definition acts (lvl : Level) (f : LevelState -> LevelState * list Line.t)
    (st st' : Break) : Prop :=
  levelState lvl st' = fst (f (levelState lvl st)) /\
  (forall lvl', lvl' <> lvl -> levelState lvl' st' = levelState lvl' st) /\
  pivots st' = pivots st ++ snd (f (levelState lvl st)) /\
  writes (snd (f (levelState lvl st))) (results st) (results st').

(** The eight keys [writeRange] is called with. *)
Definition isBreakKey (k : Key) : bool := negb (isMarker k).

(** Direction and classification carried by a break key. *)
Definition isBull (k : Key) : bool :=
  match k with
  | swingBosBull | swingChochBull | internalBosBull | internalChochBull => true
  | _ => false
  end.

(** The key is a CHoCH key. *)
Definition isChoch (k : Key) : bool :=
  match k with
  | swingChochBull | swingChochBear | internalChochBull | internalChochBear =>
      true
  | _ => false
  end.

(** An event recorded by a check of level [lvl] at bar [i]. *)
Definition eventAt (lvl : Level) (i : Z) (e : Line.t) : Prop :=
  Line.level e = lvl /\ Line.breakIndex e = i /\ Line.pivotIndex e < i /\
  isBreakKey (Line.key e) = true.

(** Live lists whose pivots can all be written. *)
Definition liveOk (ls : LevelState) : Prop :=
  nonneg (liveHighs ls) /\ nonneg (liveLows ls).

(** The other level. *)
Definition other (lvl : Level) : Level :=
  match lvl with Swing => Internal | Internal => Swing end.

(** ** Channel contents *)

(** The event writes [key] at index [m]. *)
Definition covers (key : Key) (m : Z) (e : Line.t) : bool :=
  Key_eqb (Line.key e) key &&
  (Line.pivotIndex e <=? m) && (m <=? Line.breakIndex e).

(** The price of the last event of the list whose range covers [m] on
    channel [key]. *)
Fixpoint lastCovering (key : Key) (m : Z) (evs : list Line.t) : option num :=
  match evs with
  | [] => None
  | e :: later =>
      match lastCovering key m later with
      | Some v => Some v
      | None => if covers key m e then Some (Line.price e) else None
      end
  end.

(** ** Facts about the trace of the pivot scan *)

(** Number of evaluation indices [L .. n-1] of the pivot loop. *)
Definition evaluations (d : list KLineData) (L : Z) : nat :=
  Z.to_nat (len d - L).

(** The three components of a trace. *)
Definition traceHighs (t : option Os * list Pivot.t * list Pivot.t)
  : list Pivot.t := snd (fst t).
Definition traceLows (t : option Os * list Pivot.t * list Pivot.t)
  : list Pivot.t := snd t.
Definition traceOs (t : option Os * list Pivot.t * list Pivot.t)
  : option Os := fst (fst t).

(** Pivots with index in [lo .. hi - 1]. *)
Definition indexIn (lo hi : Z) (xs : list Pivot.t) : Prop :=
  Forall (fun pv => lo <= Pivot.index pv < hi) xs.

(** ** [calc] as a whole *)

(** Lookback length and pivot lists of a level. *)
Definition lengthOf (lvl : Level) (swingLength internalLength : Z) : Z :=
  match lvl with Swing => swingLength | Internal => internalLength end.

Definition highsOf (lvl : Level) (o : Output) : list Pivot.t :=
  match lvl with Swing => swingHighs o | Internal => internalHighs o end.

Definition lowsOf (lvl : Level) (o : Output) : list Pivot.t :=
  match lvl with Swing => swingLows o | Internal => internalLows o end.

(** The variables [calc] enters phase 2 with. *)
Definition startOf (o : Output) : Prop :=
  startState o =
    mkBreak (mkLevel (swingHighs o) (swingLows o) Neutral)
            (mkLevel (internalHighs o) (internalLows o) Neutral)
            (results (startState o)) [] /\
  length (results (startState o)) = length (outResults o) /\
  forall key m, isBreakKey key = true ->
                readKey (results (startState o)) m key = None.

(** The level's variables when phase 2 begins. *)
Definition levelStart (lvl : Level) (o : Output) : LevelState :=
  mkLevel (highsOf lvl o) (lowsOf lvl o) Neutral.

(** The state of [calc]'s break loop after its first [k] bars. *)
Definition afterBars (d : list KLineData) (o : Output) (k : nat)
  : Result Break :=
  forLoop 0 k (breakBody d) (startState o).

(** ** One break per bar, level and direction *)

(** The event is recorded at bar [i] and is bullish ([bull = true]) or
    bearish ([bull = false]). *)
Definition atBar (i : Z) (bull : bool) (e : Line.t) : bool :=
  (Line.breakIndex e =? i) && Bool.eqb (isBull (Line.key e)) bull.

(** The events of a level and direction recorded at bar [i]. *)
Definition eventsAt (lvl : Level) (i : Z) (bull : bool) (evs : list Line.t)
  : list Line.t :=
  filter (atBar i bull) (eventsOf lvl evs).

(** The list is in the order its pivots were pushed by phase 1, which is the
    order of their indices. *)
Fixpoint inPushOrder (xs : list Pivot.t) : Prop :=
  match xs with
  | [] => True
  | x :: later =>
      Forall (fun y => Pivot.index x < Pivot.index y) later /\
      inPushOrder later
  end.

(** What a check does to a live list: nothing when no pivot passes the test;
    otherwise the first pivot that passes, in list order, leaves the list
    and is the only event recorded. *)
Definition fifoBreak (lvl : Level) (i : Z) (bull : bool)
    (test : Pivot.t -> bool) (before after : list Pivot.t)
    (emitted : list Line.t) : Prop :=
  (Forall (fun q => test q = false) before /\ after = before /\ emitted = [])
  \/
  (exists pre pv post key,
      before = pre ++ pv :: post /\
      Forall (fun q => test q = false) pre /\ test pv = true /\
      after = pre ++ post /\
      isBull key = bull /\
      emitted = [Line.mk key (Pivot.index pv) i (Pivot.price pv) lvl]).

(** ** The trend register *)

(** A break of the given direction goes against the register. *)
Definition reverses (t : Trend) (bull : bool) : bool :=
  match t, bull with
  | Bearish, true => true
  | Bullish, false => true
  | _, _ => false
  end.

(** The register an accepted break leaves. *)
Definition trendOf (bull : bool) : Trend := if bull then Bullish else Bearish.

(** Every event of the list is CHoCH exactly when it goes against the
    register left by the events before it, the register being [t] at the
    start. *)
Fixpoint classified (t : Trend) (evs : list Line.t) : Prop :=
  match evs with
  | [] => True
  | e :: later =>
      isChoch (Line.key e) = reverses t (isBull (Line.key e)) /\
      classified (trendOf (isBull (Line.key e))) later
  end.

(** The direction of the last event, or [t] when there is none. *)
Definition registerAfter (t : Trend) (evs : list Line.t) : Trend :=
  fold_left (fun _ e => trendOf (isBull (Line.key e))) evs t.

(** ** Consumed pivots *)

(** The pivot an event consumed. *)
Definition pivotOf (e : Line.t) : Pivot.t :=
  Pivot.mk (Line.pivotIndex e) (Line.price e).

(** Direction of an event. *)
Definition bullish (e : Line.t) : bool := isBull (Line.key e).
Definition bearish (e : Line.t) : bool := negb (isBull (Line.key e)).

(** What identifies the pivot of an event: level, kind (high for a bullish
    event, low for a bearish one) and index. *)
Definition consumed (e : Line.t) : Level * bool * Z :=
  (Line.level e, isBull (Line.key e), Line.pivotIndex e).

(** ** The pivot scan in the words of the specification *)

Module Spec.

(** The value of a finite field. *)
Definition value (x : num) : Z :=
  match x with Fin z => z | _ => 0 end.

(** [bar[j].high] and [bar[j].low]. *)
Definition highOf (d : list KLineData) (j : Z) : Z := value (high (barAt d j)).
Definition lowOf (d : list KLineData) (j : Z) : Z := value (low (barAt d j)).

(** The forward window (p, i]. *)
Definition window (p i : Z) : list Z := zrange (p + 1) (Z.to_nat (i - p)).

(** Maximum and minimum of a list, when it has an element. *)
Definition maximum (l : list Z) : option Z :=
  match l with
  | [] => None
  | x :: r => Some (fold_left Z.max r x)
  end.

Definition minimum (l : list Z) : option Z :=
  match l with
  | [] => None
  | x :: r => Some (fold_left Z.min r x)
  end.

(** [maxHigh] and [minLow] over the forward window (p, i]. *)
Definition maxHigh (d : list KLineData) (p i : Z) : option Z :=
  maximum (map (highOf d) (window p i)).

Definition minLow (d : list KLineData) (p i : Z) : option Z :=
  minimum (map (lowOf d) (window p i)).

(** [x] strictly exceeds the maximum [m]. *)
Definition exceeds (x : Z) (m : option Z) : bool :=
  match m with Some y => y <? x | None => false end.

(** [x] is strictly below the minimum [m]. *)
Definition below (x : Z) (m : option Z) : bool :=
  match m with Some y => x <? y | None => false end.

(** Candidate state at evaluation index [i], candidate [p = i - L]. *)
Definition candidateState (d : list KLineData) (L : Z) (prev : option Os)
    (i : Z) : option Os :=
  let p := i - L in
  if exceeds (highOf d p) (maxHigh d p i) then Some Top
  else if below (lowOf d p) (minLow d p i) then Some Bottom
  else prev.

(** The computed state is the one held before. *)
Definition sameState (a b : option Os) : bool :=
  match a, b with
  | None, None | Some Top, Some Top | Some Bottom, Some Bottom => true
  | _, _ => false
  end.

(** The pivot-highs and pivot-lows emitted when the state computed for
    candidate [p] is [cur] and the state held before was [prev]: one pivot
    when the state toggles, none otherwise. *)
Definition emitted (d : list KLineData) (prev cur : option Os) (p : Z)
  : list Pivot.t * list Pivot.t :=
  if sameState prev cur then ([], [])
  else match cur with
       | Some Top => ([Pivot.mk p (Fin (highOf d p))], [])
       | Some Bottom => ([], [Pivot.mk p (Fin (lowOf d p))])
       | None => ([], [])
       end.

(** State and pivots after the evaluation indices [L .. L + n - 1]. *)
Fixpoint scan (d : list KLineData) (L : Z) (n : nat)
  : option Os * list Pivot.t * list Pivot.t :=
  match n with
  | O => (None, [], [])
  | Datatypes.S k =>
      let '(prev, hs, ls) := scan d L k in
      let i := L + Z.of_nat k in
      let p := i - L in
      let cur := candidateState d L prev i in
      let new := emitted d prev cur p in
      (cur, hs ++ fst new, ls ++ snd new)
  end.

(** The scan over every index [i] from [L] to [n - 1]. *)
Definition pivotScan (d : list KLineData) (L : Z)
  : option Os * list Pivot.t * list Pivot.t :=
  scan d L (Z.to_nat (len d - L)).

End Spec.

(** Bars whose high and low are finite numbers. *)
Definition finiteBars (d : list KLineData) : Prop :=
  Forall (fun bar => isFinite (high bar) = true /\ isFinite (low bar) = true) d.

(** ** One pivot per candidate *)

(** The candidate's high beats its forward window. *)
Definition qualifiesTop (d : list KLineData) (L p : Z) : bool :=
  gt (high (barAt d p)) (fst (extrema d p (p + L))).

(** The candidate's low is under its forward window. *)
Definition qualifiesBottom (d : list KLineData) (L p : Z) : bool :=
  lt (low (barAt d p)) (snd (extrema d p (p + L))).

(** The live lists followed by pivots not yet eligible. *)
Definition extend (xh xl : list Pivot.t) (ls : LevelState) : LevelState :=
  mkLevel (liveHighs ls ++ xh) (liveLows ls ++ xl) (trend ls).

(** Pivots that no bar up to [i] can break. *)
Definition notBefore (i : Z) (xs : list Pivot.t) : Prop :=
  Forall (fun pv => i <= Pivot.index pv) xs.

(** ** The symmetric-window detection as a filter *)

(** No bar of [lo .. lo + count - 1] other than [i] beats bar [i]. *)
Definition unbeatenBy (d : list KLineData) (beaten : KLineData -> bool)
    (i lo : Z) (count : nat) : bool :=
  forallb (fun j => (j =? i) || negb (beaten (barAt d j))) (zrange lo count).

(** Bar [i] is a pivot-high of the symmetric window of length [L]. *)
Definition peak (d : list KLineData) (L i : Z) : bool :=
  Symmetric.inRange d L i &&
  unbeatenBy d (fun bar => ge (high bar) (high (barAt d i))) i (i - L)
    (Z.to_nat (i + L + 1 - (i - L))).

(** Bar [i] is a pivot-low of the symmetric window of length [L]. *)
Definition trough (d : list KLineData) (L i : Z) : bool :=
  Symmetric.inRange d L i &&
  unbeatenBy d (fun bar => le (low bar) (low (barAt d i))) i (i - L)
    (Z.to_nat (i + L + 1 - (i - L))).

(** The pivots of the bars below [k] selected by [sel]. *)
Definition found (sel : Z -> bool) (price : Z -> num) (k : nat)
  : list Pivot.t :=
  map (fun i => Pivot.mk i (price i)) (filter sel (zrange 0 k)).

(** The pivot lists of a level. *)
Definition symHighs (lvl : Level) (s : Symmetric.Scan) : list Pivot.t :=
  match lvl with
  | Swing => Symmetric.swingHighs s
  | Internal => Symmetric.internalHighs s
  end.

Definition symLows (lvl : Level) (s : Symmetric.Scan) : list Pivot.t :=
  match lvl with
  | Swing => Symmetric.swingLows s
  | Internal => Symmetric.internalLows s
  end.

(** Bars with [low <= close <= high]. *)
Definition consistentBars (d : list KLineData) : Prop :=
  Forall (fun bar => le (low bar) (close bar) = true /\
                     le (close bar) (high bar) = true) d.

(** The comparison that made the event: the close of its bar against the
    price of its pivot. *)
Definition crossed (d : list KLineData) (e : Line.t) : bool :=
  if isBull (Line.key e)
  then gt (closeAt d (Line.breakIndex e)) (Line.price e)
  else lt (closeAt d (Line.breakIndex e)) (Line.price e).

(** ** The returned array and the recorded events as a whole *)

(** The level whose checks write a break key. *)
Definition levelOfKey (k : Key) : option Level :=
  match k with
  | swingBosBull | swingBosBear | swingChochBull | swingChochBear => Some Swing
  | internalBosBull | internalBosBear | internalChochBull | internalChochBear =>
      Some Internal
  | swingHighMarker | swingLowMarker => None
  end.

(** Place of an event in the order of the checks: bar by bar, the swing
    checks before the internal ones, the bullish check before the bearish
    one. *)
Definition rank (e : Line.t) : Z :=
  4 * Line.breakIndex e +
  (match Line.level e with Swing => 0 | Internal => 2 end) +
  (if isBull (Line.key e) then 0 else 1).

(** Every marker and every break channel of the array is empty. *)
Definition blank (rs : list SmartMoneyResult) : Prop :=
  forall m key, readKey rs m key = None.

(** ** What [draw] leaves on the canvas *)

(** The list [draw] iterates over:
    [(extendData as { pivots? } | undefined)?.pivots ?? []]. *)
Definition recorded (extendData : option ExtendData) : list Line.t :=
  match extendData with
  | Some data =>
      match pivotsOf data with
      | Some ps => ps
      | None => []
      end
  | None => []
  end.

(** Depth of the context's stack of saved states after the operations, from
    the depth [depth]; [None] when a [restore] finds the stack empty. *)
Fixpoint stackDepth (depth : nat) (ops : list CanvasOp) : option nat :=
  match ops with
  | [] => Some depth
  | save :: later => stackDepth (Datatypes.S depth) later
  | restore :: later =>
      match depth with
      | O => None
      | Datatypes.S below => stackDepth below later
      end
  | _ :: later => stackDepth depth later
  end.

(** A straight path, by its two end points. *)
Record Stroke : Type := mkStroke
  { fromX : num; fromY : num; toX : num; toY : num }.

(** The straight paths of the operations: each [moveTo] directly followed by
    a [lineTo]. *)
Fixpoint paths (ops : list CanvasOp) : list Stroke :=
  match ops with
  | [] => []
  | op :: later =>
      match op, later with
      | moveTo x1 y1, lineTo x2 y2 :: _ => mkStroke x1 y1 x2 y2 :: paths later
      | _, _ => paths later
      end
  end.

(** Number of [stroke] calls. *)
Definition strokes (ops : list CanvasOp) : nat :=
  length (filter (fun op => match op with stroke => true | _ => false end) ops).

(** The horizontal line of an event, from its pivot to its break. *)
Definition lineOf (xAxis : Axis Z) (yAxis : Axis num) (e : Line.t) : Stroke :=
  mkStroke (convertToPixel xAxis (Line.pivotIndex e))
           (convertToPixel yAxis (Line.price e))
           (convertToPixel xAxis (Line.breakIndex e))
           (convertToPixel yAxis (Line.price e)).

(** The figure of [figures] with a given key. *)
Definition figureOf (key : Key) : option Figure.t :=
  find (fun f => Key_eqb (Figure.key f) key) figures.

(** The line of an event as the figure table styles it: colour, width and
    dash pattern of the figure that has the key of the event. *)
Definition figureLine (xAxis : Axis Z) (yAxis : Axis num) (e : Line.t)
  : list CanvasOp :=
  match figureOf (Line.key e) with
  | Some f =>
      let s := Figure.styles f in
      [ save;
        strokeStyle (FigureStyle.color s);
        lineWidth (match FigureStyle.size s with Some w => w | None => 1 end);
        setLineDash
          (match FigureStyle.dashValue s with Some v => v | None => [] end);
        beginPath;
        moveTo (convertToPixel xAxis (Line.pivotIndex e))
               (convertToPixel yAxis (Line.price e));
        lineTo (convertToPixel xAxis (Line.breakIndex e))
               (convertToPixel yAxis (Line.price e));
        stroke;
        restore ]
  | None => []
  end.

(** Pixel axes used as an example: the identity on prices, ten pixels per
    bar. *)
Definition tenPerBar : Axis Z := mkAxis (fun i => Fin (10 * i)).
Definition unitPrice : Axis num := mkAxis (fun v => v).

(** ** The earlier version as a whole *)

(** Bars whose high and low are numbers: any two of them compare. *)
Definition comparableBars (d : list KLineData) : Prop :=
  Forall (fun bar => high bar <> NaN /\ low bar <> NaN) d.

(** Every bar as a pivot, by the field [price]. *)
Definition everyBar (price : KLineData -> num) (d : list KLineData)
  : list Pivot.t :=
  map (fun i => Pivot.mk i (price (barAt d i))) (zrange 0 (length d)).

(** The events a level records over all the bars, from the pivot-highs [hs]
    and the pivot-lows [ls] and a Neutral register. *)
Definition breaksOf (lvl : Level) (d : list KLineData) (hs ls : list Pivot.t)
  : list Line.t :=
  snd (levelRun lvl d (length d) (mkLevel hs ls Neutral)).

(** What a check of the earlier version does to the whole state, given what
    it does to the level ([f]): the same as [acts], without a list of render
    instructions. *)
Definition paints (lvl : Level) (f : LevelState -> LevelState * list Line.t)
    (st st' : Symmetric.Break) : Prop :=
  Symmetric.levelState lvl st' = fst (f (Symmetric.levelState lvl st)) /\
  (forall lvl', lvl' <> lvl ->
                Symmetric.levelState lvl' st' = Symmetric.levelState lvl' st) /\
  writes (snd (f (Symmetric.levelState lvl st)))
    (Symmetric.lines st) (Symmetric.lines st').

(** ** Prices on another scale *)

(** A change of price scale: it keeps the order of any two numbers and
    leaves the two infinities in place. *)
Definition orderPreserving (f : num -> num) : Prop :=
  (forall a b, gt (f a) (f b) = gt a b) /\
  f NegInf = NegInf /\ f PosInf = PosInf.

(** Bars, pivots, events and level variables with their prices rescaled. *)
Definition rescale (f : num -> num) (bar : KLineData) : KLineData :=
  mkBar (f (open bar)) (f (high bar)) (f (low bar)) (f (close bar)).

Definition rescalePivot (f : num -> num) (pv : Pivot.t) : Pivot.t :=
  Pivot.mk (Pivot.index pv) (f (Pivot.price pv)).

Definition rescaleLine (f : num -> num) (e : Line.t) : Line.t :=
  Line.mk (Line.key e) (Line.pivotIndex e) (Line.breakIndex e)
    (f (Line.price e)) (Line.level e).

Definition rescaleLevel (f : num -> num) (ls : LevelState) : LevelState :=
  mkLevel (map (rescalePivot f) (liveHighs ls))
          (map (rescalePivot f) (liveLows ls)) (trend ls).

(** Twice the price plus three, on finite prices. *)
Definition doubled (x : num) : num :=
  match x with
  | Fin z => Fin (2 * z + 3)
  | _ => x
  end.

(** ** Concrete inputs *)

(** A bar with all four fields equal. *)
Definition flat (x : num) : KLineData := mkBar x x x x.

(** The scenario of the specification: nine bars whose highs and closes are
    1, 2, 5, 3, 2, 1, 2, 6, 3. *)
Definition scenario : list KLineData :=
  map (fun h => flat (Fin h)) [1; 2; 5; 3; 2; 1; 2; 6; 3].

(** Six bars given by their highs and lows. *)
Definition zigzag : list KLineData :=
  map (fun hl => mkBar (Fin (snd hl)) (Fin (fst hl)) (Fin (snd hl)) (Fin (snd hl)))
    [(10, 1); (5, 0); (4, 2); (6, 1); (3, 1); (2, 1)].

(** A channel holding the price 5 over the indices 2 .. 5 of ten. *)
Definition oneRun : list SmartMoneyResult :=
  map (fun j => if (2 <=? j) && (j <=? 5)
                then setProp emptyResult swingBosBull (Some (Fin 5))
                else emptyResult)
      (zrange 0 10).

(** A channel holding the price 5 over the indices 0 .. 3 of six. *)
Definition headRun : list SmartMoneyResult :=
  map (fun j => if j <=? 3
                then setProp emptyResult swingBosBull (Some (Fin 5))
                else emptyResult)
      (zrange 0 6).

(** Three bars, the middle one without a high and a low. *)
Definition gapped : list KLineData := [flat (Fin 1); flat NaN; flat (Fin 1)].

(** Five bars with highs and closes 1, 1, 5, 3, 6 and low 0: bar 2 is the one
    pivot-high of both detections with lookback 1, broken by bar 4. *)
Definition oneTop : list KLineData :=
  map (fun h => mkBar (Fin h) (Fin h) (Fin 0) (Fin h)) [1; 1; 5; 3; 6].

(** Five bars with all fields 5, 1, 3, 1, 6: with lookback 1 the highs of
    bars 0 and 2 are pivots, and the close of bar 4 is above both. *)
Definition stairs : list KLineData :=
  map (fun h => flat (Fin h)) [5; 1; 3; 1; 6].

(** * Properties *)

(** Case analysis on the integer tests of a goal. *)
Ltac ztest :=
  repeat match goal with
    | |- context [?a <? ?b] => destruct (Z.ltb_spec a b)
    | |- context [?a <=? ?b] => destruct (Z.leb_spec a b)
    | |- context [?a =? ?b] => destruct (Z.eqb_spec a b)
    | H : context [?a <? ?b] |- _ => destruct (Z.ltb_spec a b)
    | H : context [?a <=? ?b] |- _ => destruct (Z.leb_spec a b)
    | H : context [?a =? ?b] |- _ => destruct (Z.eqb_spec a b)
    end.

(** ** Loops *)

Section Loops.
Context {S : Type}.
Implicit Types (body : Z -> S -> Result S) (s : S).

(** Invariant rule giving termination without exception. *)
Lemma forLoop_total (P : Z -> S -> Prop) lo c body s :
  P lo s ->
  (forall k s', lo <= k < lo + Z.of_nat c -> P k s' ->
                exists s'', body k s' = Ok s'' /\ P (k + 1) s'') ->
  exists s', forLoop lo c body s = Ok s' /\ P (lo + Z.of_nat c) s'.
Proof.
  revert lo s; induction c as [|c IH]; intros lo s H0 Hstep.
  - exists s. rewrite Z.add_0_r. now split.
  - destruct (Hstep lo s) as (s1 & E1 & P1); [lia|assumption|].
    destruct (IH (lo + 1) s1 P1) as (s' & E & P').
    { intros; apply Hstep; [lia|assumption]. }
    exists s'. cbn [forLoop]. rewrite E1, E. split; [reflexivity|].
    now replace (lo + Z.of_nat (Datatypes.S c)) with (lo + 1 + Z.of_nat c) by lia.
Qed.

(** A loop whose turns never throw is a fold. *)
Lemma forLoop_pure (f : S -> Z -> S) lo c body s :
  (forall k s', lo <= k < lo + Z.of_nat c -> body k s' = Ok (f s' k)) ->
  forLoop lo c body s = Ok (fold_left f (zrange lo c) s).
Proof.
  revert lo s; induction c as [|c IH]; intros lo s H; [reflexivity|].
  cbn [forLoop zrange fold_left]. rewrite H by lia. apply IH.
  intros; apply H; lia.
Qed.

(** A loop one of whose turns always throws, throws. *)
Lemma forLoop_throws lo c body k s :
  lo <= k < lo + Z.of_nat c -> (forall s', body k s' = TypeError) ->
  forLoop lo c body s = TypeError.
Proof.
  revert lo s; induction c as [|c IH]; intros lo s Hk Hb; [lia|].
  cbn [forLoop]. destruct (Z.eq_dec lo k) as [->|N]; [now rewrite Hb|].
  destruct (body lo s); [|reflexivity]. apply IH; [lia|assumption].
Qed.

End Loops.

Lemma bind_Ok {A B : Type} (r : Result A) (k : A -> Result B) (b : B) :
  bind r k = Ok b -> exists a, r = Ok a /\ k a = Ok b.
Proof. destruct r as [a|]; simpl; [eauto|discriminate]. Qed.

(** ** Arrays *)

Lemma getZ_Some {A : Type} (l : list A) (j : Z) :
  0 <= j < len l -> exists a, getZ l j = Some a.
Proof.
  unfold getZ, len. intros H. destruct (j <? 0) eqn:E; [lia|].
  destruct (nth_error l (Z.to_nat j)) eqn:N; [eauto|].
  apply nth_error_None in N. lia.
Qed.

Lemma getZ_None {A : Type} (l : list A) (j : Z) :
  j < 0 \/ len l <= j -> getZ l j = None.
Proof.
  unfold getZ, len. intros H. destruct (j <? 0) eqn:E; [reflexivity|].
  apply nth_error_None. lia.
Qed.

Lemma getZ_range {A : Type} (l : list A) (j : Z) (a : A) :
  getZ l j = Some a -> 0 <= j < len l.
Proof.
  unfold getZ, len. destruct (j <? 0) eqn:E; [discriminate|]. intros H.
  assert (nth_error l (Z.to_nat j) <> None) as N by congruence.
  apply nth_error_Some in N. lia.
Qed.

Lemma getZ_app_l {A : Type} (l l' : list A) (j : Z) :
  j < len l -> getZ (l ++ l') j = getZ l j.
Proof.
  unfold getZ, len. intros H. destruct (j <? 0) eqn:E; [reflexivity|].
  apply nth_error_app1. lia.
Qed.

Lemma updNat_length {A : Type} (l : list A) n f :
  length (updNat l n f) = length l.
Proof.
  revert n; induction l as [|a l IH]; intros [|n]; simpl; auto.
Qed.

Lemma updNat_nth_same {A : Type} (l : list A) n f a :
  nth_error l n = Some a -> nth_error (updNat l n f) n = Some (f a).
Proof.
  revert n; induction l as [|b l IH]; intros [|n]; simpl; try discriminate.
  - now intros [= ->].
  - apply IH.
Qed.

Lemma updNat_nth_other {A : Type} (l : list A) n m f :
  n <> m -> nth_error (updNat l n f) m = nth_error l m.
Proof.
  revert n m; induction l as [|b l IH]; intros [|n] [|m] H; simpl; auto;
    try contradiction.
Qed.

Lemma Key_eqb_refl k : Key_eqb k k = true.
Proof. unfold Key_eqb. destruct (Key_eq_dec k k); congruence. Qed.

Lemma Key_eqb_eq k k' : Key_eqb k k' = true <-> k = k'.
Proof. unfold Key_eqb. destruct (Key_eq_dec k k'); split; congruence. Qed.

Lemma Key_eqb_neq k k' : Key_eqb k k' = false <-> k <> k'.
Proof. unfold Key_eqb. destruct (Key_eq_dec k k'); split; congruence. Qed.

(** What a successful property write leaves in the array. *)
Lemma setKey_spec rs j key v rs' :
  setKey rs j key v = Ok rs' ->
  length rs' = length rs /\ 0 <= j < len rs /\
  forall m k, readKey rs' m k =
              if (m =? j) && Key_eqb k key then v else readKey rs m k.
Proof.
  unfold setKey. destruct (getZ rs j) as [r|] eqn:G; [|discriminate].
  intros [= <-]. pose proof (getZ_range _ _ _ G) as R.
  split; [apply updNat_length|]. split; [assumption|].
  intros m k. unfold readKey, getZ in *.
  destruct (j <? 0) eqn:Ej; [lia|].
  destruct (m <? 0) eqn:Em.
  - replace (m =? j) with false by lia. reflexivity.
  - destruct (m =? j) eqn:Emj.
    + assert (m = j) as -> by lia. rewrite (updNat_nth_same _ _ _ _ G), G.
      unfold setProp. now destruct (Key_eqb k key).
    + rewrite updNat_nth_other by lia. reflexivity.
Qed.

Lemma setKey_Ok rs j key v :
  0 <= j < len rs -> exists rs', setKey rs j key v = Ok rs'.
Proof.
  intros H. destruct (getZ_Some rs j H) as (r & G).
  unfold setKey. rewrite G. eauto.
Qed.

(** ** The channel writer *)

Lemma defined_range rs key m : defined rs key m = true -> 0 <= m < len rs.
Proof.
  unfold defined, readKey. destruct (getZ rs m) eqn:G; [|discriminate].
  intros _. eapply getZ_range; eauto.
Qed.

(** [fillRange] never throws from a non-negative start, and writes exactly the
    part of [start .. stop] that lies inside the array. *)
Lemma fillRange_spec key start stop v rs :
  0 <= start ->
  exists rs', fillRange key start stop v rs = Ok rs' /\
    length rs' = length rs /\
    forall m k, readKey rs' m k =
      if Key_eqb k key && (start <=? m) && (m <=? stop) && (m <? len rs)
      then v else readKey rs m k.
Proof.
  intros Hs. unfold fillRange, forUpTo.
  set (hi := Z.min stop (len rs - 1) + 1).
  destruct (forLoop_total
    (fun j r => length r = length rs /\
       forall m k, readKey r m k =
         if Key_eqb k key && (start <=? m) && (m <? j) then v
         else readKey rs m k)
    start (Z.to_nat (hi - start)) (fun j r => setKey r j key v) rs)
    as (rs' & E & L & R).
  - split; [reflexivity|]. intros m k.
    destruct (Key_eqb k key); simpl; ztest; simpl; reflexivity || lia.
  - intros j r Hj (L & R).
    destruct (setKey_Ok r j key v) as (r' & E).
    { unfold len in *. rewrite L. lia. }
    exists r'. split; [assumption|].
    destruct (setKey_spec _ _ _ _ _ E) as (L' & _ & R').
    split; [congruence|]. intros m k. rewrite R', R.
    destruct (Key_eqb k key); simpl; ztest; simpl; reflexivity || lia.
  - exists rs'. split; [assumption|]. split; [assumption|].
    intros m k. rewrite R.
    destruct (Key_eqb k key); simpl; [|reflexivity].
    ztest; simpl; reflexivity || lia.
Qed.

Lemma scanBack_none rs key k acc :
  defined rs key (Z.of_nat k) = false -> scanBack rs key k acc = acc.
Proof. intros H. destruct k; cbn [scanBack]; now rewrite H. Qed.

(** The backward scan stops at the first index of the run it starts in. *)
Lemma scanBack_run rs key k acc :
  defined rs key (Z.of_nat k) = true ->
  exists a, scanBack rs key k acc = Some a /\ 0 <= a <= Z.of_nat k /\
    (forall m, a <= m <= Z.of_nat k -> defined rs key m = true) /\
    (a = 0 \/ defined rs key (a - 1) = false).
Proof.
  revert acc; induction k as [|k IH]; intros acc D.
  - exists 0. cbn [scanBack]. rewrite D.
    split; [reflexivity|]. split; [lia|]. split; [|now left].
    intros m Hm. now replace m with (Z.of_nat 0) by lia.
  - cbn [scanBack]. rewrite D.
    destruct (defined rs key (Z.of_nat k)) eqn:Dk.
    + destruct (IH (Some (Z.of_nat (Datatypes.S k))) eq_refl)
        as (a & E & Ha & Hall & Hlow).
      exists a. split; [assumption|]. split; [lia|]. split; [|assumption].
      intros m Hm. destruct (Z.eq_dec m (Z.of_nat (Datatypes.S k))) as [->|N];
        [assumption|apply Hall; lia].
    + rewrite scanBack_none by assumption.
      exists (Z.of_nat (Datatypes.S k)). split; [reflexivity|].
      split; [lia|]. split.
      * intros m Hm. now replace m with (Z.of_nat (Datatypes.S k)) by lia.
      * right. now replace (Z.of_nat (Datatypes.S k) - 1) with (Z.of_nat k) by lia.
Qed.

(** The forward scan, given enough turns, stops at the last index of the
    run. *)
Lemma scanFwd_run rs key fuel r b :
  r <= b ->
  (forall m, r < m <= b -> defined rs key m = true) ->
  defined rs key (b + 1) = false ->
  (Z.to_nat (b - r) <= fuel)%nat ->
  scanFwd rs key fuel r = b.
Proof.
  revert r; induction fuel as [|fuel IH]; intros r Hr Hall Hend Hf.
  - simpl. lia.
  - cbn [scanFwd]. destruct (Z.eq_dec r b) as [->|N].
    + rewrite Hend, andb_false_r. reflexivity.
    + assert (defined rs key (r + 1) = true) as D by (apply Hall; lia).
      pose proof (defined_range _ _ _ D) as Rg.
      rewrite D. replace (r + 1 <? len rs) with true by lia. simpl.
      apply IH; try lia; [intros; apply Hall; lia|assumption].
Qed.

(** The turns given to the forward scan are enough: it stops because its
    test fails. *)
Lemma scanFwd_stops rs key fuel r :
  (Z.to_nat (len rs - 1 - r) <= fuel)%nat ->
  let e := scanFwd rs key fuel r in
  r <= e /\ (e + 1 <? len rs) && defined rs key (e + 1) = false.
Proof.
  revert r; induction fuel as [|fuel IH]; intros r Hf; cbn zeta.
  - cbn [scanFwd]. split; [lia|].
    replace (r + 1 <? len rs) with false by lia. reflexivity.
  - cbn [scanFwd].
    destruct ((r + 1 <? len rs) && defined rs key (r + 1)) eqn:C.
    + destruct (IH (r + 1)) as (Hle & Hstop); [lia|]. split; [lia|exact Hstop].
    + split; [lia|exact C].
Qed.

(** Whatever the first half of [writeRange] cuts lies at or after [start]
    and is on the written key. *)
Lemma truncateRun_frame key start rs :
  0 <= start ->
  exists rs1, truncateRun key start rs = Ok rs1 /\
    length rs1 = length rs /\
    forall m k, readKey rs1 m k = readKey rs m k \/
                (k = key /\ start <= m /\ readKey rs1 m k = None).
Proof.
  intros Hs. unfold truncateRun.
  destruct (scanBack rs key _ None) as [runStart|].
  2:{ exists rs. repeat split. now left. }
  destruct (start <=? _).
  2:{ exists rs. repeat split. now left. }
  destruct (fillRange_spec key start
              (scanFwd rs key (Z.to_nat (len rs - runStart)) runStart) None rs Hs)
    as (rs1 & E & L & R).
  exists rs1. split; [assumption|]. split; [assumption|].
  intros m k. rewrite R.
  destruct (Key_eqb k key) eqn:K; simpl; [|now left].
  apply Key_eqb_eq in K. ztest; simpl; auto.
Qed.

(** A run that begins before [start] and continues into it is cut to end at
    [start - 1]. *)
Lemma truncateRun_cut key start rs a b :
  0 <= a < start -> start <= b ->
  (forall m, a <= m <= b -> defined rs key m = true) ->
  defined rs key (b + 1) = false ->
  exists rs1, truncateRun key start rs = Ok rs1 /\
    length rs1 = length rs /\
    forall m k, readKey rs1 m k =
      if Key_eqb k key && (start <=? m) && (m <=? b) then None
      else readKey rs m k.
Proof.
  intros Ha Hb Hall Hend. unfold truncateRun.
  replace (Z.max 0 (start - 1)) with (start - 1) by lia.
  destruct (scanBack_run rs key (Z.to_nat (start - 1)) None)
    as (a' & E & Ha' & Hall' & _).
  { apply Hall. lia. }
  rewrite E.
  assert (b < len rs) as Hlen.
  { assert (defined rs key b = true) as D by (apply Hall; lia).
    apply defined_range in D. lia. }
  rewrite (scanFwd_run rs key _ a' b); try lia; try assumption.
  2:{ intros m Hm. destruct (Z_lt_le_dec m start); [apply Hall'|apply Hall]; lia. }
  replace (start <=? b) with true by lia.
  destruct (fillRange_spec key start b None rs) as (rs1 & E1 & L & R); [lia|].
  exists rs1. split; [assumption|]. split; [assumption|].
  intros m k. rewrite R.
  destruct (Key_eqb k key); simpl; [|reflexivity].
  ztest; simpl; reflexivity || lia.
Qed.

(** When nothing is stored at [start - 1], nothing is cut. *)
Lemma truncateRun_none key start rs :
  0 < start -> defined rs key (start - 1) = false ->
  truncateRun key start rs = Ok rs.
Proof.
  intros Hs D. unfold truncateRun.
  replace (Z.max 0 (start - 1)) with (start - 1) by lia.
  rewrite scanBack_none; [reflexivity|].
  now rewrite Z2Nat.id by lia.
Qed.

(** [writeRange] from a non-negative start: the range is written, everything
    before it and every other key is kept, and an index after the range keeps
    its value or loses it. *)
Lemma writeRange_spec key start stop price rs :
  0 <= start ->
  exists rs', writeRange key start stop price rs = Ok rs' /\
    length rs' = length rs /\
    forall m k,
      (k = key -> start <= m <= stop -> m < len rs ->
       readKey rs' m k = Some price) /\
      (k <> key \/ m < start -> readKey rs' m k = readKey rs m k) /\
      (stop < m ->
       readKey rs' m k = readKey rs m k \/ readKey rs' m k = None).
Proof.
  intros Hs. unfold writeRange.
  destruct (truncateRun_frame key start rs Hs) as (rs1 & E1 & L1 & R1).
  destruct (fillRange_spec key start stop (Some price) rs1 Hs)
    as (rs' & E & L & R).
  exists rs'. rewrite E1. simpl. split; [assumption|]. split; [congruence|].
  assert (len rs1 = len rs) as LL by (unfold len; congruence).
  intros m k. rewrite R, LL. clear R. specialize (R1 m k).
  destruct (Key_eqb k key) eqn:K; simpl.
  - apply Key_eqb_eq in K. subst k. repeat split.
    + intros _ Hm Hl. ztest; simpl; reflexivity || lia.
    + intros [N|Hm]; [congruence|].
      ztest; simpl; try lia; destruct R1 as [->|(_ & ? & _)]; reflexivity || lia.
    + intros Hm. ztest; simpl; try lia;
        destruct R1 as [-> | (_ & ? & ->)]; auto.
  - apply Key_eqb_neq in K. repeat split.
    + intros ->. congruence.
    + intros _. destruct R1 as [->|(? & _)]; [reflexivity|congruence].
    + intros _. left. destruct R1 as [->|(? & _)]; [reflexivity|congruence].
Qed.

(** ** The pivot scan *)

Lemma zrange_In lo count k :
  In k (zrange lo count) <-> lo <= k < lo + Z.of_nat count.
Proof.
  revert lo; induction count as [|c IH]; intros lo; simpl; [lia|].
  rewrite IH. lia.
Qed.

Lemma zrange_app lo c1 c2 :
  zrange lo (c1 + c2) = zrange lo c1 ++ zrange (lo + Z.of_nat c1) c2.
Proof.
  revert lo; induction c1 as [|c1 IH]; intros lo; simpl.
  - now rewrite Z.add_0_r.
  - rewrite IH. do 3 f_equal. lia.
Qed.

Lemma item_barAt (d : list KLineData) j :
  0 <= j < len d -> item d j = Ok (barAt d j).
Proof.
  intros H. destruct (getZ_Some d j H) as (b & G).
  unfold item, barAt. now rewrite G.
Qed.

Lemma windowExtrema_pure d p i :
  0 <= p + 1 -> i < len d -> windowExtrema d p i = Ok (extrema d p i).
Proof.
  intros Hp Hi. unfold windowExtrema, forUpTo, extrema.
  apply forLoop_pure. intros k acc Hk. unfold windowBody.
  rewrite item_barAt by lia. reflexivity.
Qed.

Lemma writeMarker_Ok lvl key p v rs :
  0 <= p < len rs -> isMarker key = true ->
  exists rs', writeMarker lvl key p v rs = Ok rs' /\
    length rs' = length rs /\ sameBreaks rs rs'.
Proof.
  intros H K. destruct lvl; simpl; [|exists rs; repeat split].
  destruct (setKey_Ok rs p key (Some v) H) as (rs' & E). exists rs'.
  split; [assumption|]. apply setKey_spec in E. destruct E as (L & _ & R).
  split; [assumption|]. intros m k Kk. rewrite R.
  destruct (Key_eqb k key) eqn:EK; [|now rewrite andb_false_r].
  apply Key_eqb_eq in EK. congruence.
Qed.

(** One evaluation of the pivot loop, for an index whose candidate exists. *)
Lemma pivotBody_step lvl d L i st :
  0 <= i - L -> 0 <= L -> i < len d -> length (marks st) = length d ->
  exists st', pivotBody lvl d L i st = Ok st' /\
    length (marks st') = length d /\
    sameBreaks (marks st) (marks st') /\
    traceOf st' =
      (let p := i - L in
       let cur := stateAt d L (os st) p in
       (cur, highs st ++ emitHigh (os st) cur p (barAt d p),
             lows st ++ emitLow (os st) cur p (barAt d p))).
Proof.
  intros Hp HL Hi Hm. unfold pivotBody.
  rewrite windowExtrema_pure by lia. cbn [bind].
  rewrite item_barAt by lia. cbn [bind].
  unfold stateAt, emitHigh, emitLow, Number.
  replace (i - L + L) with i by lia.
  set (cur := nextOs _ _ _ _ _).
  assert (0 <= i - L < len (marks st)) as Hr by (unfold len in *; lia).
  destruct (isTop cur && negb (isTop (os st))) eqn:ET.
  - destruct (writeMarker_Ok lvl swingHighMarker (i - L)
                (high (barAt d (i - L))) (marks st) Hr eq_refl)
      as (r1 & E1 & L1 & F1).
    rewrite E1. cbn [bind os highs lows marks].
    assert (isBottom cur && negb (isBottom (os st)) = false) as EB.
    { destruct cur as [[|]|]; simpl in *; try reflexivity; discriminate. }
    rewrite EB. cbn [bind os highs lows marks]. eexists. split; [reflexivity|].
    cbn [marks]. split; [congruence|]. split; [assumption|].
    unfold traceOf. cbn [os highs lows]. now rewrite app_nil_r.
  - cbn [bind]. destruct (isBottom cur && negb (isBottom (os st))) eqn:EB.
    + destruct (writeMarker_Ok lvl swingLowMarker (i - L)
                  (low (barAt d (i - L))) (marks st) Hr eq_refl)
        as (r1 & E1 & L1 & F1).
      rewrite E1. cbn [bind os highs lows marks]. eexists. split; [reflexivity|].
      cbn [marks]. split; [congruence|]. split; [assumption|].
      unfold traceOf. cbn [os highs lows]. now rewrite app_nil_r.
    + cbn [bind]. eexists. split; [reflexivity|]. cbn [marks].
      split; [assumption|]. split; [now intros m k _|].
      unfold traceOf. cbn [os highs lows]. now rewrite !app_nil_r.
Qed.

(** The pivot loop of a level never throws for a lookback [L >= 0], and its
    outcome is the trace of the [len d - L] candidates it evaluates. *)
Lemma detectPivots_trace lvl d L rs :
  0 <= L -> length rs = length d ->
  exists st, detectPivots lvl d L rs = Ok st /\
    length (marks st) = length d /\
    sameBreaks rs (marks st) /\
    traceOf st = scanTrace d L (Z.to_nat (len d - L)).
Proof.
  intros HL Hrs. unfold detectPivots, forUpTo.
  destruct (forLoop_total
    (fun i st => length (marks st) = length d /\
                 sameBreaks rs (marks st) /\
                 traceOf st = scanTrace d L (Z.to_nat (i - L)))
    L (Z.to_nat (len d - L)) (pivotBody lvl d L) (mkScan None [] [] rs))
    as (st & E & Lm & Fm & T).
  - split; [assumption|]. split; [now intros m k _|]. now rewrite Z.sub_diag.
  - intros i st Hi (Lm & Fm & T).
    destruct (pivotBody_step lvl d L i st) as (st' & E & Lm' & Fm' & T');
      try lia.
    exists st'. split; [assumption|]. split; [assumption|]. split.
    { intros m k K. rewrite Fm', Fm by assumption. reflexivity. }
    rewrite T'. replace (Z.to_nat (i + 1 - L)) with (Datatypes.S (Z.to_nat (i - L))) by lia.
    cbn [scanTrace]. unfold traceOf in T. rewrite <- T.
    now rewrite Z2Nat.id by lia.
  - exists st. split; [assumption|]. split; [assumption|]. split; [assumption|].
    rewrite T. f_equal. lia.
Qed.

(** With a negative lookback the candidate index runs past the end of the
    bars before the loop ends. *)
Lemma detectPivots_negative lvl d L rs :
  L < 0 -> detectPivots lvl d L rs = TypeError.
Proof.
  intros HL. unfold detectPivots, forUpTo.
  apply forLoop_throws with (k := len d + L); [unfold len; lia|].
  intros st. unfold pivotBody, windowExtrema, forUpTo.
  replace (Z.to_nat _) with O by lia. cbn [forLoop bind].
  unfold item. rewrite getZ_None; [reflexivity|]. right. lia.
Qed.

(** ** The checks of the break loop *)

Lemma writes_app a b r0 r1 r2 :
  writes a r0 r1 -> writes b r1 r2 -> writes (a ++ b) r0 r2.
Proof.
  induction 1 as [|e es rs rs1 rs2 W _ IH]; intros Hb; simpl; [assumption|].
  econstructor; eauto.
Qed.

Lemma writes_length evs r0 r1 : writes evs r0 r1 -> length r1 = length r0.
Proof.
  induction 1 as [|e es rs rs1 rs2 (L & _) _ IH]; [reflexivity|congruence].
Qed.

Lemma findFirst_Some {A : Type} (t : A -> bool) xs pre x post :
  findFirst t xs = Some (pre, x, post) ->
  xs = pre ++ x :: post /\ t x = true /\ Forall (fun y => t y = false) pre.
Proof.
  revert pre; induction xs as [|a xs IH]; intros pre; simpl; [discriminate|].
  destruct (t a) eqn:Ta.
  - intros [= <- <- <-]. auto.
  - destruct (findFirst t xs) as [[[pre' y] post']|]; [|discriminate].
    intros [= <- <- <-]. destruct (IH pre' eq_refl) as (-> & Ty & F).
    repeat split; auto.
Qed.

Lemma findFirst_None {A : Type} (t : A -> bool) xs :
  findFirst t xs = None <-> Forall (fun y => t y = false) xs.
Proof.
  induction xs as [|a xs IH]; simpl; [split; auto|].
  destruct (t a) eqn:Ta.
  - split; [discriminate|]. intros F. inversion F; congruence.
  - destruct (findFirst t xs) as [[[pre' y] post']|].
    + split; [discriminate|]. intros F. inversion F; subst.
      apply IH in H2. discriminate.
    + split; [|reflexivity]. intros _. constructor; [assumption|now apply IH].
Qed.

(** The first element that passes the test is the one found. *)
Lemma findFirst_first {A : Type} (t : A -> bool) pre x post :
  Forall (fun y => t y = false) pre -> t x = true ->
  findFirst t (pre ++ x :: post) = Some (pre, x, post).
Proof.
  induction 1 as [|a pre Ta _ IH]; intros Tx; simpl.
  - now rewrite Tx.
  - rewrite Ta, IH by assumption. reflexivity.
Qed.

Lemma nonneg_remove pre x post :
  nonneg (pre ++ x :: post) -> nonneg (pre ++ post) /\ 0 <= Pivot.index x.
Proof.
  unfold nonneg. rewrite !Forall_app. intros (? & H). inversion H; auto.
Qed.

Lemma record_spec lvl key pv i st :
  0 <= Pivot.index pv ->
  exists st', record lvl key pv i st = Ok st' /\
    swing st' = swing st /\ internal st' = internal st /\
    pivots st' =
      pivots st ++ [Line.mk key (Pivot.index pv) i (Pivot.price pv) lvl] /\
    wrote (Line.mk key (Pivot.index pv) i (Pivot.price pv) lvl)
      (results st) (results st').
Proof.
  intros H. unfold record.
  destruct (writeRange_spec key (Pivot.index pv) i (Pivot.price pv)
              (results st) H) as (rs' & E & L & R).
  rewrite E. cbn [bind]. eexists. split; [reflexivity|]. cbn.
  repeat split; try assumption; apply R.
Qed.

Lemma levelState_setLevel lvl ls st : levelState lvl (setLevel lvl ls st) = ls.
Proof. now destruct lvl. Qed.

Lemma levelState_setLevel_other lvl lvl' ls st :
  lvl' <> lvl -> levelState lvl' (setLevel lvl ls st) = levelState lvl' st.
Proof. destruct lvl, lvl'; simpl; congruence. Qed.

Lemma bullishCheck_acts lvl i c st :
  nonneg (liveHighs (levelState lvl st)) ->
  exists st', bullishCheck lvl i c st = Ok st' /\
              acts lvl (levelBull lvl i c) st st'.
Proof.
  intros NN. unfold bullishCheck, acts, levelBull.
  destruct (findFirst _ _) as [[[pre pv] post]|] eqn:F.
  - apply findFirst_Some in F. destruct F as (E & _ & _).
    rewrite E in NN. apply nonneg_remove in NN. destruct NN as (_ & Hpv).
    destruct (record_spec lvl (bullKey lvl (trend (levelState lvl st))) pv i st Hpv)
      as (st1 & E1 & Sw & In & Pv & W).
    rewrite E1. cbn [bind]. eexists. split; [reflexivity|]. cbn [fst snd].
    split; [apply levelState_setLevel|]. split.
    + intros lvl' N. rewrite levelState_setLevel_other by assumption.
      destruct lvl'; simpl; congruence.
    + split; [destruct lvl; simpl; assumption|].
      destruct lvl; simpl; (econstructor; [eassumption|constructor]).
  - exists st. split; [reflexivity|]. cbn [fst snd]. rewrite app_nil_r.
    repeat split; auto. constructor.
Qed.

Lemma bearishCheck_acts lvl i c st :
  nonneg (liveLows (levelState lvl st)) ->
  exists st', bearishCheck lvl i c st = Ok st' /\
              acts lvl (levelBear lvl i c) st st'.
Proof.
  intros NN. unfold bearishCheck, acts, levelBear.
  destruct (findFirst _ _) as [[[pre pv] post]|] eqn:F.
  - apply findFirst_Some in F. destruct F as (E & _ & _).
    rewrite E in NN. apply nonneg_remove in NN. destruct NN as (_ & Hpv).
    destruct (bearKey lvl (trend (levelState lvl st))) as [key|].
    + destruct (record_spec lvl key pv i st Hpv)
        as (st1 & E1 & Sw & In & Pv & W).
      rewrite E1. cbn [bind]. eexists. split; [reflexivity|]. cbn [fst snd].
      split; [apply levelState_setLevel|]. split.
      * intros lvl' N. rewrite levelState_setLevel_other by assumption.
        destruct lvl'; simpl; congruence.
      * split; [destruct lvl; simpl; assumption|].
        destruct lvl; simpl; (econstructor; [eassumption|constructor]).
    + eexists. split; [reflexivity|]. cbn [fst snd].
      split; [apply levelState_setLevel|]. split.
      * intros lvl' N. now rewrite levelState_setLevel_other.
      * rewrite app_nil_r. split; [now destruct lvl|].
        destruct lvl; simpl; constructor.
  - exists st. split; [reflexivity|]. cbn [fst snd]. rewrite app_nil_r.
    repeat split; auto. constructor.
Qed.

Lemma bullKey_break lvl t :
  isBreakKey (bullKey lvl t) = true /\ isBull (bullKey lvl t) = true.
Proof. now destruct lvl, t. Qed.

Lemma bearKey_break lvl t key :
  bearKey lvl t = Some key -> isBreakKey key = true /\ isBull key = false.
Proof. destruct lvl, t; simpl; intros [= <-]; auto. Qed.

Lemma breaksHigh_index i c pv : breaksHigh i c pv = true -> Pivot.index pv < i.
Proof. unfold breaksHigh. intros H. apply andb_prop in H. lia. Qed.

Lemma breaksLow_index i c pv : breaksLow i c pv = true -> Pivot.index pv < i.
Proof. unfold breaksLow. intros H. apply andb_prop in H. lia. Qed.

Lemma levelBull_events lvl i c ls :
  Forall (eventAt lvl i) (snd (levelBull lvl i c ls)).
Proof.
  unfold levelBull. destruct (findFirst _ _) as [[[pre pv] post]|] eqn:F;
    [|constructor].
  apply findFirst_Some in F. destruct F as (_ & T & _).
  constructor; [|constructor]. unfold eventAt. cbn.
  repeat split; [eapply breaksHigh_index; eauto|apply bullKey_break].
Qed.

Lemma levelBear_events lvl i c ls :
  Forall (eventAt lvl i) (snd (levelBear lvl i c ls)).
Proof.
  unfold levelBear. destruct (findFirst _ _) as [[[pre pv] post]|] eqn:F;
    [|constructor].
  apply findFirst_Some in F. destruct F as (_ & T & _).
  destruct (bearKey _ _) as [key|] eqn:K; [|constructor].
  constructor; [|constructor]. unfold eventAt. cbn.
  repeat split; [eapply breaksLow_index; eauto|eapply bearKey_break; eauto].
Qed.

Lemma levelStep_events lvl i c ls :
  Forall (eventAt lvl i) (snd (levelStep lvl i c ls)).
Proof.
  unfold levelStep. cbn [snd]. apply Forall_app. split;
    [apply levelBull_events|apply levelBear_events].
Qed.

Lemma levelBull_liveOk lvl i c ls :
  liveOk ls ->
  liveOk (fst (levelBull lvl i c ls)) /\
  Forall (fun e => 0 <= Line.pivotIndex e) (snd (levelBull lvl i c ls)).
Proof.
  intros (H & L). unfold levelBull.
  destruct (findFirst _ _) as [[[pre pv] post]|] eqn:F;
    [|split; [split; assumption|constructor]].
  apply findFirst_Some in F. destruct F as (E & _ & _).
  rewrite E in H. apply nonneg_remove in H. destruct H as (H & Hpv).
  split; [split; assumption|]. constructor; [assumption|constructor].
Qed.

Lemma levelBear_liveOk lvl i c ls :
  liveOk ls ->
  liveOk (fst (levelBear lvl i c ls)) /\
  Forall (fun e => 0 <= Line.pivotIndex e) (snd (levelBear lvl i c ls)).
Proof.
  intros (H & L). unfold levelBear.
  destruct (findFirst _ _) as [[[pre pv] post]|] eqn:F;
    [|split; [split; assumption|constructor]].
  apply findFirst_Some in F. destruct F as (E & _ & _).
  rewrite E in L. apply nonneg_remove in L. destruct L as (L & Hpv).
  destruct (bearKey _ _); (split; [split; assumption|]).
  - constructor; [assumption|constructor].
  - constructor.
Qed.

Lemma levelStep_liveOk lvl i c ls :
  liveOk ls ->
  liveOk (fst (levelStep lvl i c ls)) /\
  Forall (fun e => 0 <= Line.pivotIndex e) (snd (levelStep lvl i c ls)).
Proof.
  intros H. unfold levelStep. cbn [fst snd].
  destruct (levelBull_liveOk lvl i c ls H) as (H1 & F1).
  destruct (levelBear_liveOk lvl i c _ H1) as (H2 & F2).
  split; [assumption|]. apply Forall_app. now split.
Qed.

Lemma eventsOf_app lvl a b :
  eventsOf lvl (a ++ b) = eventsOf lvl a ++ eventsOf lvl b.
Proof. apply filter_app. Qed.

Lemma Level_eqb_eq a b : Level_eqb a b = true <-> a = b.
Proof. destruct a, b; simpl; split; congruence. Qed.

Lemma eventsOf_same lvl i evs :
  Forall (eventAt lvl i) evs -> eventsOf lvl evs = evs.
Proof.
  induction 1 as [|e evs (L & _) _ IH]; simpl; [reflexivity|].
  rewrite L. replace (Level_eqb lvl lvl) with true by now destruct lvl.
  now rewrite IH.
Qed.

Lemma eventsOf_other lvl lvl' i evs :
  lvl <> lvl' -> Forall (eventAt lvl' i) evs -> eventsOf lvl evs = [].
Proof.
  intros N. induction 1 as [|e evs (L & _) _ IH]; simpl; [reflexivity|].
  rewrite L. destruct (Level_eqb lvl' lvl) eqn:E; [|assumption].
  apply Level_eqb_eq in E. congruence.
Qed.

Lemma acts_compose lvl f g st st1 st2 :
  acts lvl f st st1 -> acts lvl g st1 st2 ->
  acts lvl (fun ls => (fst (g (fst (f ls))), snd (f ls) ++ snd (g (fst (f ls)))))
    st st2.
Proof.
  intros (A1 & B1 & C1 & D1) (A2 & B2 & C2 & D2). unfold acts. cbn [fst snd].
  rewrite <- A1. repeat split.
  - assumption.
  - intros lvl' N. rewrite B2, B1 by assumption. reflexivity.
  - rewrite C2, C1, app_assoc. reflexivity.
  - eapply writes_app; eauto.
Qed.

(** The two checks of a level, one after the other. *)
Lemma levelChecks_acts lvl i c st :
  liveOk (levelState lvl st) ->
  exists st2,
    (st1 <- bullishCheck lvl i c st ;; bearishCheck lvl i c st1) = Ok st2 /\
    acts lvl (levelStep lvl i c) st st2.
Proof.
  intros (H & L).
  destruct (bullishCheck_acts lvl i c st H) as (st1 & E1 & A1).
  assert (liveOk (levelState lvl st1)) as (H1 & L1).
  { destruct A1 as (-> & _). now apply levelBull_liveOk. }
  destruct (bearishCheck_acts lvl i c st1 L1) as (st2 & E2 & A2).
  exists st2. rewrite E1. cbn [bind]. split; [assumption|].
  exact (acts_compose lvl _ _ _ _ _ A1 A2).
Qed.

(** One bar of the break loop. *)
Lemma breakBody_step d i st :
  0 <= i < len d ->
  liveOk (swing st) -> liveOk (internal st) ->
  let c := close (barAt d i) in
  exists st' new,
    breakBody d i st = Ok st' /\
    pivots st' = pivots st ++ new /\
    writes new (results st) (results st') /\
    (forall lvl,
        levelState lvl st' = fst (levelStep lvl i c (levelState lvl st)) /\
        eventsOf lvl new = snd (levelStep lvl i c (levelState lvl st))) /\
    Forall (fun e => Line.breakIndex e = i /\ 0 <= Line.pivotIndex e /\
                     isBreakKey (Line.key e) = true) new.
Proof.
  intros Hi HS HI c. unfold breakBody. rewrite item_barAt by assumption.
  cbn [bind]. unfold Number. fold c.
  destruct (levelChecks_acts Swing i c st HS) as (st2 & E2 & A2 & B2 & C2 & D2).
  assert (liveOk (levelState Internal st2)) as HI2.
  { rewrite B2 by discriminate. exact HI. }
  destruct (levelChecks_acts Internal i c st2 HI2)
    as (st4 & E4 & A4 & B4 & C4 & D4).
  rewrite (B2 Internal) in * by discriminate.
  set (sS := levelStep Swing i c (levelState Swing st)) in *.
  set (sI := levelStep Internal i c (levelState Internal st)) in *.
  exists st4, (snd sS ++ snd sI). split.
  { destruct (bullishCheck Swing i c st) as [st1|]; [|discriminate].
    cbn [bind] in *. rewrite E2. cbn [bind]. exact E4. }
  split; [rewrite C4, C2; now rewrite app_assoc|].
  split; [eapply writes_app; eauto|].
  pose proof (levelStep_events Swing i c (levelState Swing st)) as FS.
  pose proof (levelStep_events Internal i c (levelState Internal st)) as FI.
  fold sS in FS. fold sI in FI. split.
  - intros [|]; rewrite eventsOf_app.
    + rewrite (B4 Swing) by discriminate. split; [assumption|].
      rewrite (eventsOf_same _ _ _ FS), (eventsOf_other Swing Internal i) by
          (assumption || discriminate).
      apply app_nil_r.
    + split; [assumption|].
      rewrite (eventsOf_same _ _ _ FI), (eventsOf_other Internal Swing i) by
          (assumption || discriminate).
      reflexivity.
  - destruct (levelStep_liveOk Swing i c _ HS) as (_ & PS).
    destruct (levelStep_liveOk Internal i c _ HI) as (_ & PI).
    fold sS in PS. fold sI in PI.
    apply Forall_app. split.
    + rewrite Forall_forall in *. intros e He.
      destruct (FS e He) as (_ & ? & _ & ?). auto.
    + rewrite Forall_forall in *. intros e He.
      destruct (FI e He) as (_ & ? & _ & ?). auto.
Qed.

(** ** Channel contents *)

Lemma lastCovering_snoc key m evs e :
  lastCovering key m (evs ++ [e]) =
  if covers key m e then Some (Line.price e) else lastCovering key m evs.
Proof.
  induction evs as [|a evs IH]; simpl.
  - now destruct (covers key m e).
  - rewrite IH. destruct (covers key m e); [reflexivity|].
    reflexivity.
Qed.

Lemma lastCovering_none key m evs :
  Forall (fun e => Line.breakIndex e < m) evs -> lastCovering key m evs = None.
Proof.
  induction 1 as [|e evs He _ IH]; simpl; [reflexivity|].
  rewrite IH. unfold covers.
  replace (m <=? Line.breakIndex e) with false by lia.
  now rewrite andb_false_r.
Qed.

(** The writes of one bar keep every break channel equal to the last
    covering event, and never touch a marker channel. *)
Lemma writes_channel B new rs rs' :
  writes new rs rs' ->
  Forall (fun e => Line.breakIndex e = B /\ 0 <= Line.pivotIndex e /\
                   isBreakKey (Line.key e) = true) new ->
  B < len rs ->
  forall done,
    Forall (fun e => Line.breakIndex e <= B) done ->
    (forall key m, isBreakKey key = true ->
                   readKey rs m key = lastCovering key m done) ->
    (forall key m, isBreakKey key = true ->
                   readKey rs' m key = lastCovering key m (done ++ new)) /\
    (forall key m, isBreakKey key = false ->
                   readKey rs' m key = readKey rs m key).
Proof.
  induction 1 as [rs|e es rs rs1 rs2 (L & W) _ IH]; intros F HB done D Inv.
  - rewrite app_nil_r. auto.
  - inversion F as [|? ? (Be & Pe & Ke) F']; subst.
    destruct (IH F') with (done := done ++ [e]) as (I1 & I2).
    + unfold len in *. rewrite L. assumption.
    + apply Forall_app. split; [assumption|]. constructor; [lia|constructor].
    + intros key m K. rewrite lastCovering_snoc.
      destruct (W m key) as (W1 & W2 & W3). unfold covers.
      destruct (Key_eqb (Line.key e) key) eqn:EK; cbn [andb].
      * apply Key_eqb_eq in EK. subst key.
        destruct (Z.leb_spec (Line.pivotIndex e) m); cbn [andb].
        -- destruct (Z.leb_spec m (Line.breakIndex e)) as [Hle|Hgt].
           ++ apply W1; [reflexivity|lia|lia].
           ++ assert (lastCovering (Line.key e) m done = None) as N.
              { apply lastCovering_none. eapply Forall_impl; [|exact D].
                cbn. intros; lia. }
              rewrite N. destruct (W3 Hgt) as [-> | ->]; [|reflexivity].
              rewrite Inv by assumption. exact N.
        -- rewrite W2 by (right; assumption). now apply Inv.
      * apply Key_eqb_neq in EK. rewrite W2 by (left; congruence).
        now apply Inv.
    + rewrite <- app_assoc in I1. split; [exact I1|].
      intros key m K. rewrite I2 by assumption.
      destruct (W m key) as (_ & W2 & _). apply W2. left.
      intros ->. congruence.
Qed.

(** ** The break loop as a whole *)

Lemma levelRun_S lvl d k ls0 :
  levelRun lvl d (Datatypes.S k) ls0 =
  (fst (levelStep lvl (Z.of_nat k) (closeAt d (Z.of_nat k))
          (fst (levelRun lvl d k ls0))),
   snd (levelRun lvl d k ls0) ++
   snd (levelStep lvl (Z.of_nat k) (closeAt d (Z.of_nat k))
          (fst (levelRun lvl d k ls0)))).
Proof. reflexivity. Qed.

(** The first [k] bars of the break loop: it never throws on live lists of
    valid indices; every level runs its own [levelRun]; the break channels
    hold the last covering event. *)
Lemma breakLoop_run d st0 k :
  (k <= length d)%nat ->
  liveOk (swing st0) -> liveOk (internal st0) ->
  length (results st0) = length d ->
  pivots st0 = [] ->
  (forall key m, isBreakKey key = true -> readKey (results st0) m key = None) ->
  exists st, forLoop 0 k (breakBody d) st0 = Ok st /\
    length (results st) = length d /\
    (forall lvl,
        levelState lvl st = fst (levelRun lvl d k (levelState lvl st0)) /\
        eventsOf lvl (pivots st) =
          snd (levelRun lvl d k (levelState lvl st0))) /\
    Forall (fun e => 0 <= Line.pivotIndex e /\
                     Line.breakIndex e < Z.of_nat k /\
                     isBreakKey (Line.key e) = true) (pivots st) /\
    (forall key m, isBreakKey key = true ->
       readKey (results st) m key = lastCovering key m (pivots st)) /\
    (forall key m, isBreakKey key = false ->
       readKey (results st) m key = readKey (results st0) m key).
Proof.
  intros Hk HS HI HL HP HR.
  destruct (forLoop_total
    (fun i st =>
       liveOk (swing st) /\ liveOk (internal st) /\
       length (results st) = length d /\
       (forall lvl,
           levelState lvl st =
             fst (levelRun lvl d (Z.to_nat i) (levelState lvl st0)) /\
           eventsOf lvl (pivots st) =
             snd (levelRun lvl d (Z.to_nat i) (levelState lvl st0))) /\
       Forall (fun e => 0 <= Line.pivotIndex e /\ Line.breakIndex e < i /\
                        isBreakKey (Line.key e) = true) (pivots st) /\
       (forall key m, isBreakKey key = true ->
          readKey (results st) m key = lastCovering key m (pivots st)) /\
       (forall key m, isBreakKey key = false ->
          readKey (results st) m key = readKey (results st0) m key))
    0 k (breakBody d) st0)
    as (st & E & _ & _ & L & R & F & C & M).
  - rewrite HP. repeat split; try assumption; try apply HS; try apply HI;
      try constructor.
  - intros i st Hi (S1 & I1 & L1 & R1 & F1 & C1 & M1).
    destruct (breakBody_step d i st) as (st' & new & E & P & W & A & N);
      try assumption; try (unfold len in *; lia).
    exists st'. split; [assumption|].
    pose proof (writes_length _ _ _ W) as L'.
    assert (liveOk (swing st') /\ liveOk (internal st')) as (S' & I').
    { split.
      - destruct (A Swing) as (AS & _). cbn [levelState] in AS. rewrite AS.
        now apply levelStep_liveOk.
      - destruct (A Internal) as (AI & _). cbn [levelState] in AI. rewrite AI.
        now apply levelStep_liveOk. }
    destruct (writes_channel i new _ _ W N) with (done := pivots st)
      as (C' & M').
    { unfold len in *. lia. }
    { eapply Forall_impl; [|exact F1]. cbn. intros; lia. }
    { exact C1. }
    repeat split; try assumption; try apply S'; try apply I'.
    + congruence.
    + replace (Z.to_nat (i + 1)) with (Datatypes.S (Z.to_nat i)) by lia.
      rewrite levelRun_S. cbn [fst]. destruct (A lvl) as (-> & _).
      destruct (R1 lvl) as (<- & _). unfold closeAt.
      now rewrite Z2Nat.id by lia.
    + replace (Z.to_nat (i + 1)) with (Datatypes.S (Z.to_nat i)) by lia.
      rewrite levelRun_S. cbn [snd]. rewrite P, eventsOf_app.
      destruct (A lvl) as (_ & ->). destruct (R1 lvl) as (<- & <-).
      unfold closeAt. now rewrite Z2Nat.id by lia.
    + rewrite P. apply Forall_app. split.
      * eapply Forall_impl; [|exact F1]. cbn. intros e (? & ? & ?).
        repeat split; auto; lia.
      * eapply Forall_impl; [|exact N]. cbn. intros e (? & ? & ?).
        repeat split; auto; lia.
    + rewrite P. exact C'.
    + intros key m K. rewrite M' by assumption. now apply M1.
  - exists st. split; [assumption|]. split; [assumption|].
    replace (Z.to_nat (0 + Z.of_nat k)) with k in R by lia.
    split; [exact R|]. split; [|split; assumption].
    eapply Forall_impl; [|exact F]. cbn. intros e (? & ? & ?).
    repeat split; auto; lia.
Qed.

Lemma detectBreaks_forLoop d st0 :
  detectBreaks d st0 = forLoop 0 (length d) (breakBody d) st0.
Proof.
  unfold detectBreaks, forUpTo. f_equal. unfold len. lia.
Qed.

(** ** Facts about the trace of the pivot scan *)

Lemma scanTrace_S d L k :
  scanTrace d L (Datatypes.S k) =
  (let t := scanTrace d L k in
   let p := Z.of_nat k in
   let cur := stateAt d L (traceOs t) p in
   (cur, traceHighs t ++ emitHigh (traceOs t) cur p (barAt d p),
         traceLows t ++ emitLow (traceOs t) cur p (barAt d p))).
Proof.
  cbn [scanTrace]. destruct (scanTrace d L k) as [[prev hs] ls]. reflexivity.
Qed.

Lemma emitHigh_index prev cur p bar : indexIn p (p + 1) (emitHigh prev cur p bar).
Proof.
  unfold emitHigh, indexIn. destruct (_ && _); repeat constructor; simpl; lia.
Qed.

Lemma emitLow_index prev cur p bar : indexIn p (p + 1) (emitLow prev cur p bar).
Proof.
  unfold emitLow, indexIn. destruct (_ && _); repeat constructor; simpl; lia.
Qed.

Lemma indexIn_weaken lo hi lo' hi' xs :
  lo' <= lo -> hi <= hi' -> indexIn lo hi xs -> indexIn lo' hi' xs.
Proof.
  intros H1 H2 F. eapply Forall_impl; [|exact F]. cbn. intros; lia.
Qed.

Lemma emit_length prev cur p bar :
  (length (emitHigh prev cur p bar) <= 1)%nat /\
  (length (emitLow prev cur p bar) <= 1)%nat.
Proof. unfold emitHigh, emitLow. split; destruct (_ && _); simpl; lia. Qed.

Lemma indexIn_snoc k xs ys :
  0 <= k ->
  indexIn 0 k xs -> indexIn k (k + 1) ys -> (length ys <= 1)%nat ->
  NoDup (map Pivot.index xs) ->
  indexIn 0 (k + 1) (xs ++ ys) /\ NoDup (map Pivot.index (xs ++ ys)).
Proof.
  intros Hk Hx Hy Ly Nx. split.
  - apply Forall_app. split; (eapply indexIn_weaken; [| |eassumption]; lia).
  - rewrite map_app. destruct ys as [|y [|y' ys]]; [now rewrite app_nil_r| |simpl in Ly; lia].
    apply NoDup_app; [assumption|repeat constructor; simpl; tauto|].
    intros a Ha [<-|[]]. apply in_map_iff in Ha.
    destruct Ha as (pv & E & Hpv). unfold indexIn in Hx, Hy.
    rewrite Forall_forall in Hx. specialize (Hx pv Hpv).
    inversion Hy; subst. lia.
Qed.

(** After [k] evaluations the pivots are those of the candidates below [k],
    each candidate at most once. *)
Lemma scanTrace_indices d L k :
  indexIn 0 (Z.of_nat k) (traceHighs (scanTrace d L k)) /\
  indexIn 0 (Z.of_nat k) (traceLows (scanTrace d L k)) /\
  NoDup (map Pivot.index (traceHighs (scanTrace d L k))) /\
  NoDup (map Pivot.index (traceLows (scanTrace d L k))).
Proof.
  induction k as [|k (H & Lw & NH & NL)].
  - cbn. repeat split; constructor.
  - rewrite scanTrace_S. cbn zeta. unfold traceHighs, traceLows. cbn [fst snd].
    fold (traceHighs (scanTrace d L k)). fold (traceLows (scanTrace d L k)).
    set (t := scanTrace d L k) in *.
    set (cur := stateAt d L (traceOs t) (Z.of_nat k)).
    pose proof (emitHigh_index (traceOs t) cur (Z.of_nat k) (barAt d (Z.of_nat k))) as EH.
    pose proof (emitLow_index (traceOs t) cur (Z.of_nat k) (barAt d (Z.of_nat k))) as EL.
    destruct (emit_length (traceOs t) cur (Z.of_nat k) (barAt d (Z.of_nat k)))
      as (LH & LL).
    replace (Z.of_nat (Datatypes.S k)) with (Z.of_nat k + 1) by lia.
    destruct (indexIn_snoc _ _ _ (Nat2Z.is_nonneg k) H EH LH NH) as (? & ?).
    destruct (indexIn_snoc _ _ _ (Nat2Z.is_nonneg k) Lw EL LL NL) as (? & ?).
    auto.
Qed.

(** Later evaluations only append pivots of later candidates. *)
Lemma scanTrace_extends d L k1 k2 :
  (k1 <= k2)%nat ->
  exists xh xl,
    traceHighs (scanTrace d L k2) = traceHighs (scanTrace d L k1) ++ xh /\
    traceLows (scanTrace d L k2) = traceLows (scanTrace d L k1) ++ xl /\
    indexIn (Z.of_nat k1) (Z.of_nat k2) xh /\
    indexIn (Z.of_nat k1) (Z.of_nat k2) xl.
Proof.
  induction 1 as [|k2 Hle (xh & xl & EH & EL & IH & IL)].
  - exists [], []. rewrite !app_nil_r. repeat split; constructor.
  - rewrite scanTrace_S. cbn zeta. unfold traceHighs at 1, traceLows at 1.
    cbn [fst snd]. rewrite EH, EL.
    set (t := scanTrace d L k2).
    set (cur := stateAt d L (traceOs t) (Z.of_nat k2)).
    exists (xh ++ emitHigh (traceOs t) cur (Z.of_nat k2) (barAt d (Z.of_nat k2))),
           (xl ++ emitLow (traceOs t) cur (Z.of_nat k2) (barAt d (Z.of_nat k2))).
    rewrite !app_assoc. split; [reflexivity|]. split; [reflexivity|].
    split; apply Forall_app; split;
      try (eapply indexIn_weaken; [| |eassumption]; lia);
      [eapply indexIn_weaken; [| |apply emitHigh_index]; lia
      |eapply indexIn_weaken; [| |apply emitLow_index]; lia].
Qed.

Lemma barAt_app d ext j : j < len d -> barAt (d ++ ext) j = barAt d j.
Proof. intros H. unfold barAt. now rewrite getZ_app_l. Qed.

Lemma fold_left_zrange_ext {A : Type} (f g : A -> Z -> A) lo c a :
  (forall k x, lo <= k < lo + Z.of_nat c -> f x k = g x k) ->
  fold_left f (zrange lo c) a = fold_left g (zrange lo c) a.
Proof.
  revert lo a; induction c as [|c IH]; intros lo a H; [reflexivity|].
  cbn [zrange fold_left]. rewrite H by lia. apply IH. intros; apply H; lia.
Qed.

(** The window of a candidate confirmed inside the old bars does not see the
    appended ones. *)
Lemma extrema_app d ext p i :
  i < len d -> extrema (d ++ ext) p i = extrema d p i.
Proof.
  intros Hi. unfold extrema. apply fold_left_zrange_ext.
  intros k x Hk. rewrite barAt_app by lia. reflexivity.
Qed.

Lemma stateAt_app d ext L prev p :
  0 <= L -> p + L < len d ->
  stateAt (d ++ ext) L prev p = stateAt d L prev p.
Proof.
  intros HL H. unfold stateAt. rewrite extrema_app, barAt_app by lia.
  reflexivity.
Qed.

(** Appending bars does not change the evaluations whose window already
    fitted. *)
Lemma scanTrace_app d ext L k :
  0 <= L -> (k <= evaluations d L)%nat ->
  scanTrace (d ++ ext) L k = scanTrace d L k.
Proof.
  intros HL. induction k as [|k IH]; intros Hk; [reflexivity|].
  unfold evaluations in *.
  rewrite !scanTrace_S, IH by lia. cbn zeta.
  rewrite stateAt_app, barAt_app by lia. reflexivity.
Qed.

Lemma stateAt_cases d L prev p :
  stateAt d L prev p =
  if qualifiesTop d L p then Some Top
  else if qualifiesBottom d L p then Some Bottom
  else prev.
Proof. reflexivity. Qed.

Lemma emit_cases d L prev p :
  let cur := stateAt d L prev p in
  let bar := barAt d p in
  (emitHigh prev cur p bar = [] \/
   (emitHigh prev cur p bar = [Pivot.mk p (high bar)] /\
    emitLow prev cur p bar = [] /\ qualifiesTop d L p = true)) /\
  (emitLow prev cur p bar = [] \/
   (emitLow prev cur p bar = [Pivot.mk p (low bar)] /\
    emitHigh prev cur p bar = [] /\
    qualifiesTop d L p = false /\ qualifiesBottom d L p = true)).
Proof.
  cbn zeta. rewrite stateAt_cases. unfold emitHigh, emitLow.
  destruct (qualifiesTop d L p), (qualifiesBottom d L p), prev as [[|]|];
    cbn; auto 6.
Qed.

(** Pivot-highs come from candidates that qualify as Top, pivot-lows from
    candidates that qualify as Bottom and not as Top, and no candidate gives
    both a high and a low. *)
Lemma scanTrace_kinds d L k :
  let t := scanTrace d L k in
  Forall (fun pv => qualifiesTop d L (Pivot.index pv) = true) (traceHighs t) /\
  Forall (fun pv => qualifiesTop d L (Pivot.index pv) = false /\
                    qualifiesBottom d L (Pivot.index pv) = true) (traceLows t) /\
  (forall h l, In h (traceHighs t) -> In l (traceLows t) ->
               Pivot.index h <> Pivot.index l).
Proof.
  cbn zeta. induction k as [|k (H & Lw & D)].
  - cbn. repeat split; try constructor. intros h l [].
  - rewrite scanTrace_S. cbn zeta. unfold traceHighs at 1 3, traceLows at 1 3.
    cbn [fst snd]. set (t := scanTrace d L k) in *.
    destruct (emit_cases d L (traceOs t) (Z.of_nat k)) as (CH & CL).
    cbn zeta in CH, CL.
    repeat split.
    + apply Forall_app. split; [assumption|].
      destruct CH as [->|(-> & _ & Q)]; repeat constructor. exact Q.
    + apply Forall_app. split; [assumption|].
      destruct CL as [->|(-> & _ & Q1 & Q2)]; repeat constructor; assumption.
    + intros h l Hh Hl E. apply in_app_or in Hh, Hl.
      destruct Hh as [Hh|Hh], Hl as [Hl|Hl].
      * exact (D h l Hh Hl E).
      * destruct CL as [EL|(EL & _ & Q1 & _)]; rewrite EL in Hl;
          [contradiction|]. destruct Hl as [<-|[]]. cbn in E.
        rewrite Forall_forall in H. specialize (H h Hh). congruence.
      * destruct CH as [EH|(EH & _ & Q)]; rewrite EH in Hh; [contradiction|].
        destruct Hh as [<-|[]]. cbn in E.
        rewrite Forall_forall in Lw. destruct (Lw l Hl). congruence.
      * destruct CH as [EH|(EH & EL & _)]; [rewrite EH in Hh|rewrite EL in Hl];
          contradiction.
Qed.

(** ** [calc] as a whole *)

Lemma readKey_empty (d : list KLineData) m k :
  readKey (map (fun _ => emptyResult) d) m k = None.
Proof.
  unfold readKey, getZ. destruct (m <? 0); [reflexivity|].
  rewrite nth_error_map. now destruct (nth_error d (Z.to_nat m)).
Qed.

Lemma isBreakKey_marker k : isBreakKey k = true <-> isMarker k = false.
Proof. unfold isBreakKey. now destruct (isMarker k). Qed.

Lemma levelState_start lvl o :
  startOf o ->
  levelState lvl (startState o) = mkLevel (highsOf lvl o) (lowsOf lvl o) Neutral.
Proof. intros (E & _). rewrite E. now destruct lvl. Qed.

(** For lookback lengths [>= 0], [calc] returns: its pivots are the scan
    traces of the two levels and its break loop runs from them. *)
Lemma calc_run d sl il :
  0 <= sl -> 0 <= il ->
  exists o, calc d sl il = Ok o /\
    (forall lvl,
        highsOf lvl o =
          traceHighs (scanTrace d (lengthOf lvl sl il)
                        (evaluations d (lengthOf lvl sl il))) /\
        lowsOf lvl o =
          traceLows (scanTrace d (lengthOf lvl sl il)
                       (evaluations d (lengthOf lvl sl il)))) /\
    startOf o /\
    liveOk (swing (startState o)) /\ liveOk (internal (startState o)) /\
    length (outResults o) = length d /\
    forLoop 0 (length d) (breakBody d) (startState o) = Ok (finalState o) /\
    outPivots o = pivots (finalState o) /\
    outResults o = results (finalState o).
Proof.
  intros Hs Hi. unfold calc.
  destruct (detectPivots_trace Swing d sl (map (fun _ => emptyResult) d) Hs)
    as (sw & Esw & Lsw & Fsw & Tsw); [apply length_map|].
  destruct (detectPivots_trace Internal d il (marks sw) Hi Lsw)
    as (inl & Ein & Lin & Fin' & Tin).
  rewrite Esw. cbn [bind]. rewrite Ein. cbn [bind].
  assert (forall k (t : Scan), traceOf t = scanTrace d k (evaluations d k) ->
            liveOk (mkLevel (highs t) (lows t) Neutral)) as Live.
  { intros k t T. destruct (scanTrace_indices d k (evaluations d k))
      as (H & L & _ & _).
    rewrite <- T in H, L. unfold traceHighs, traceLows, traceOf in H, L.
    cbn [fst snd] in H, L. split; cbn [liveHighs liveLows];
      (eapply Forall_impl; [|eassumption]); cbn; intros; lia. }
  assert (forall key m, isBreakKey key = true ->
                        readKey (marks inl) m key = None) as Empty.
  { intros key m K. apply isBreakKey_marker in K.
    rewrite Fin', Fsw by assumption. apply readKey_empty. }
  cbn zeta.
  destruct (breakLoop_run d
              (mkBreak (mkLevel (highs sw) (lows sw) Neutral)
                       (mkLevel (highs inl) (lows inl) Neutral)
                       (marks inl) []) (length d))
    as (st & E & L & _); cbn [swing internal results pivots];
    try assumption; try reflexivity; try (now apply (Live sl));
    try (now apply (Live il)).
  rewrite detectBreaks_forLoop, E. cbn [bind]. eexists.
  split; [reflexivity|].
  cbn [outResults outPivots finalState startState].
  split.
  { intros [|]; cbn [highsOf lowsOf lengthOf swingHighs swingLows
                       internalHighs internalLows].
    - unfold evaluations. rewrite <- Tsw. now split.
    - unfold evaluations. rewrite <- Tin. now split. }
  split.
  { unfold startOf. cbn [startState swingHighs swingLows internalHighs
                           internalLows results outResults].
    split; [reflexivity|]. split; [congruence|exact Empty]. }
  cbn [swing internal].
  split; [now apply (Live sl)|]. split; [now apply (Live il)|].
  split; [assumption|]. split; [assumption|]. split; reflexivity.
Qed.

(** A returned [calc] is the one described by [calc_run]; a negative lookback
    makes it throw. *)
Lemma calc_throws d sl il : sl < 0 \/ il < 0 -> calc d sl il = TypeError.
Proof.
  intros H. unfold calc.
  destruct (Z_lt_le_dec sl 0) as [N|P].
  - now rewrite detectPivots_negative.
  - destruct (detectPivots_trace Swing d sl (map (fun _ => emptyResult) d) P)
      as (sw & Esw & _); [apply length_map|].
    rewrite Esw. cbn [bind]. rewrite detectPivots_negative by lia.
    reflexivity.
Qed.

(** Everything the proofs below use about a run of [calc]. *)
Lemma calc_spec d sl il :
  0 <= sl -> 0 <= il ->
  exists o, calc d sl il = Ok o /\
    (forall lvl,
        highsOf lvl o =
          traceHighs (scanTrace d (lengthOf lvl sl il)
                        (evaluations d (lengthOf lvl sl il))) /\
        lowsOf lvl o =
          traceLows (scanTrace d (lengthOf lvl sl il)
                       (evaluations d (lengthOf lvl sl il)))) /\
    length (outResults o) = length d /\
    afterBars d o (length d) = Ok (finalState o) /\
    outPivots o = pivots (finalState o) /\
    outResults o = results (finalState o) /\
    forall k, (k <= length d)%nat ->
      exists st, afterBars d o k = Ok st /\
        (forall lvl,
            levelState lvl st = fst (levelRun lvl d k (levelStart lvl o)) /\
            eventsOf lvl (pivots st) =
              snd (levelRun lvl d k (levelStart lvl o))) /\
        Forall (fun e => 0 <= Line.pivotIndex e /\
                         Line.breakIndex e < Z.of_nat k /\
                         isBreakKey (Line.key e) = true) (pivots st) /\
        (forall key m, isBreakKey key = true ->
           readKey (results st) m key = lastCovering key m (pivots st)).
Proof.
  intros Hs Hi.
  destruct (calc_run d sl il Hs Hi)
    as (o & E & T & St & LS & LI & L & F & P & R).
  exists o. split; [assumption|]. split; [assumption|]. split; [assumption|].
  split; [assumption|]. split; [assumption|]. split; [assumption|].
  intros k Hk.
  destruct (breakLoop_run d (startState o) k Hk LS LI) as (st & Ek & _ & Rk & Fk & Ck & _).
  - destruct St as (_ & -> & _). assumption.
  - destruct St as (-> & _). reflexivity.
  - apply St.
  - exists st. split; [assumption|]. split; [|split; assumption].
    intros lvl. unfold levelStart. rewrite <- (levelState_start lvl o St).
    apply Rk.
Qed.

(** The scenario of the specification: the pivot-high 5 of bar 2 is broken by
    the close 6 of bar 7, a BOS since the register was Neutral. *)
Lemma scenario_swing_event :
  exists o, calc scenario 2 2 = Ok o /\
    eventsOf Swing (outPivots o) = [Line.mk swingBosBull 2 7 (Fin 5) Swing].
Proof.
  destruct (calc scenario 2 2) as [o|] eqn:E; [|vm_compute in E; discriminate].
  exists o. split; [reflexivity|]. vm_compute in E. now injection E as <-.
Qed.

(** ** C1: one break per bar, level and direction *)

Lemma bearKey_total lvl t : exists key, bearKey lvl t = Some key.
Proof. destruct lvl, t; simpl; eauto. Qed.

Lemma levelBull_fifo lvl i c ls :
  fifoBreak lvl i true (breaksHigh i c) (liveHighs ls)
    (liveHighs (fst (levelBull lvl i c ls))) (snd (levelBull lvl i c ls)) /\
  liveLows (fst (levelBull lvl i c ls)) = liveLows ls.
Proof.
  unfold levelBull, fifoBreak.
  destruct (findFirst _ _) as [[[pre pv] post]|] eqn:F; cbn [fst snd liveHighs liveLows].
  - apply findFirst_Some in F. destruct F as (E & T & N).
    split; [|reflexivity]. right. exists pre, pv, post, (bullKey lvl (trend ls)).
    repeat split; auto. apply bullKey_break.
  - apply findFirst_None in F. split; [|reflexivity]. left. auto.
Qed.

Lemma levelBear_fifo lvl i c ls :
  fifoBreak lvl i false (breaksLow i c) (liveLows ls)
    (liveLows (fst (levelBear lvl i c ls))) (snd (levelBear lvl i c ls)) /\
  liveHighs (fst (levelBear lvl i c ls)) = liveHighs ls.
Proof.
  unfold levelBear, fifoBreak.
  destruct (findFirst _ _) as [[[pre pv] post]|] eqn:F; cbn [fst snd liveHighs liveLows].
  - apply findFirst_Some in F. destruct F as (E & T & N).
    destruct (bearKey_total lvl (trend ls)) as (key & K). rewrite K.
    cbn [fst snd liveHighs liveLows].
    split; [|reflexivity]. right. exists pre, pv, post, key.
    repeat split; auto. eapply bearKey_break; eauto.
  - apply findFirst_None in F. split; [|reflexivity]. left. auto.
Qed.

Lemma fifoBreak_emitted lvl i bull test before after emitted :
  fifoBreak lvl i bull test before after emitted ->
  (length emitted <= 1)%nat /\
  Forall (fun e => atBar i bull e = true) emitted /\
  forall j, filter (atBar j (negb bull)) emitted = [].
Proof.
  intros [(_ & _ & ->)|(pre & pv & post & key & _ & _ & _ & _ & K & ->)].
  - repeat split; auto.
  - split; [simpl; lia|]. unfold atBar.
    split.
    + repeat constructor. cbn [Line.breakIndex Line.key].
      rewrite K, Z.eqb_refl. now destruct bull.
    + intros j. cbn [filter Line.breakIndex Line.key]. rewrite K.
      destruct (i =? j), bull; reflexivity.
Qed.

Lemma filter_all {A : Type} (f : A -> bool) l :
  Forall (fun x => f x = true) l -> filter f l = l.
Proof. induction 1 as [|x l H _ IH]; simpl; [|rewrite H, IH]; reflexivity. Qed.

Lemma filter_none {A : Type} (f : A -> bool) l :
  Forall (fun x => f x = false) l -> filter f l = [].
Proof. induction 1 as [|x l H _ IH]; simpl; [|rewrite H, IH]; reflexivity. Qed.

Lemma atBar_other i j bull e :
  Line.breakIndex e = i -> i <> j -> atBar j bull e = false.
Proof. intros <- N. unfold atBar. now replace (_ =? j) with false by lia. Qed.

(** The events a level records at bar [i]: the bullish ones come from the
    bullish check, the bearish ones from the bearish check. *)
Lemma levelStep_at lvl i c ls bull :
  filter (atBar i bull) (snd (levelStep lvl i c ls)) =
  if bull then snd (levelBull lvl i c ls)
  else snd (levelBear lvl i c (fst (levelBull lvl i c ls))).
Proof.
  unfold levelStep. cbn [snd]. rewrite filter_app.
  destruct (levelBull_fifo lvl i c ls) as (FB & _).
  destruct (levelBear_fifo lvl i c (fst (levelBull lvl i c ls))) as (FR & _).
  apply fifoBreak_emitted in FB, FR.
  destruct FB as (_ & B1 & B2), FR as (_ & R1 & R2). destruct bull.
  - rewrite (filter_all _ _ B1). specialize (R2 i). cbn [negb] in R2.
    rewrite R2. apply app_nil_r.
  - specialize (B2 i). cbn [negb] in B2. rewrite B2.
    now rewrite (filter_all _ _ R1).
Qed.

Lemma levelRun_before lvl d k ls0 :
  Forall (fun e => Line.breakIndex e < Z.of_nat k /\ Line.level e = lvl /\
                   Line.pivotIndex e < Line.breakIndex e)
    (snd (levelRun lvl d k ls0)).
Proof.
  induction k as [|k IH]; [constructor|].
  rewrite levelRun_S. cbn [snd]. apply Forall_app. split.
  - eapply Forall_impl; [|exact IH]. cbn. intros e (? & ? & ?).
    repeat split; auto; lia.
  - eapply Forall_impl; [|apply levelStep_events]. cbn.
    intros e (? & ? & ? & _). repeat split; auto; lia.
Qed.

Lemma levelRun_at_new lvl d k ls0 bull :
  filter (atBar (Z.of_nat k) bull) (snd (levelRun lvl d k ls0)) = [].
Proof.
  apply filter_none. eapply Forall_impl; [|apply levelRun_before]. cbn.
  intros e (H & _). unfold atBar. now replace (_ =? _) with false by lia.
Qed.

Lemma levelRun_le lvl d k1 k2 ls0 :
  (k1 <= k2)%nat ->
  exists later,
    snd (levelRun lvl d k2 ls0) = snd (levelRun lvl d k1 ls0) ++ later /\
    Forall (fun e => Z.of_nat k1 <= Line.breakIndex e < Z.of_nat k2) later.
Proof.
  induction 1 as [|k2 Hle (later & E & F)].
  - exists []. rewrite app_nil_r. split; [reflexivity|constructor].
  - rewrite levelRun_S. cbn [snd]. rewrite E. eexists.
    rewrite <- app_assoc. split; [reflexivity|]. apply Forall_app. split.
    + eapply Forall_impl; [|exact F]. cbn. intros; lia.
    + eapply Forall_impl; [|apply levelStep_events]. cbn.
      intros e (_ & ? & _). lia.
Qed.

(** At most one event per bar, level and direction. *)
Lemma levelRun_count lvl d k ls0 j bull :
  (length (filter (atBar j bull) (snd (levelRun lvl d k ls0))) <= 1)%nat.
Proof.
  induction k as [|k IH]; [simpl; lia|].
  rewrite levelRun_S. cbn [snd]. rewrite filter_app, length_app.
  destruct (Z.eq_dec (Z.of_nat k) j) as [<-|N].
  - rewrite levelRun_at_new, levelStep_at. cbn [length Nat.add].
    destruct bull.
    + destruct (levelBull_fifo lvl (Z.of_nat k) (closeAt d (Z.of_nat k))
                  (fst (levelRun lvl d k ls0))) as (F & _).
      now apply fifoBreak_emitted in F.
    + destruct (levelBear_fifo lvl (Z.of_nat k) (closeAt d (Z.of_nat k))
                  (fst (levelBull lvl (Z.of_nat k) (closeAt d (Z.of_nat k))
                          (fst (levelRun lvl d k ls0))))) as (F & _).
      now apply fifoBreak_emitted in F.
  - rewrite (filter_none (atBar j bull) (snd (levelStep _ _ _ _))).
    + simpl. lia.
    + eapply Forall_impl; [|apply levelStep_events]. cbn.
      intros e (_ & B & _). now apply atBar_other with (i := Z.of_nat k).
Qed.

Lemma inPushOrder_app xs ys :
  inPushOrder (xs ++ ys) <->
  inPushOrder xs /\ inPushOrder ys /\
  Forall (fun x => Forall (fun y => Pivot.index x < Pivot.index y) ys) xs.
Proof.
  induction xs as [|x xs IH]; cbn [app inPushOrder].
  - split; [intros H; repeat split; auto|tauto].
  - rewrite IH, Forall_app. split.
    + intros ((F1 & F2) & I1 & I2 & F). repeat split; auto.
    + intros ((F1 & I1) & I2 & F). inversion F; subst. repeat split; auto.
Qed.

Lemma inPushOrder_remove pre x post :
  inPushOrder (pre ++ x :: post) -> inPushOrder (pre ++ post).
Proof.
  rewrite !inPushOrder_app. cbn [inPushOrder]. intros (I1 & (F & I2) & A).
  repeat split; auto. eapply Forall_impl; [|exact A]. cbn.
  intros a Ha. now inversion Ha.
Qed.

(** Phase 1 pushes its pivots in the order of their indices. *)
Lemma scanTrace_inPushOrder d L k :
  inPushOrder (traceHighs (scanTrace d L k)) /\
  inPushOrder (traceLows (scanTrace d L k)).
Proof.
  induction k as [|k (H & Lw)]; [now split|].
  destruct (scanTrace_indices d L k) as (BH & BL & _ & _).
  rewrite scanTrace_S. cbn zeta. unfold traceHighs at 1, traceLows at 1.
  cbn [fst snd]. set (t := scanTrace d L k) in *.
  set (cur := stateAt d L (traceOs t) (Z.of_nat k)).
  pose proof (emitHigh_index (traceOs t) cur (Z.of_nat k) (barAt d (Z.of_nat k))) as EH.
  pose proof (emitLow_index (traceOs t) cur (Z.of_nat k) (barAt d (Z.of_nat k))) as EL.
  destruct (emit_length (traceOs t) cur (Z.of_nat k) (barAt d (Z.of_nat k)))
    as (LH & LL).
  assert (forall xs ys, inPushOrder xs -> indexIn 0 (Z.of_nat k) xs ->
                        indexIn (Z.of_nat k) (Z.of_nat k + 1) ys ->
                        (length ys <= 1)%nat -> inPushOrder (xs ++ ys)) as Step.
  { intros xs ys Ix Bx By Ly. apply inPushOrder_app. split; [assumption|].
    split.
    - destruct ys as [|y [|y' ys]]; cbn; auto. simpl in Ly. lia.
    - eapply Forall_impl; [|exact Bx]. cbn. intros x Hx.
      eapply Forall_impl; [|exact By]. cbn. intros; lia. }
  split; apply Step; assumption.
Qed.

Lemma levelStep_inPushOrder lvl i c ls :
  inPushOrder (liveHighs ls) -> inPushOrder (liveLows ls) ->
  inPushOrder (liveHighs (fst (levelStep lvl i c ls))) /\
  inPushOrder (liveLows (fst (levelStep lvl i c ls))).
Proof.
  intros H L. unfold levelStep. cbn [fst].
  destruct (levelBull_fifo lvl i c ls) as (FB & LB).
  destruct (levelBear_fifo lvl i c (fst (levelBull lvl i c ls))) as (FR & HR).
  rewrite HR. rewrite LB in FR. split.
  - destruct FB as [(_ & -> & _)|(pre & pv & post & key & E & _ & _ & -> & _)];
      [assumption|]. rewrite E in H. now apply inPushOrder_remove in H.
  - destruct FR as [(_ & -> & _)|(pre & pv & post & key & E & _ & _ & -> & _)];
      [assumption|]. rewrite E in L. now apply inPushOrder_remove in L.
Qed.

(** The live lists stay in the order of phase 1. *)
Lemma levelRun_inPushOrder lvl d k ls0 :
  inPushOrder (liveHighs ls0) -> inPushOrder (liveLows ls0) ->
  inPushOrder (liveHighs (fst (levelRun lvl d k ls0))) /\
  inPushOrder (liveLows (fst (levelRun lvl d k ls0))).
Proof.
  intros H L. induction k as [|k (IH & IL)]; [now split|].
  rewrite levelRun_S. cbn [fst]. now apply levelStep_inPushOrder.
Qed.

(** The events of bar [k] in a run over [n > k] bars are those its two checks
    recorded. *)
Lemma levelRun_eventsAt lvl d n k ls0 bull :
  (k < n)%nat ->
  let i := Z.of_nat k in
  let ls := fst (levelRun lvl d k ls0) in
  filter (atBar i bull) (snd (levelRun lvl d n ls0)) =
  if bull then snd (levelBull lvl i (closeAt d i) ls)
  else snd (levelBear lvl i (closeAt d i) (fst (levelBull lvl i (closeAt d i) ls))).
Proof.
  intros Hk i ls. subst i ls.
  destruct (levelRun_le lvl d (Datatypes.S k) n ls0) as (later & E & F); [lia|].
  rewrite E, filter_app, levelRun_S. cbn [snd].
  rewrite filter_app, levelRun_at_new, levelStep_at. cbn [app].
  rewrite (filter_none _ later); [apply app_nil_r|].
  eapply Forall_impl; [|exact F]. cbn. intros e He. unfold atBar.
  now replace (_ =? _) with false by lia.
Qed.

(** C1.  At every bar [i] of a run of [calc] and for each level, the live
    lists are in the order in which phase 1 pushed their pivots, and the
    bullish check walks the live pivot-highs in that order and takes the
    first one with [index < i] and [price < close[i]]: that pivot leaves the
    live list and is the single bullish event of the level at bar [i]; when
    no pivot qualifies nothing changes and there is no such event.  The
    bearish check does the same over the live pivot-lows with
    [price > close[i]].  So a level has at most one bullish and at most one
    bearish event per bar. *)
Theorem first_live_pivot_breaks d sl il :
  0 <= sl -> 0 <= il ->
  exists o, calc d sl il = Ok o /\
    (forall lvl i bull,
        (length (eventsAt lvl i bull (outPivots o)) <= 1)%nat) /\
    (forall k, (k < length d)%nat ->
       exists st st',
         afterBars d o k = Ok st /\
         afterBars d o (Datatypes.S k) = Ok st' /\
         forall lvl,
           let i := Z.of_nat k in
           let c := closeAt d i in
           inPushOrder (liveHighs (levelState lvl st)) /\
           inPushOrder (liveLows (levelState lvl st)) /\
           fifoBreak lvl i true (breaksHigh i c)
             (liveHighs (levelState lvl st)) (liveHighs (levelState lvl st'))
             (eventsAt lvl i true (outPivots o)) /\
           fifoBreak lvl i false (breaksLow i c)
             (liveLows (levelState lvl st)) (liveLows (levelState lvl st'))
             (eventsAt lvl i false (outPivots o))).
Proof.
  intros Hs Hi.
  destruct (calc_spec d sl il Hs Hi) as (o & E & T & _ & A & P & _ & K).
  exists o. split; [assumption|].
  destruct (K (length d) (Nat.le_refl _)) as (stn & En & Rn & _).
  assert (stn = finalState o) as -> by congruence. split.
  - intros lvl i bull. unfold eventsAt. rewrite P.
    destruct (Rn lvl) as (_ & ->). apply levelRun_count.
  - intros k Hk.
    destruct (K k) as (st & Ek & Rk & _); [lia|].
    destruct (K (Datatypes.S k)) as (st' & Ek' & Rk' & _); [lia|].
    exists st, st'. split; [assumption|]. split; [assumption|].
    intros lvl. cbn zeta. unfold eventsAt. rewrite P.
    destruct (Rn lvl) as (_ & ->). destruct (Rk lvl) as (Lk & _).
    destruct (Rk' lvl) as (Lk' & _).
    rewrite !levelRun_eventsAt by assumption. cbn zeta.
    rewrite Lk', levelRun_S, <- Lk. cbn [fst].
    unfold levelStep. cbn [fst].
    set (i := Z.of_nat k). set (c := closeAt d i).
    destruct (levelBull_fifo lvl i c (levelState lvl st)) as (FB & LB).
    destruct (levelBear_fifo lvl i c (fst (levelBull lvl i c (levelState lvl st))))
      as (FR & HR).
    rewrite HR.
    assert (inPushOrder (liveHighs (levelState lvl st)) /\
            inPushOrder (liveLows (levelState lvl st))) as (OH & OL).
    { rewrite Lk. apply levelRun_inPushOrder; cbn [levelStart liveHighs liveLows];
        destruct (T lvl) as (TH & TL); rewrite ?TH, ?TL;
        apply scanTrace_inPushOrder. }
    split; [exact OH|]. split; [exact OL|].
    split; [exact FB|]. rewrite <- LB. exact FR.
Qed.

Lemma first_live_pivot_breaks_witness :
  exists o, calc scenario 2 2 = Ok o /\
    (forall lvl i bull,
        (length (eventsAt lvl i bull (outPivots o)) <= 1)%nat) /\
    (forall k, (k < length scenario)%nat ->
       exists st st',
         afterBars scenario o k = Ok st /\
         afterBars scenario o (Datatypes.S k) = Ok st' /\
         forall lvl,
           let i := Z.of_nat k in
           let c := closeAt scenario i in
           inPushOrder (liveHighs (levelState lvl st)) /\
           inPushOrder (liveLows (levelState lvl st)) /\
           fifoBreak lvl i true (breaksHigh i c)
             (liveHighs (levelState lvl st)) (liveHighs (levelState lvl st'))
             (eventsAt lvl i true (outPivots o)) /\
           fifoBreak lvl i false (breaksLow i c)
             (liveLows (levelState lvl st)) (liveLows (levelState lvl st'))
             (eventsAt lvl i false (outPivots o))).
Proof. apply (first_live_pivot_breaks scenario 2 2); lia. Defined.

(** ** C2: the trend register *)

Lemma classified_app t a b :
  classified t (a ++ b) <->
  classified t a /\ classified (registerAfter t a) b.
Proof.
  revert t; induction a as [|e a IH]; intros t; simpl; [tauto|].
  rewrite IH. unfold registerAfter. simpl. tauto.
Qed.

Lemma registerAfter_app t a b :
  registerAfter t (a ++ b) = registerAfter (registerAfter t a) b.
Proof. apply fold_left_app. Qed.

Lemma levelBull_classified lvl i c ls :
  classified (trend ls) (snd (levelBull lvl i c ls)) /\
  trend (fst (levelBull lvl i c ls)) =
    registerAfter (trend ls) (snd (levelBull lvl i c ls)).
Proof.
  unfold levelBull. destruct (findFirst _ _) as [[[pre pv] post]|];
    cbn [fst snd trend]; [|now split].
  unfold registerAfter. cbn. now destruct lvl, (trend ls).
Qed.

Lemma levelBear_classified lvl i c ls :
  classified (trend ls) (snd (levelBear lvl i c ls)) /\
  trend (fst (levelBear lvl i c ls)) =
    registerAfter (trend ls) (snd (levelBear lvl i c ls)).
Proof.
  unfold levelBear. destruct (findFirst _ _) as [[[pre pv] post]|];
    cbn [fst snd trend]; [|now split].
  unfold registerAfter. now destruct lvl, (trend ls).
Qed.

Lemma levelStep_classified lvl i c ls :
  classified (trend ls) (snd (levelStep lvl i c ls)) /\
  trend (fst (levelStep lvl i c ls)) =
    registerAfter (trend ls) (snd (levelStep lvl i c ls)).
Proof.
  unfold levelStep. cbn [fst snd].
  destruct (levelBull_classified lvl i c ls) as (C1 & R1).
  destruct (levelBear_classified lvl i c (fst (levelBull lvl i c ls)))
    as (C2 & R2).
  rewrite classified_app, registerAfter_app, <- R1. auto.
Qed.

Lemma levelRun_classified lvl d k ls0 :
  classified (trend ls0) (snd (levelRun lvl d k ls0)) /\
  trend (fst (levelRun lvl d k ls0)) =
    registerAfter (trend ls0) (snd (levelRun lvl d k ls0)).
Proof.
  induction k as [|k (C & R)]; [now split|].
  rewrite levelRun_S. cbn [fst snd].
  destruct (levelStep_classified lvl (Z.of_nat k) (closeAt d (Z.of_nat k))
              (fst (levelRun lvl d k ls0))) as (C' & R').
  rewrite classified_app, registerAfter_app, <- R. auto.
Qed.

(** C2.  After any number of bars of a run of [calc], and for each level:
    every recorded event is CHoCH exactly when the register it met was Bearish
    (bullish break) or Bullish (bearish break) and is BOS otherwise, the
    register it met being the direction of the level's previous event and
    Neutral before the first, so the first event is BOS; and the register
    equals the direction of the level's last event (Neutral when there is
    none), so it changes only when an event is recorded. *)
Theorem trend_register_classifies d sl il :
  0 <= sl -> 0 <= il ->
  exists o, calc d sl il = Ok o /\
    forall k, (k <= length d)%nat ->
      exists st, afterBars d o k = Ok st /\
        forall lvl,
          classified Neutral (eventsOf lvl (pivots st)) /\
          trend (levelState lvl st) =
            registerAfter Neutral (eventsOf lvl (pivots st)).
Proof.
  intros Hs Hi.
  destruct (calc_spec d sl il Hs Hi) as (o & E & _ & _ & _ & _ & _ & K).
  exists o. split; [assumption|]. intros k Hk.
  destruct (K k Hk) as (st & Ek & Rk & _). exists st. split; [assumption|].
  intros lvl. destruct (Rk lvl) as (-> & ->).
  apply (levelRun_classified lvl d k (levelStart lvl o)).
Qed.

Lemma trend_register_classifies_witness :
  exists o, calc scenario 2 2 = Ok o /\
    forall k, (k <= length scenario)%nat ->
      exists st, afterBars scenario o k = Ok st /\
        forall lvl,
          classified Neutral (eventsOf lvl (pivots st)) /\
          trend (levelState lvl st) =
            registerAfter Neutral (eventsOf lvl (pivots st)).
Proof. apply (trend_register_classifies scenario 2 2); lia. Defined.

(** ** C3: the scan of the specification *)

Lemma finiteBars_at d j :
  finiteBars d -> 0 <= j < len d ->
  high (barAt d j) = Fin (Spec.highOf d j) /\
  low (barAt d j) = Fin (Spec.lowOf d j).
Proof.
  intros F Hj. unfold Spec.highOf, Spec.lowOf, barAt, getZ.
  replace (j <? 0) with false by lia.
  destruct (nth_error d (Z.to_nat j)) as [bar|] eqn:N.
  - apply nth_error_In in N. unfold finiteBars in F.
    rewrite Forall_forall in F. destruct (F bar N) as (H & L).
    destruct (high bar), (low bar); try discriminate. auto.
  - apply nth_error_None in N. unfold len in Hj. lia.
Qed.

(** Over finite bars the window loop carries the running maximum and
    minimum. *)
Lemma window_fold_finite d ws a b :
  finiteBars d -> Forall (fun j => 0 <= j < len d) ws ->
  fold_left (fun acc j => windowStep (barAt d j) acc) ws (Fin a, Fin b) =
  (Fin (fold_left Z.max (map (Spec.highOf d) ws) a),
   Fin (fold_left Z.min (map (Spec.lowOf d) ws) b)).
Proof.
  intros F. revert a b. induction ws as [|j ws IH]; intros a b R; [reflexivity|].
  inversion R as [|? ? Hj R']; subst. cbn [fold_left map].
  destruct (finiteBars_at d j F Hj) as (EH & EL).
  unfold windowStep at 2. unfold Number. rewrite EH, EL. cbn [fst snd].
  unfold lt. cbn [gt].
  replace (if a <? Spec.highOf d j then Fin (Spec.highOf d j) else Fin a)
    with (Fin (Z.max a (Spec.highOf d j))) by (ztest; f_equal; lia).
  replace (if Spec.lowOf d j <? b then Fin (Spec.lowOf d j) else Fin b)
    with (Fin (Z.min b (Spec.lowOf d j))) by (ztest; f_equal; lia).
  now apply IH.
Qed.

Lemma extrema_finite d p L :
  finiteBars d -> 0 <= p -> 0 < L -> p + L < len d ->
  exists mx mn,
    extrema d p (p + L) = (Fin mx, Fin mn) /\
    Spec.maxHigh d p (p + L) = Some mx /\
    Spec.minLow d p (p + L) = Some mn.
Proof.
  intros F Hp HL Hn. unfold extrema, Spec.maxHigh, Spec.minLow, Spec.window.
  replace (Z.to_nat (p + L + 1 - (p + 1))) with (Z.to_nat (p + L - p)) by lia.
  destruct (Z.to_nat (p + L - p)) as [|c] eqn:C; [lia|].
  cbn [zrange fold_left map Spec.maximum Spec.minimum].
  destruct (finiteBars_at d (p + 1) F) as (EH & EL); [lia|].
  unfold windowStep at 2. unfold Number. rewrite EH, EL. cbn [fst snd].
  unfold lt. cbn [gt].
  rewrite window_fold_finite; [eauto|assumption|].
  apply Forall_forall. intros j Hj. apply zrange_In in Hj. lia.
Qed.

Lemma stateAt_spec d L prev p :
  finiteBars d -> 0 <= p -> 0 < L -> p + L < len d ->
  stateAt d L prev p = Spec.candidateState d L prev (p + L).
Proof.
  intros F Hp HL Hn. unfold stateAt, Spec.candidateState, nextOs.
  replace (p + L - L) with p by lia.
  destruct (extrema_finite d p L F Hp HL Hn) as (mx & mn & -> & -> & ->).
  destruct (finiteBars_at d p F) as (-> & ->); [lia|].
  reflexivity.
Qed.

Lemma emit_spec d prev cur p :
  finiteBars d -> 0 <= p < len d ->
  (emitHigh prev cur p (barAt d p), emitLow prev cur p (barAt d p)) =
  Spec.emitted d prev cur p.
Proof.
  intros F Hp. destruct (finiteBars_at d p F Hp) as (EH & EL).
  unfold emitHigh, emitLow, Spec.emitted. rewrite EH, EL.
  destruct prev as [[|]|], cur as [[|]|]; reflexivity.
Qed.

(** Over finite bars and for [L > 0] the trace of the code is the scan of
    the specification. *)
Lemma scanTrace_spec d L k :
  finiteBars d -> 0 < L -> (k <= evaluations d L)%nat ->
  scanTrace d L k = Spec.scan d L k.
Proof.
  intros F HL. induction k as [|k IH]; intros Hk; [reflexivity|].
  rewrite scanTrace_S. cbn [Spec.scan]. rewrite <- IH by lia.
  destruct (scanTrace d L k) as [[prev hs] ls]. cbn zeta.
  unfold traceOs, traceHighs, traceLows. cbn [fst snd].
  replace (L + Z.of_nat k - L) with (Z.of_nat k) by lia.
  replace (L + Z.of_nat k) with (Z.of_nat k + L) by lia.
  unfold evaluations in Hk.
  rewrite <- stateAt_spec by (assumption || lia).
  rewrite <- emit_spec by (assumption || lia). reflexivity.
Qed.

(** C3.  For lookback lengths [> 0] and bars with finite highs and lows, the
    pivot loop of each level returns, and its register and its pivot-highs
    and pivot-lows are those of the scan of the specification: every index
    [i] from [L] to [n - 1] is evaluated with candidate [p = i - L]; the state
    becomes Top when [bar[p].high] strictly exceeds the maximum high over
    (p, i], Bottom when [bar[p].low] is strictly below the minimum low over
    (p, i], and is kept otherwise; a pivot is emitted at [p] exactly when the
    state toggles, a high on a toggle to Top and a low on a toggle to Bottom,
    so a run of candidates of one kind emits one pivot. *)
Theorem pivot_scan_refines_spec d sl il :
  0 < sl -> 0 < il -> finiteBars d ->
  (forall lvl rs,
      length rs = length d ->
      exists st, detectPivots lvl d (lengthOf lvl sl il) rs = Ok st /\
                 traceOf st = Spec.pivotScan d (lengthOf lvl sl il)) /\
  exists o, calc d sl il = Ok o /\
    forall lvl,
      highsOf lvl o = traceHighs (Spec.pivotScan d (lengthOf lvl sl il)) /\
      lowsOf lvl o = traceLows (Spec.pivotScan d (lengthOf lvl sl il)).
Proof.
  intros Hs Hi F.
  assert (forall lvl, 0 < lengthOf lvl sl il) as HL by (now intros [|]).
  assert (forall lvl,
             scanTrace d (lengthOf lvl sl il) (evaluations d (lengthOf lvl sl il)) =
             Spec.pivotScan d (lengthOf lvl sl il)) as T.
  { intros lvl. unfold Spec.pivotScan, evaluations.
    apply scanTrace_spec; [assumption|apply HL|apply Nat.le_refl]. }
  split.
  - intros lvl rs Hrs.
    destruct (detectPivots_trace lvl d (lengthOf lvl sl il) rs)
      as (st & E & _ & _ & Tr); [specialize (HL lvl); lia|assumption|].
    exists st. split; [assumption|]. rewrite Tr. apply T.
  - destruct (calc_spec d sl il) as (o & E & Tr & _); [lia|lia|].
    exists o. split; [assumption|]. intros lvl.
    destruct (Tr lvl) as (-> & ->). now rewrite T.
Qed.

Lemma scenario_finite : finiteBars scenario.
Proof. repeat constructor. Qed.

Lemma pivot_scan_refines_spec_witness :
  (forall lvl rs,
      length rs = length scenario ->
      exists st, detectPivots lvl scenario (lengthOf lvl 2 2) rs = Ok st /\
                 traceOf st = Spec.pivotScan scenario (lengthOf lvl 2 2)) /\
  exists o, calc scenario 2 2 = Ok o /\
    forall lvl,
      highsOf lvl o = traceHighs (Spec.pivotScan scenario (lengthOf lvl 2 2)) /\
      lowsOf lvl o = traceLows (Spec.pivotScan scenario (lengthOf lvl 2 2)).
Proof.
  apply (pivot_scan_refines_spec scenario 2 2); [lia|lia|].
  exact scenario_finite.
Defined.

(** ** C4: consumed pivots *)

Lemma pivot_eta pv : Pivot.mk (Pivot.index pv) (Pivot.price pv) = pv.
Proof. now destruct pv. Qed.

Lemma levelBull_partition lvl i c ls :
  Permutation
    (liveHighs (fst (levelBull lvl i c ls)) ++
     map pivotOf (filter bullish (snd (levelBull lvl i c ls))))
    (liveHighs ls) /\
  filter bearish (snd (levelBull lvl i c ls)) = [].
Proof.
  unfold levelBull. destruct (findFirst _ _) as [[[pre pv] post]|] eqn:F;
    cbn [fst snd liveHighs].
  - apply findFirst_Some in F. destruct F as (-> & _ & _).
    unfold bullish, bearish. cbn [filter Line.key].
    destruct (bullKey_break lvl (trend ls)) as (_ & ->). cbn [negb map].
    unfold pivotOf. cbn [Line.pivotIndex Line.price]. rewrite pivot_eta.
    split; [|reflexivity]. rewrite <- app_assoc.
    apply Permutation_app_head. apply Permutation_sym, Permutation_cons_append.
  - cbn. rewrite app_nil_r. auto.
Qed.

Lemma levelBear_partition lvl i c ls :
  Permutation
    (liveLows (fst (levelBear lvl i c ls)) ++
     map pivotOf (filter bearish (snd (levelBear lvl i c ls))))
    (liveLows ls) /\
  filter bullish (snd (levelBear lvl i c ls)) = [].
Proof.
  unfold levelBear. destruct (findFirst _ _) as [[[pre pv] post]|] eqn:F;
    cbn [fst snd liveLows].
  - apply findFirst_Some in F. destruct F as (-> & _ & _).
    destruct (bearKey_total lvl (trend ls)) as (key & K). rewrite K.
    cbn [fst snd liveLows].
    unfold bullish, bearish. cbn [filter Line.key].
    destruct (bearKey_break _ _ _ K) as (_ & ->). cbn [negb map].
    unfold pivotOf. cbn [Line.pivotIndex Line.price]. rewrite pivot_eta.
    split; [|reflexivity]. rewrite <- app_assoc.
    apply Permutation_app_head. apply Permutation_sym, Permutation_cons_append.
  - cbn. rewrite app_nil_r. auto.
Qed.

(** The pivot lists of a level split, at any time, into the live pivots and
    the pivots consumed by the events recorded so far. *)
Lemma levelRun_partition lvl d k ls0 :
  Permutation
    (liveHighs (fst (levelRun lvl d k ls0)) ++
     map pivotOf (filter bullish (snd (levelRun lvl d k ls0))))
    (liveHighs ls0) /\
  Permutation
    (liveLows (fst (levelRun lvl d k ls0)) ++
     map pivotOf (filter bearish (snd (levelRun lvl d k ls0))))
    (liveLows ls0).
Proof.
  induction k as [|k (PH & PL)]; [cbn; rewrite !app_nil_r; auto|].
  rewrite levelRun_S. cbn [fst snd]. unfold levelStep. cbn [fst snd].
  set (ls := fst (levelRun lvl d k ls0)) in *.
  set (evs := snd (levelRun lvl d k ls0)) in *.
  set (i := Z.of_nat k). set (c := closeAt d i).
  destruct (levelBull_partition lvl i c ls) as (BH & BN).
  destruct (levelBull_fifo lvl i c ls) as (_ & BL).
  destruct (levelBear_partition lvl i c (fst (levelBull lvl i c ls)))
    as (RL & RN).
  destruct (levelBear_fifo lvl i c (fst (levelBull lvl i c ls))) as (_ & RH).
  rewrite !filter_app, !map_app, BN, RN, RH. cbn [map]. rewrite !app_nil_r.
  split.
  - rewrite <- PH. rewrite (Permutation_app_comm (map pivotOf (filter bullish evs))).
    rewrite app_assoc. apply Permutation_app_tail. exact BH.
  - rewrite <- PL. rewrite (Permutation_app_comm (map pivotOf (filter bearish evs))).
    rewrite app_assoc. apply Permutation_app_tail. rewrite <- BL. exact RL.
Qed.

Lemma NoDup_app_disjoint {A : Type} (l1 l2 : list A) a :
  NoDup (l1 ++ l2) -> In a l2 -> ~ In a l1.
Proof.
  induction l1 as [|x l1 IH]; simpl; intros N H2; [tauto|].
  inversion N as [|? ? Hx N']; subst. intros [->|H1].
  - apply Hx. apply in_or_app. now right.
  - now apply (IH N' H2).
Qed.

Lemma map_index_pivotOf evs :
  map Pivot.index (map pivotOf evs) = map Line.pivotIndex evs.
Proof. rewrite map_map. reflexivity. Qed.

(** Events of one level and direction with pairwise different pivots, for
    every level and direction, consume pairwise different pivots. *)
Lemma NoDup_consumed evs :
  (forall lvl,
      NoDup (map Line.pivotIndex (filter bullish (eventsOf lvl evs))) /\
      NoDup (map Line.pivotIndex (filter bearish (eventsOf lvl evs)))) ->
  NoDup (map consumed evs).
Proof.
  induction evs as [|a evs IH]; intros H; [constructor|].
  cbn [map]. constructor.
  - intros Hin. apply in_map_iff in Hin. destruct Hin as (x & Ex & Hx).
    unfold consumed in Ex. injection Ex as EL EB EI.
    destruct (H (Line.level a)) as (NB & NR).
    unfold eventsOf in NB, NR. cbn [filter] in NB, NR.
    replace (Level_eqb (Line.level a) (Line.level a)) with true in NB, NR
      by (now destruct (Line.level a)).
    assert (In x (filter (fun e => Level_eqb (Line.level e) (Line.level a)) evs))
      as Hx'.
    { apply filter_In. split; [assumption|]. rewrite EL. now destruct (Line.level a). }
    unfold bullish, bearish in NB, NR. cbn [filter] in NB, NR.
    destruct (isBull (Line.key a)) eqn:BA; cbn [negb map] in NB, NR.
    + inversion NB as [|? ? Hn _]; subst. apply Hn. rewrite <- EI.
      apply in_map. apply filter_In. split; assumption.
    + inversion NR as [|? ? Hn _]; subst. apply Hn. rewrite <- EI.
      apply in_map. apply filter_In. split; [assumption|]. now rewrite EB.
  - apply IH. intros lvl. destruct (H lvl) as (NB & NR).
    unfold eventsOf in *. cbn [filter] in NB, NR.
    destruct (Level_eqb (Line.level a) lvl); [|auto].
    cbn [filter] in NB, NR. unfold bullish, bearish in *.
    destruct (isBull (Line.key a)); cbn [negb map] in NB, NR; split;
      try assumption.
    + now inversion NB.
    + now inversion NR.
Qed.

(** C4.  In a run of [calc] every event has [pivotIndex < breakIndex]; no
    two events consume the same pivot, a pivot being identified by level,
    kind and index; and after any number of bars the pivots detected for a
    level are the live ones together with those consumed so far, a consumed
    pivot being absent from the live list from then on. *)
Theorem pivots_consumed_once d sl il :
  0 <= sl -> 0 <= il ->
  exists o, calc d sl il = Ok o /\
    Forall (fun e => Line.pivotIndex e < Line.breakIndex e) (outPivots o) /\
    NoDup (map consumed (outPivots o)) /\
    forall k, (k <= length d)%nat ->
      exists st, afterBars d o k = Ok st /\
        forall lvl,
          Permutation
            (liveHighs (levelState lvl st) ++
             map pivotOf (filter bullish (eventsOf lvl (pivots st))))
            (highsOf lvl o) /\
          Permutation
            (liveLows (levelState lvl st) ++
             map pivotOf (filter bearish (eventsOf lvl (pivots st))))
            (lowsOf lvl o) /\
          (forall e, In e (filter bullish (eventsOf lvl (pivots st))) ->
             ~ In (Line.pivotIndex e)
                  (map Pivot.index (liveHighs (levelState lvl st)))) /\
          (forall e, In e (filter bearish (eventsOf lvl (pivots st))) ->
             ~ In (Line.pivotIndex e)
                  (map Pivot.index (liveLows (levelState lvl st)))).
Proof.
  intros Hs Hi.
  destruct (calc_spec d sl il Hs Hi) as (o & E & T & _ & A & P & _ & K).
  exists o. split; [assumption|].
  assert (forall lvl, NoDup (map Pivot.index (highsOf lvl o)) /\
                      NoDup (map Pivot.index (lowsOf lvl o))) as ND.
  { intros lvl. destruct (T lvl) as (-> & ->).
    destruct (scanTrace_indices d (lengthOf lvl sl il)
                (evaluations d (lengthOf lvl sl il))) as (_ & _ & ? & ?).
    auto. }
  assert (forall k, (k <= length d)%nat ->
      exists st, afterBars d o k = Ok st /\
        forall lvl,
          Permutation
            (liveHighs (levelState lvl st) ++
             map pivotOf (filter bullish (eventsOf lvl (pivots st))))
            (highsOf lvl o) /\
          Permutation
            (liveLows (levelState lvl st) ++
             map pivotOf (filter bearish (eventsOf lvl (pivots st))))
            (lowsOf lvl o) /\
          Forall (fun e => Line.pivotIndex e < Line.breakIndex e)
            (eventsOf lvl (pivots st))) as Part.
  { intros k Hk. destruct (K k Hk) as (st & Ek & Rk & _).
    exists st. split; [assumption|]. intros lvl.
    destruct (Rk lvl) as (-> & ->).
    destruct (levelRun_partition lvl d k (levelStart lvl o)) as (PH & PL).
    split; [exact PH|]. split; [exact PL|].
    eapply Forall_impl; [|apply levelRun_before]. cbn. tauto. }
  assert (forall st lvl,
      Permutation
        (liveHighs (levelState lvl st) ++
         map pivotOf (filter bullish (eventsOf lvl (pivots st))))
        (highsOf lvl o) ->
      Permutation
        (liveLows (levelState lvl st) ++
         map pivotOf (filter bearish (eventsOf lvl (pivots st))))
        (lowsOf lvl o) ->
      NoDup (map Pivot.index (liveHighs (levelState lvl st)) ++
             map Line.pivotIndex (filter bullish (eventsOf lvl (pivots st)))) /\
      NoDup (map Pivot.index (liveLows (levelState lvl st)) ++
             map Line.pivotIndex (filter bearish (eventsOf lvl (pivots st)))))
    as Dis.
  { intros st lvl PH PL. destruct (ND lvl) as (NH & NL).
    rewrite <- !map_index_pivotOf, <- !map_app. split.
    - eapply Permutation_NoDup; [|exact NH].
      apply Permutation_map, Permutation_sym, PH.
    - eapply Permutation_NoDup; [|exact NL].
      apply Permutation_map, Permutation_sym, PL. }
  destruct (Part (length d) (Nat.le_refl _)) as (stn & En & Pn).
  assert (stn = finalState o) as -> by congruence.
  split; [|split].
  - rewrite P. apply Forall_forall. intros e He.
    destruct (Pn (Line.level e)) as (_ & _ & F).
    rewrite Forall_forall in F. apply F. apply filter_In.
    split; [assumption|]. now destruct (Line.level e).
  - rewrite P. apply NoDup_consumed. intros lvl.
    destruct (Pn lvl) as (PH & PL & _).
    destruct (Dis _ _ PH PL) as (NH & NL).
    split; eapply NoDup_app_remove_l; eassumption.
  - intros k Hk. destruct (Part k Hk) as (st & Ek & Pk).
    exists st. split; [assumption|]. intros lvl.
    destruct (Pk lvl) as (PH & PL & _).
    destruct (Dis _ _ PH PL) as (NH & NL).
    split; [exact PH|]. split; [exact PL|]. split.
    + intros e He. eapply NoDup_app_disjoint; [exact NH|]. now apply in_map.
    + intros e He. eapply NoDup_app_disjoint; [exact NL|]. now apply in_map.
Qed.

Lemma pivots_consumed_once_witness :
  exists o, calc scenario 2 2 = Ok o /\
    Forall (fun e => Line.pivotIndex e < Line.breakIndex e) (outPivots o) /\
    NoDup (map consumed (outPivots o)) /\
    forall k, (k <= length scenario)%nat ->
      exists st, afterBars scenario o k = Ok st /\
        forall lvl,
          Permutation
            (liveHighs (levelState lvl st) ++
             map pivotOf (filter bullish (eventsOf lvl (pivots st))))
            (highsOf lvl o) /\
          Permutation
            (liveLows (levelState lvl st) ++
             map pivotOf (filter bearish (eventsOf lvl (pivots st))))
            (lowsOf lvl o) /\
          (forall e, In e (filter bullish (eventsOf lvl (pivots st))) ->
             ~ In (Line.pivotIndex e)
                  (map Pivot.index (liveHighs (levelState lvl st)))) /\
          (forall e, In e (filter bearish (eventsOf lvl (pivots st))) ->
             ~ In (Line.pivotIndex e)
                  (map Pivot.index (liveLows (levelState lvl st)))).
Proof. apply (pivots_consumed_once scenario 2 2); lia. Defined.

(** ** C5: channel contents *)

(** C5.  [writeRange] first cuts a run of the channel that begins before the
    new start and continues into or past it, so that the run ends at
    [start - 1], and then writes the price over the new range; and in the
    array returned by [calc] every break channel holds, at every index, the
    price of the last recorded event of that channel whose range
    [pivotIndex .. breakIndex] covers the index, and nothing where no event
    covers it. *)
Theorem channel_last_write_wins :
  (forall key start stop price rs a b,
      0 <= a < start -> start <= b ->
      (forall m, a <= m <= b -> defined rs key m = true) ->
      defined rs key (b + 1) = false ->
      exists rs1 rs2,
        truncateRun key start rs = Ok rs1 /\
        fillRange key start stop (Some price) rs1 = Ok rs2 /\
        writeRange key start stop price rs = Ok rs2 /\
        (forall m, readKey rs1 m key =
                   if (start <=? m) && (m <=? b) then None
                   else readKey rs m key) /\
        (forall m, readKey rs2 m key =
                   if (start <=? m) && (m <=? stop) && (m <? len rs)
                   then Some price else readKey rs1 m key)) /\
  (forall d sl il,
      0 <= sl -> 0 <= il ->
      exists o, calc d sl il = Ok o /\
        forall key m, isBreakKey key = true ->
          readKey (outResults o) m key = lastCovering key m (outPivots o)).
Proof.
  split.
  - intros key start stop price rs a b Ha Hb Hall Hend.
    destruct (truncateRun_cut key start rs a b Ha Hb Hall Hend)
      as (rs1 & E1 & L1 & R1).
    destruct (fillRange_spec key start stop (Some price) rs1) as (rs2 & E2 & L2 & R2);
      [lia|].
    exists rs1, rs2. split; [assumption|]. split; [assumption|].
    split; [unfold writeRange; now rewrite E1|]. split.
    + intros m. rewrite R1, Key_eqb_refl. reflexivity.
    + intros m. rewrite R2, Key_eqb_refl. unfold len. rewrite L1. reflexivity.
  - intros d sl il Hs Hi.
    destruct (calc_spec d sl il Hs Hi) as (o & E & _ & _ & A & P & R & K).
    exists o. split; [assumption|].
    destruct (K (length d) (Nat.le_refl _)) as (st & En & _ & _ & C).
    assert (st = finalState o) as -> by congruence.
    rewrite P, R. exact C.
Qed.

Lemma channel_last_write_wins_witness :
  (exists rs1 rs2,
      truncateRun swingBosBull 4 oneRun = Ok rs1 /\
      fillRange swingBosBull 4 8 (Some (Fin 7)) rs1 = Ok rs2 /\
      writeRange swingBosBull 4 8 (Fin 7) oneRun = Ok rs2 /\
      (forall m, readKey rs1 m swingBosBull =
                 if (4 <=? m) && (m <=? 5) then None
                 else readKey oneRun m swingBosBull) /\
      (forall m, readKey rs2 m swingBosBull =
                 if (4 <=? m) && (m <=? 8) && (m <? len oneRun)
                 then Some (Fin 7) else readKey rs1 m swingBosBull)) /\
  (exists o, calc scenario 2 2 = Ok o /\
     forall key m, isBreakKey key = true ->
       readKey (outResults o) m key = lastCovering key m (outPivots o)).
Proof.
  split.
  - apply (proj1 channel_last_write_wins swingBosBull 4 8 (Fin 7) oneRun 2 5).
    + lia.
    + lia.
    + intros m Hm.
      assert (m = 2 \/ m = 3 \/ m = 4 \/ m = 5) as [->|[->|[->| ->]]] by lia;
        reflexivity.
    + reflexivity.
  - apply (proj2 channel_last_write_wins scenario 2 2); lia.
Defined.

(** ** C6: validation *)

(** C6 (as amended).  [calc] validates nothing: it has no ConfigError and no
    DataError.  It returns for every bar sequence, whatever the values of the
    fields, as soon as both lookback lengths are [>= 0], zero included; and
    it throws, from inside the pivot scan, exactly when a lookback length is
    negative. *)
Theorem calc_fails_iff_negative_lookback d sl il :
  (0 <= sl /\ 0 <= il -> exists o, calc d sl il = Ok o) /\
  (sl < 0 \/ il < 0 -> calc d sl il = TypeError).
Proof.
  split.
  - intros (Hs & Hi). destruct (calc_spec d sl il Hs Hi) as (o & E & _). eauto.
  - apply calc_throws.
Qed.

Lemma calc_fails_iff_negative_lookback_witness :
  (exists o, calc scenario 0 5 = Ok o) /\ calc scenario (-1) 5 = TypeError.
Proof.
  split.
  - apply (proj1 (calc_fails_iff_negative_lookback scenario 0 5)). lia.
  - apply (proj2 (calc_fails_iff_negative_lookback scenario (-1) 5)). lia.
Defined.

(** C6, counterexample.  A lookback of 0 is not rejected: the scan runs with
    an empty window and reports the first bar as a pivot-high.  A bar whose
    fields are [NaN] (what [Number] makes of a missing or non-numeric field)
    is not rejected either: it is skipped by the window maximum, so that the
    bar before it is confirmed as a pivot-high. *)
Lemma zero_lookback_and_NaN_accepted :
  (exists o, calc [flat (Fin 1)] 0 0 = Ok o /\
             swingHighs o = [Pivot.mk 0 (Fin 1)]) /\
  (exists o, calc [flat (Fin 5); flat NaN] 1 1 = Ok o /\
             swingHighs o = [Pivot.mk 0 (Fin 5)]).
Proof.
  split.
  - destruct (calc [flat (Fin 1)] 0 0) as [o|] eqn:E;
      [|vm_compute in E; discriminate].
    exists o. split; [reflexivity|]. vm_compute in E. now injection E as <-.
  - destruct (calc [flat (Fin 5); flat NaN] 1 1) as [o|] eqn:E;
      [|vm_compute in E; discriminate].
    exists o. split; [reflexivity|]. vm_compute in E. now injection E as <-.
Qed.

(** ** C7: appending bars *)

Lemma findFirst_app_fail {A : Type} (test : A -> bool) xs ys :
  Forall (fun y => test y = false) ys ->
  findFirst test (xs ++ ys) =
  match findFirst test xs with
  | Some (pre, x, post) => Some (pre, x, post ++ ys)
  | None => None
  end.
Proof.
  intros F. induction xs as [|a xs IH]; simpl.
  - now apply findFirst_None.
  - destruct (test a); [reflexivity|]. rewrite IH.
    now destruct (findFirst test xs) as [[[pre x] post]|].
Qed.

Lemma notBefore_high i c xs :
  notBefore i xs -> Forall (fun pv => breaksHigh i c pv = false) xs.
Proof.
  intros F. eapply Forall_impl; [|exact F]. cbn. intros pv H.
  unfold breaksHigh. now replace (_ <? i) with false by lia.
Qed.

Lemma notBefore_low i c xs :
  notBefore i xs -> Forall (fun pv => breaksLow i c pv = false) xs.
Proof.
  intros F. eapply Forall_impl; [|exact F]. cbn. intros pv H.
  unfold breaksLow. now replace (_ <? i) with false by lia.
Qed.

Lemma levelBull_extend lvl i c xh xl ls :
  notBefore i xh ->
  levelBull lvl i c (extend xh xl ls) =
  (extend xh xl (fst (levelBull lvl i c ls)), snd (levelBull lvl i c ls)).
Proof.
  intros F. unfold levelBull, extend. cbn [liveHighs liveLows trend].
  rewrite (findFirst_app_fail _ _ _ (notBefore_high i c xh F)).
  destruct (findFirst _ (liveHighs ls)) as [[[pre pv] post]|];
    cbn [fst snd liveHighs liveLows trend]; [|reflexivity].
  now rewrite app_assoc.
Qed.

Lemma levelBear_extend lvl i c xh xl ls :
  notBefore i xl ->
  levelBear lvl i c (extend xh xl ls) =
  (extend xh xl (fst (levelBear lvl i c ls)), snd (levelBear lvl i c ls)).
Proof.
  intros F. unfold levelBear, extend. cbn [liveHighs liveLows trend].
  rewrite (findFirst_app_fail _ _ _ (notBefore_low i c xl F)).
  destruct (findFirst _ (liveLows ls)) as [[[pre pv] post]|];
    cbn [fst snd liveHighs liveLows trend]; [|reflexivity].
  destruct (bearKey lvl (trend ls)); cbn [fst snd liveHighs liveLows trend];
    now rewrite app_assoc.
Qed.

Lemma levelStep_extend lvl i c xh xl ls :
  notBefore i xh -> notBefore i xl ->
  levelStep lvl i c (extend xh xl ls) =
  (extend xh xl (fst (levelStep lvl i c ls)), snd (levelStep lvl i c ls)).
Proof.
  intros Fh Fl. unfold levelStep.
  rewrite levelBull_extend by assumption. cbn [fst snd].
  rewrite levelBear_extend by assumption. reflexivity.
Qed.

Lemma closeAt_app d ext i : i < len d -> closeAt (d ++ ext) i = closeAt d i.
Proof. intros H. unfold closeAt. now rewrite barAt_app. Qed.

(** Over the bars up to [N], the run on the extended sequence, started with
    extra pivots of index [>= N], is the run on the old sequence with the
    extra pivots carried along untouched. *)
Lemma levelRun_extend lvl d ext N xh xl ls0 k :
  notBefore N xh -> notBefore N xl ->
  (k <= length d)%nat -> Z.of_nat k <= N + 1 ->
  levelRun lvl (d ++ ext) k (extend xh xl ls0) =
  (extend xh xl (fst (levelRun lvl d k ls0)), snd (levelRun lvl d k ls0)).
Proof.
  intros Fh Fl. induction k as [|k IH]; intros Hk HN; [reflexivity|].
  rewrite !levelRun_S, IH by lia. cbn [fst snd].
  rewrite closeAt_app by (unfold len; lia).
  rewrite levelStep_extend; [reflexivity| |];
    (eapply Forall_impl; [|eassumption]); cbn; intros; lia.
Qed.

(** The events of the first [k] bars are the events with [breakIndex < k]. *)
Lemma levelRun_upto lvl d n k ls0 :
  (k <= n)%nat ->
  filter (fun e => Line.breakIndex e <? Z.of_nat k) (snd (levelRun lvl d n ls0)) =
  snd (levelRun lvl d k ls0).
Proof.
  intros Hk. destruct (levelRun_le lvl d k n ls0 Hk) as (later & -> & F).
  rewrite filter_app, filter_all, filter_none; [apply app_nil_r| |].
  - eapply Forall_impl; [|exact F]. cbn. intros; lia.
  - eapply Forall_impl; [|apply levelRun_before]. cbn. intros e (? & _). lia.
Qed.

Lemma levelRun_nonneg lvl d n ls0 :
  Forall (fun e => 0 <= Line.breakIndex e) (snd (levelRun lvl d n ls0)).
Proof.
  destruct (levelRun_le lvl d 0 n ls0) as (later & E & F); [lia|].
  rewrite E. cbn [levelRun snd app]. eapply Forall_impl; [|exact F].
  cbn. intros; lia.
Qed.

(** The events up to bar [N], for any integer [N]. *)
Lemma levelRun_upto_Z lvl d n ls0 N :
  (Z.to_nat (N + 1) <= n)%nat ->
  filter (fun e => Line.breakIndex e <=? N) (snd (levelRun lvl d n ls0)) =
  snd (levelRun lvl d (Z.to_nat (N + 1)) ls0).
Proof.
  intros Hk. rewrite <- (levelRun_upto lvl d n (Z.to_nat (N + 1)) ls0 Hk).
  apply filter_ext_in. intros e He.
  pose proof (levelRun_nonneg lvl d n ls0) as P. rewrite Forall_forall in P.
  specialize (P e He). cbn beta. ztest; try reflexivity; lia.
Qed.

Lemma filter_index_below N xs ys :
  indexIn 0 N xs -> notBefore N ys ->
  filter (fun pv => Pivot.index pv <? N) (xs ++ ys) = xs.
Proof.
  intros Fx Fy. rewrite filter_app, filter_all, filter_none; [apply app_nil_r| |].
  - eapply Forall_impl; [|exact Fy]. cbn. intros; lia.
  - eapply Forall_impl; [|exact Fx]. cbn. intros; lia.
Qed.

Lemma len_app {A : Type} (l l' : list A) : len (l ++ l') = len l + len l'.
Proof. unfold len. rewrite length_app. lia. Qed.

(** C7 (as amended).  With lookback lengths [> 0], recomputing over a bar
    sequence extended at its end gives, for each level of lookback [L] and
    with [N = n_old - L]: as pivots of index [< N] exactly the pivots of the
    run over the old sequence, and the same events with
    [breakIndex <= N]. *)
Theorem appended_bars_keep_history d ext sl il :
  0 < sl -> 0 < il ->
  exists o o', calc d sl il = Ok o /\ calc (d ++ ext) sl il = Ok o' /\
    forall lvl,
      let N := len d - lengthOf lvl sl il in
      filter (fun pv => Pivot.index pv <? N) (highsOf lvl o') = highsOf lvl o /\
      filter (fun pv => Pivot.index pv <? N) (lowsOf lvl o') = lowsOf lvl o /\
      filter (fun e => Line.breakIndex e <=? N) (eventsOf lvl (outPivots o')) =
      filter (fun e => Line.breakIndex e <=? N) (eventsOf lvl (outPivots o)).
Proof.
  intros Hs Hi.
  destruct (calc_spec d sl il) as (o & E & T & _ & A & P & _ & K); try lia.
  destruct (calc_spec (d ++ ext) sl il) as (o' & E' & T' & _ & A' & P' & _ & K');
    try lia.
  exists o, o'. split; [assumption|]. split; [assumption|].
  intros lvl N.
  assert (0 < lengthOf lvl sl il) as HL by (now destruct lvl).
  set (L := lengthOf lvl sl il) in *.
  assert (evaluations d L <= evaluations (d ++ ext) L)%nat as Hev.
  { unfold evaluations. rewrite len_app. unfold len. lia. }
  destruct (scanTrace_extends (d ++ ext) L _ _ Hev) as (xh & xl & EH & EL & IH & IL).
  rewrite (scanTrace_app d ext L (evaluations d L)) in EH, EL
    by (lia || apply Nat.le_refl).
  destruct (T lvl) as (TH & TL). destruct (T' lvl) as (TH' & TL').
  fold L in TH, TL, TH', TL'. rewrite <- TH', <- TH in EH.
  rewrite <- TL', <- TL in EL.
  destruct (scanTrace_indices d L (evaluations d L)) as (BH & BL & _ & _).
  rewrite <- TH in BH. rewrite <- TL in BL.
  assert (forall xs, indexIn (Z.of_nat (evaluations d L))
                       (Z.of_nat (evaluations (d ++ ext) L)) xs ->
                     notBefore N xs) as NB.
  { intros xs F. eapply Forall_impl; [|exact F]. cbn. unfold evaluations.
    subst N. intros; lia. }
  assert (forall xs, indexIn 0 (Z.of_nat (evaluations d L)) xs -> indexIn 0 N xs)
    as IB.
  { intros xs F. eapply Forall_impl; [|exact F]. cbn. unfold evaluations.
    subst N. intros; lia. }
  split; [rewrite EH; apply filter_index_below; auto|].
  split; [rewrite EL; apply filter_index_below; auto|].
  destruct (K (length d) (Nat.le_refl _)) as (st & En & Rn & _).
  assert (st = finalState o) as -> by congruence.
  destruct (K' (length (d ++ ext)) (Nat.le_refl _)) as (st' & En' & Rn' & _).
  assert (st' = finalState o') as -> by congruence.
  rewrite P, P'. destruct (Rn lvl) as (_ & ->). destruct (Rn' lvl) as (_ & ->).
  assert (Z.to_nat (N + 1) <= length d)%nat as Hk.
  { subst N. unfold len. lia. }
  rewrite !levelRun_upto_Z by (rewrite ?length_app; lia).
  destruct (Z_lt_le_dec (N + 1) 0) as [Neg|Pos].
  - replace (Z.to_nat (N + 1)) with O by lia. reflexivity.
  - assert (levelStart lvl o' = extend xh xl (levelStart lvl o)) as ->.
    { unfold levelStart, extend. cbn [liveHighs liveLows trend].
      now rewrite EH, EL. }
    rewrite (levelRun_extend lvl d ext N xh xl); auto. lia.
Qed.

Lemma appended_bars_keep_history_witness :
  exists o o',
    calc scenario 2 2 = Ok o /\
    calc (scenario ++ [flat (Fin 9)]) 2 2 = Ok o' /\
    forall lvl,
      let N := len scenario - lengthOf lvl 2 2 in
      filter (fun pv => Pivot.index pv <? N) (highsOf lvl o') = highsOf lvl o /\
      filter (fun pv => Pivot.index pv <? N) (lowsOf lvl o') = lowsOf lvl o /\
      filter (fun e => Line.breakIndex e <=? N) (eventsOf lvl (outPivots o')) =
      filter (fun e => Line.breakIndex e <=? N) (eventsOf lvl (outPivots o)).
Proof.
  apply (appended_bars_keep_history scenario [flat (Fin 9)] 2 2); lia.
Defined.

(** C7, counterexample.  One bar and lookback 1: the old run has no
    candidate; the run over the sequence extended by a lower bar confirms bar
    0 as a pivot-high, and its index 0 is [<= n_old - L = 0]. *)
Lemma appended_bar_confirms_pivot_at_horizon :
  exists o o',
    calc [flat (Fin 5)] 1 1 = Ok o /\
    calc ([flat (Fin 5)] ++ [flat (Fin 4)]) 1 1 = Ok o' /\
    filter (fun pv => Pivot.index pv <=? len [flat (Fin 5)] - 1) (swingHighs o')
    <>
    filter (fun pv => Pivot.index pv <=? len [flat (Fin 5)] - 1) (swingHighs o).
Proof.
  destruct (calc [flat (Fin 5)] 1 1) as [o|] eqn:E;
    [|vm_compute in E; discriminate].
  destruct (calc ([flat (Fin 5)] ++ [flat (Fin 4)]) 1 1) as [o'|] eqn:E';
    [|vm_compute in E'; discriminate].
  exists o, o'. split; [reflexivity|]. split; [reflexivity|].
  vm_compute in E. injection E as <-. vm_compute in E'. injection E' as <-.
  discriminate.
Qed.

(** ** C8: lookback length and number of pivots *)

(** [>] is transitive, [NaN] being above and below nothing. *)
Lemma gt_trans a b c : gt a b = true -> gt b c = true -> gt a c = true.
Proof.
  destruct a, b, c; cbn; try discriminate; try reflexivity; intros; lia.
Qed.

(** The running extrema only move outwards. *)
Lemma window_fold_monotone d ws acc x :
  gt x (fst (fold_left (fun a j => windowStep (barAt d j) a) ws acc)) = true ->
  gt x (fst acc) = true.
Proof.
  revert acc. induction ws as [|j ws IH]; intros acc H; [exact H|].
  cbn [fold_left] in H. specialize (IH _ H).
  unfold windowStep, Number in IH. cbn [fst] in IH.
  destruct (gt (high (barAt d j)) (fst acc)) eqn:G; [|exact IH].
  exact (gt_trans _ _ _ IH G).
Qed.

Lemma window_fold_monotone_low d ws acc y :
  lt y (snd (fold_left (fun a j => windowStep (barAt d j) a) ws acc)) = true ->
  lt y (snd acc) = true.
Proof.
  revert acc. induction ws as [|j ws IH]; intros acc H; [exact H|].
  cbn [fold_left] in H. specialize (IH _ H).
  unfold windowStep, Number in IH. cbn [snd] in IH.
  destruct (lt (low (barAt d j)) (snd acc)) eqn:G; [|exact IH].
  unfold lt in *. exact (gt_trans _ _ _ G IH).
Qed.

Lemma extrema_split d p L1 L2 :
  0 <= L1 <= L2 ->
  extrema d p (p + L2) =
  fold_left (fun a j => windowStep (barAt d j) a)
    (zrange (p + 1 + L1) (Z.to_nat (L2 - L1))) (extrema d p (p + L1)).
Proof.
  intros H. unfold extrema.
  replace (Z.to_nat (p + L2 + 1 - (p + 1))) with (Z.to_nat L1 + Z.to_nat (L2 - L1))%nat
    by lia.
  rewrite zrange_app, fold_left_app.
  replace (p + 1 + Z.of_nat (Z.to_nat L1)) with (p + 1 + L1) by lia.
  do 3 f_equal. lia.
Qed.

(** A candidate that beats its window of length [L2] beats the shorter
    window of length [L1]. *)
Lemma qualifies_shorter d L1 L2 p :
  0 <= L1 <= L2 ->
  (qualifiesTop d L2 p = true -> qualifiesTop d L1 p = true) /\
  (qualifiesBottom d L2 p = true -> qualifiesBottom d L1 p = true).
Proof.
  intros H. unfold qualifiesTop, qualifiesBottom.
  rewrite (extrema_split d p L1 L2 H). split; intros Q.
  - eapply window_fold_monotone; exact Q.
  - eapply window_fold_monotone_low; exact Q.
Qed.

Lemma unbeaten_pure d beaten i lo count :
  (forall j, lo <= j < lo + Z.of_nat count -> j <> i -> 0 <= j < len d) ->
  Symmetric.unbeaten d beaten i lo count = Ok (unbeatenBy d beaten i lo count).
Proof.
  revert lo; induction count as [|c IH]; intros lo H; [reflexivity|].
  unfold unbeatenBy in *. cbn [Symmetric.unbeaten zrange forallb].
  destruct (Z.eqb_spec lo i) as [->|N]; cbn [orb].
  - apply IH. intros; apply H; lia.
  - rewrite item_barAt by (apply H; lia). cbn [bind].
    destruct (beaten (barAt d lo)); [reflexivity|]. cbn [negb andb].
    apply IH. intros; apply H; lia.
Qed.

Lemma window_pure d beaten L i :
  Symmetric.inRange d L i = true ->
  Symmetric.window d beaten L i =
  Ok (unbeatenBy d beaten i (i - L) (Z.to_nat (i + L + 1 - (i - L)))).
Proof.
  unfold Symmetric.inRange, Symmetric.window. intros R.
  apply andb_prop in R. destruct R as (R1 & R2).
  apply unbeaten_pure. intros; lia.
Qed.

Lemma found_S sel price k :
  found sel price (Datatypes.S k) =
  found sel price k ++
  (if sel (Z.of_nat k) then [Pivot.mk (Z.of_nat k) (price (Z.of_nat k))] else []).
Proof.
  unfold found. replace (Datatypes.S k) with (k + 1)%nat by lia.
  rewrite zrange_app, filter_app, map_app. cbn [zrange filter Z.add].
  now destruct (sel (Z.of_nat k)).
Qed.

Lemma highBlock_step lvl d L i st :
  0 <= i < len d -> length (Symmetric.results st) = length d ->
  exists st',
    Symmetric.highBlock lvl d L i (high (barAt d i)) st = Ok st' /\
    length (Symmetric.results st') = length d /\
    symHighs lvl st' =
      symHighs lvl st ++
      (if peak d L i then [Pivot.mk i (high (barAt d i))] else []) /\
    symHighs (other lvl) st' = symHighs (other lvl) st /\
    (forall l, symLows l st' = symLows l st).
Proof.
  intros Hi Hr. unfold Symmetric.highBlock, peak.
  destruct (Symmetric.inRange d L i) eqn:R; cbn [andb].
  - rewrite window_pure by assumption. cbn [bind].
    destruct (unbeatenBy _ _ _ _ _).
    + unfold Symmetric.pushHigh. destruct lvl.
      * destruct (setKey_Ok (Symmetric.results st) i swingHighMarker
                    (Some (high (barAt d i)))) as (r & E).
        { unfold len in *. lia. }
        cbn [Pivot.index Pivot.price]. rewrite E. cbn [bind].
        eexists. split; [reflexivity|]. apply setKey_spec in E.
        destruct E as (Lr & _). cbn.
        repeat split; try congruence; try (now intros [|]).
      * eexists. split; [reflexivity|]. cbn.
        repeat split; auto; try (now intros [|]).
    + exists st. rewrite app_nil_r. repeat split; auto.
  - exists st. rewrite app_nil_r. repeat split; auto.
Qed.

Lemma lowBlock_step lvl d L i st :
  0 <= i < len d -> length (Symmetric.results st) = length d ->
  exists st',
    Symmetric.lowBlock lvl d L i (low (barAt d i)) st = Ok st' /\
    length (Symmetric.results st') = length d /\
    symLows lvl st' =
      symLows lvl st ++
      (if trough d L i then [Pivot.mk i (low (barAt d i))] else []) /\
    symLows (other lvl) st' = symLows (other lvl) st /\
    (forall l, symHighs l st' = symHighs l st).
Proof.
  intros Hi Hr. unfold Symmetric.lowBlock, trough.
  destruct (Symmetric.inRange d L i) eqn:R; cbn [andb].
  - rewrite window_pure by assumption. cbn [bind].
    destruct (unbeatenBy _ _ _ _ _).
    + unfold Symmetric.pushLow. destruct lvl.
      * destruct (setKey_Ok (Symmetric.results st) i swingLowMarker
                    (Some (low (barAt d i)))) as (r & E).
        { unfold len in *. lia. }
        cbn [Pivot.index Pivot.price]. rewrite E. cbn [bind].
        eexists. split; [reflexivity|]. apply setKey_spec in E.
        destruct E as (Lr & _). cbn.
        repeat split; try congruence; try (now intros [|]).
      * eexists. split; [reflexivity|]. cbn.
        repeat split; auto; try (now intros [|]).
    + exists st. rewrite app_nil_r. repeat split; auto.
  - exists st. rewrite app_nil_r. repeat split; auto.
Qed.

(** One bar of the symmetric detection. *)
Lemma symmetric_body_step d sl il i st :
  0 <= i < len d -> length (Symmetric.results st) = length d ->
  exists st',
    Symmetric.pivotBody d sl il i st = Ok st' /\
    length (Symmetric.results st') = length d /\
    forall lvl,
      symHighs lvl st' =
        symHighs lvl st ++
        (if peak d (lengthOf lvl sl il) i
         then [Pivot.mk i (high (barAt d i))] else []) /\
      symLows lvl st' =
        symLows lvl st ++
        (if trough d (lengthOf lvl sl il) i
         then [Pivot.mk i (low (barAt d i))] else []).
Proof.
  intros Hi Hr. unfold Symmetric.pivotBody.
  rewrite item_barAt by assumption. cbn [bind].
  destruct (highBlock_step Swing d sl i st Hi Hr) as (s1 & E1 & R1 & A1 & B1 & C1).
  destruct (lowBlock_step Swing d sl i s1 Hi R1) as (s2 & E2 & R2 & A2 & B2 & C2).
  destruct (highBlock_step Internal d il i s2 Hi R2) as (s3 & E3 & R3 & A3 & B3 & C3).
  destruct (lowBlock_step Internal d il i s3 Hi R3) as (s4 & E4 & R4 & A4 & B4 & C4).
  rewrite E1. cbn [bind]. rewrite E2. cbn [bind]. rewrite E3. cbn [bind].
  exists s4. split; [assumption|]. split; [assumption|].
  cbn [other] in *. intros [|]; cbn [lengthOf].
  - rewrite (C4 Swing), B3, (C2 Swing), A1. split; [reflexivity|].
    rewrite B4, (C3 Swing), A2, (C1 Swing). reflexivity.
  - rewrite (C4 Internal), A3, (C2 Internal), B1. split; [reflexivity|].
    rewrite A4, (C3 Internal), B2, (C1 Internal). reflexivity.
Qed.

(** The symmetric detection never throws, and finds the peaks and the
    troughs. *)
Lemma symmetric_detect d sl il :
  exists s, Symmetric.detectPivots d sl il = Ok s /\
    forall lvl,
      symHighs lvl s =
        found (peak d (lengthOf lvl sl il)) (fun i => high (barAt d i))
          (length d) /\
      symLows lvl s =
        found (trough d (lengthOf lvl sl il)) (fun i => low (barAt d i))
          (length d).
Proof.
  unfold Symmetric.detectPivots, forUpTo.
  destruct (forLoop_total
    (fun i st =>
       length (Symmetric.results st) = length d /\
       forall lvl,
         symHighs lvl st =
           found (peak d (lengthOf lvl sl il)) (fun i => high (barAt d i))
             (Z.to_nat i) /\
         symLows lvl st =
           found (trough d (lengthOf lvl sl il)) (fun i => low (barAt d i))
             (Z.to_nat i))
    0 (Z.to_nat (len d - 0)) (Symmetric.pivotBody d sl il)
    (Symmetric.mkScan [] [] [] [] (map (fun _ => emptyResult) d)))
    as (s & E & _ & F).
  - split; [apply length_map|]. now intros [|].
  - intros i st Hi (Lr & F).
    destruct (symmetric_body_step d sl il i st) as (st' & E & Lr' & S);
      [unfold len in *; lia|assumption|].
    exists st'. split; [assumption|]. split; [assumption|].
    intros lvl. destruct (S lvl) as (-> & ->). destruct (F lvl) as (-> & ->).
    replace (Z.to_nat (i + 1)) with (Datatypes.S (Z.to_nat i)) by lia.
    rewrite !found_S, !Z2Nat.id by lia. auto.
  - exists s. split; [assumption|].
    replace (Z.to_nat (0 + Z.of_nat (Z.to_nat (len d - 0)))) with (length d)
      in F by (unfold len; lia).
    exact F.
Qed.

Lemma unbeatenBy_shorter d beaten i L1 L2 :
  L1 <= L2 ->
  unbeatenBy d beaten i (i - L2) (Z.to_nat (i + L2 + 1 - (i - L2))) = true ->
  unbeatenBy d beaten i (i - L1) (Z.to_nat (i + L1 + 1 - (i - L1))) = true.
Proof.
  intros H. unfold unbeatenBy. rewrite !forallb_forall. intros A j Hj.
  apply A. apply zrange_In. apply zrange_In in Hj. lia.
Qed.

(** On the bars of the sequence, a pivot of the longer window is a pivot of
    the shorter one. *)
Lemma peak_shorter d L1 L2 i :
  L1 < L2 -> 0 <= i < len d ->
  (peak d L2 i = true -> peak d L1 i = true) /\
  (trough d L2 i = true -> trough d L1 i = true).
Proof.
  intros H Hi. unfold peak, trough, Symmetric.inRange.
  split; intros P; apply andb_prop in P; destruct P as (R & U);
    apply andb_prop in R; destruct R as (R1 & R2);
    (apply andb_true_intro; split;
     [apply andb_true_intro; split; lia
     |eapply unbeatenBy_shorter; [|exact U]; lia]).
Qed.

Lemma filter_length_le {A : Type} (f g : A -> bool) l :
  (forall x, In x l -> f x = true -> g x = true) ->
  (length (filter f l) <= length (filter g l))%nat.
Proof.
  induction l as [|a l IH]; intros H; [simpl; lia|].
  cbn [filter]. assert (length (filter f l) <= length (filter g l))%nat as IH'.
  { apply IH. intros; apply H; [now right|assumption]. }
  destruct (f a) eqn:Fa.
  - rewrite (H a (or_introl eq_refl) Fa). simpl. lia.
  - destruct (g a); simpl; lia.
Qed.

Lemma found_smaller sel sel' price k :
  (forall i, 0 <= i < Z.of_nat k -> sel' i = true -> sel i = true) ->
  incl (found sel' price k) (found sel price k) /\
  (length (found sel' price k) <= length (found sel price k))%nat.
Proof.
  intros H. unfold found. split.
  - intros pv Hin. apply in_map_iff in Hin. destruct Hin as (i & <- & Hi).
    apply filter_In in Hi. destruct Hi as (Hi & S).
    apply (in_map (fun i => Pivot.mk i (price i))).
    apply filter_In. split; [assumption|]. apply H; [|assumption].
    apply zrange_In in Hi. lia.
  - rewrite !length_map. apply filter_length_le. intros i Hi S.
    apply H; [|assumption]. apply zrange_In in Hi. lia.
Qed.

(** C8 (as amended).  With the bars fixed and a level's lookback raised: the
    symmetric-window detection finds no pivot it did not find before, so the
    number of its pivots does not grow; in the offset scan a candidate that
    beats its forward window still beats the shorter one, as Top and as
    Bottom, while the number of pivots the state toggle lets through is not
    bounded by this. *)
Theorem longer_lookback_fewer_candidates :
  (forall d sl il sl' il',
      exists s s',
        Symmetric.detectPivots d sl il = Ok s /\
        Symmetric.detectPivots d sl' il' = Ok s' /\
        forall lvl,
          lengthOf lvl sl il < lengthOf lvl sl' il' ->
          incl (symHighs lvl s') (symHighs lvl s) /\
          incl (symLows lvl s') (symLows lvl s) /\
          (length (symHighs lvl s') + length (symLows lvl s') <=
           length (symHighs lvl s) + length (symLows lvl s))%nat) /\
  (forall d L1 L2 p,
      0 <= L1 <= L2 ->
      (qualifiesTop d L2 p = true -> qualifiesTop d L1 p = true) /\
      (qualifiesBottom d L2 p = true -> qualifiesBottom d L1 p = true)).
Proof.
  split; [|apply qualifies_shorter].
  intros d sl il sl' il'.
  destruct (symmetric_detect d sl il) as (s & E & F).
  destruct (symmetric_detect d sl' il') as (s' & E' & F').
  exists s, s'. split; [assumption|]. split; [assumption|].
  intros lvl HL. destruct (F lvl) as (-> & ->). destruct (F' lvl) as (-> & ->).
  destruct (found_smaller (peak d (lengthOf lvl sl il))
              (peak d (lengthOf lvl sl' il')) (fun i => high (barAt d i))
              (length d)) as (I1 & N1).
  { intros i Hi. now apply peak_shorter. }
  destruct (found_smaller (trough d (lengthOf lvl sl il))
              (trough d (lengthOf lvl sl' il')) (fun i => low (barAt d i))
              (length d)) as (I2 & N2).
  { intros i Hi. now apply peak_shorter. }
  split; [assumption|]. split; [assumption|lia].
Qed.

Lemma longer_lookback_fewer_candidates_witness :
  (exists s s',
      Symmetric.detectPivots scenario 1 1 = Ok s /\
      Symmetric.detectPivots scenario 2 2 = Ok s' /\
      forall lvl,
        lengthOf lvl 1 1 < lengthOf lvl 2 2 ->
        incl (symHighs lvl s') (symHighs lvl s) /\
        incl (symLows lvl s') (symLows lvl s) /\
        (length (symHighs lvl s') + length (symLows lvl s') <=
         length (symHighs lvl s) + length (symLows lvl s))%nat) /\
  ((qualifiesTop scenario 2 2 = true -> qualifiesTop scenario 1 2 = true) /\
   (qualifiesBottom scenario 2 2 = true -> qualifiesBottom scenario 1 2 = true)).
Proof.
  split.
  - apply (proj1 longer_lookback_fewer_candidates scenario 1 1 2 2).
  - apply (proj2 longer_lookback_fewer_candidates scenario 1 2 2). lia.
Defined.

(** C8, counterexample.  With lookback 1 every candidate but bar 2 is Top
    and the scan emits the single pivot-high of bar 0; with lookback 2 bar 1
    is no longer Top but is Bottom, and the scan emits a high at 0, a low at 1
    and a high at 3. *)
Lemma longer_lookback_more_pivots :
  exists o1 o2,
    calc zigzag 1 1 = Ok o1 /\ calc zigzag 2 2 = Ok o2 /\
    (length (swingHighs o1) + length (swingLows o1) = 1)%nat /\
    (length (swingHighs o2) + length (swingLows o2) = 3)%nat.
Proof.
  destruct (calc zigzag 1 1) as [o1|] eqn:E1; [|vm_compute in E1; discriminate].
  destruct (calc zigzag 2 2) as [o2|] eqn:E2; [|vm_compute in E2; discriminate].
  exists o1, o2. split; [reflexivity|]. split; [reflexivity|].
  vm_compute in E1. injection E1 as <-.
  vm_compute in E2. injection E2 as <-.
  split; reflexivity.
Qed.

(** ** C9: a break before the confirming bar *)

(** C9.  Phase 2 runs over pivot lists that phase 1 has completed, so a
    pivot can be broken by any bar after it, before the bar that confirmed
    it: with lookback 2 the pivot-high of bar 0 is confirmed at bar 2, and the
    close of bar 1, above it, already breaks it. *)
Theorem break_before_confirmation :
  exists d sl il o e,
    0 < sl /\ 0 < il /\ calc d sl il = Ok o /\
    In e (outPivots o) /\ Line.level e = Swing /\
    In (pivotOf e) (swingHighs o) /\
    Line.breakIndex e < Line.pivotIndex e + sl.
Proof.
  set (d := [mkBar (Fin 0) (Fin 5) (Fin 0) (Fin 0);
             mkBar (Fin 0) (Fin 1) (Fin 0) (Fin 6);
             mkBar (Fin 0) (Fin 1) (Fin 0) (Fin 0)]).
  destruct (calc d 2 2) as [o|] eqn:E; [|vm_compute in E; discriminate].
  exists d, 2, 2, o, (Line.mk swingBosBull 0 1 (Fin 5) Swing).
  split; [lia|]. split; [lia|]. split; [exact E|].
  vm_compute in E. injection E as <-.
  cbn [outPivots swingHighs Line.level Line.breakIndex Line.pivotIndex].
  split; [now left|]. split; [reflexivity|]. split; [now left|lia].
Qed.

(** Bars with [low <= close <= high].  The input above has a close over the
    high of its bar; on bars with [low <= close <= high] a pivot is broken
    only after the bar that confirmed it. *)

Lemma scanTrace_prices d L k :
  Forall (fun pv => Pivot.price pv = high (barAt d (Pivot.index pv)))
    (traceHighs (scanTrace d L k)) /\
  Forall (fun pv => Pivot.price pv = low (barAt d (Pivot.index pv)))
    (traceLows (scanTrace d L k)).
Proof.
  induction k as [|k (H & Lw)]; [split; constructor|].
  rewrite scanTrace_S. cbn zeta. unfold traceHighs at 1, traceLows at 1.
  cbn [fst snd]. split; apply Forall_app; split; try assumption.
  - unfold emitHigh. destruct (_ && _); repeat constructor.
  - unfold emitLow. destruct (_ && _); repeat constructor.
Qed.

Lemma levelBull_crossed lvl d i ls :
  Forall (fun e => crossed d e = true)
    (snd (levelBull lvl i (closeAt d i) ls)).
Proof.
  unfold levelBull. destruct (findFirst _ _) as [[[pre pv] post]|] eqn:F;
    [|constructor].
  apply findFirst_Some in F. destruct F as (_ & T & _).
  repeat constructor. unfold crossed. cbn [Line.key Line.breakIndex Line.price].
  destruct (bullKey_break lvl (trend ls)) as (_ & ->).
  unfold breaksHigh in T. apply andb_prop in T. apply T.
Qed.

Lemma levelBear_crossed lvl d i ls :
  Forall (fun e => crossed d e = true)
    (snd (levelBear lvl i (closeAt d i) ls)).
Proof.
  unfold levelBear. destruct (findFirst _ _) as [[[pre pv] post]|] eqn:F;
    [|constructor].
  apply findFirst_Some in F. destruct F as (_ & T & _).
  destruct (bearKey _ _) as [key|] eqn:K; [|constructor].
  repeat constructor. unfold crossed. cbn [Line.key Line.breakIndex Line.price].
  destruct (bearKey_break _ _ _ K) as (_ & ->).
  unfold breaksLow in T. apply andb_prop in T. apply T.
Qed.

(** Every event of a level was made by the comparison of its direction. *)
Lemma levelRun_crossed lvl d k ls0 :
  Forall (fun e => crossed d e = true) (snd (levelRun lvl d k ls0)).
Proof.
  induction k as [|k IH]; [constructor|].
  rewrite levelRun_S. cbn [snd]. apply Forall_app. split; [assumption|].
  unfold levelStep. cbn [snd]. apply Forall_app. split;
    [apply levelBull_crossed|apply levelBear_crossed].
Qed.

Lemma gt_below x a h :
  gt x a = true -> gt h a = false -> h <> NaN -> gt x h = true.
Proof.
  destruct x, a, h; cbn; try discriminate; try reflexivity; try congruence;
    intros; lia.
Qed.

(** A value above the running maximum is above every bar of the window
    whose high is a number. *)
Lemma window_fold_above d ws acc x :
  gt x (fst (fold_left (fun a j => windowStep (barAt d j) a) ws acc)) = true ->
  forall j, In j ws -> high (barAt d j) <> NaN ->
            gt x (high (barAt d j)) = true.
Proof.
  revert acc. induction ws as [|j' ws IH]; intros acc H j Hj N; [contradiction|].
  cbn [fold_left] in H. destruct Hj as [->|Hj]; [|eapply IH; eauto].
  apply window_fold_monotone in H. unfold windowStep, Number in H.
  cbn [fst] in H. destruct (gt (high (barAt d j)) (fst acc)) eqn:G;
    [exact H|]. eapply gt_below; eauto.
Qed.

(** A value below the running minimum is below every bar of the window
    whose low is a number. *)
Lemma window_fold_under d ws acc y :
  lt y (snd (fold_left (fun a j => windowStep (barAt d j) a) ws acc)) = true ->
  forall j, In j ws -> low (barAt d j) <> NaN ->
            lt y (low (barAt d j)) = true.
Proof.
  revert acc. induction ws as [|j' ws IH]; intros acc H j Hj N; [contradiction|].
  cbn [fold_left] in H. destruct Hj as [->|Hj]; [|eapply IH; eauto].
  apply window_fold_monotone_low in H. unfold windowStep, Number in H.
  cbn [snd] in H. destruct (lt (low (barAt d j)) (snd acc)) eqn:G;
    [exact H|]. unfold lt in *.
  destruct y, (snd acc), (low (barAt d j)); cbn in *;
    try discriminate; try reflexivity; try congruence; lia.
Qed.

Lemma consistentBars_at d j :
  consistentBars d -> 0 <= j < len d ->
  le (low (barAt d j)) (close (barAt d j)) = true /\
  le (close (barAt d j)) (high (barAt d j)) = true.
Proof.
  intros C Hj. unfold barAt, getZ. replace (j <? 0) with false by lia.
  destruct (nth_error d (Z.to_nat j)) as [bar|] eqn:N.
  - apply nth_error_In in N. unfold consistentBars in C.
    rewrite Forall_forall in C. now apply C.
  - apply nth_error_None in N. unfold len in Hj. lia.
Qed.

Lemma no_cross_high c hp hi :
  gt c hp = true -> gt hp hi = true -> le c hi = true -> False.
Proof.
  destruct c, hp, hi; cbn; try discriminate; intros; lia.
Qed.

Lemma no_cross_low c lp li :
  lt c lp = true -> lt lp li = true -> le li c = true -> False.
Proof.
  unfold lt. destruct c, lp, li; cbn; try discriminate; intros; lia.
Qed.

(** On bars with [low <= close <= high], every event of a run of [calc] is
    recorded after the bar [pivotIndex + L] that confirmed its pivot. *)
Lemma consistent_bars_break_after_confirmation d sl il :
  0 <= sl -> 0 <= il -> consistentBars d ->
  exists o, calc d sl il = Ok o /\
    forall e, In e (outPivots o) ->
      Line.pivotIndex e + lengthOf (Line.level e) sl il < Line.breakIndex e.
Proof.
  intros Hs Hi C.
  destruct (calc_spec d sl il Hs Hi) as (o & E & T & _ & A & P & _ & K).
  exists o. split; [assumption|]. intros e He.
  destruct (K (length d) (Nat.le_refl _)) as (st & En & Rn & Fn & _).
  assert (st = finalState o) as -> by congruence. rewrite P in He.
  set (lvl := Line.level e). set (L := lengthOf lvl sl il).
  assert (0 <= L) as HL by (subst L; now destruct lvl).
  destruct (Rn lvl) as (_ & Ev).
  assert (In e (eventsOf lvl (pivots (finalState o)))) as He'.
  { apply filter_In. split; [assumption|]. subst lvl. now destruct (Line.level e). }
  rewrite Forall_forall in Fn. destruct (Fn e He) as (Hp0 & Hbi & _).
  pose proof (levelRun_crossed lvl d (length d) (levelStart lvl o)) as X.
  pose proof (levelRun_before lvl d (length d) (levelStart lvl o)) as B.
  rewrite <- Ev in X, B. rewrite Forall_forall in X, B.
  specialize (X e He'). destruct (B e He') as (_ & _ & Hlt).
  destruct (levelRun_partition lvl d (length d) (levelStart lvl o)) as (PH & PL).
  rewrite <- Ev in PH, PL. cbn [levelStart liveHighs liveLows] in PH, PL.
  destruct (T lvl) as (TH & TL). fold L in TH, TL.
  destruct (scanTrace_kinds d L (evaluations d L)) as (QH & QL & _).
  destruct (scanTrace_prices d L (evaluations d L)) as (RH & RL).
  rewrite <- TH in QH, RH. rewrite <- TL in QL, RL.
  rewrite Forall_forall in QH, QL, RH, RL.
  destruct (Z_lt_le_dec (Line.pivotIndex e + L) (Line.breakIndex e))
    as [Done|Early]; [exact Done|exfalso].
  destruct (consistentBars_at d (Line.breakIndex e) C) as (CL & CH);
    [unfold len; lia|].
  unfold crossed in X. destruct (isBull (Line.key e)) eqn:Bu.
  - assert (In (pivotOf e) (highsOf lvl o)) as Hp.
    { eapply Permutation_in; [exact PH|]. apply in_or_app. right.
      apply in_map. apply filter_In. split; assumption. }
    specialize (QH _ Hp). specialize (RH _ Hp).
    cbn [pivotOf Pivot.index Pivot.price] in QH, RH.
    unfold qualifiesTop, extrema in QH.
    apply window_fold_above with (j := Line.breakIndex e) in QH.
    + rewrite RH in X. exact (no_cross_high _ _ _ X QH CH).
    + apply zrange_In. lia.
    + intros N. unfold closeAt in *. rewrite N in CH.
      destruct (close (barAt d (Line.breakIndex e))); discriminate.
  - assert (In (pivotOf e) (lowsOf lvl o)) as Hp.
    { eapply Permutation_in; [exact PL|]. apply in_or_app. right.
      apply in_map. apply filter_In. split; [assumption|].
      unfold bearish. now rewrite Bu. }
    specialize (QL _ Hp). specialize (RL _ Hp). destruct QL as (_ & QL).
    cbn [pivotOf Pivot.index Pivot.price] in QL, RL.
    unfold qualifiesBottom, extrema in QL.
    apply window_fold_under with (j := Line.breakIndex e) in QL.
    + rewrite RL in X. exact (no_cross_low _ _ _ X QL CL).
    + apply zrange_In. lia.
    + intros N. rewrite N in CL.
      destruct (close (barAt d (Line.breakIndex e))); discriminate.
Qed.

(** ** C10: one pivot per candidate *)

Lemma pivotBody_inv lvl d L i st st' :
  pivotBody lvl d L i st = Ok st' ->
  exists ext bar,
    windowExtrema d (i - L) i = Ok ext /\ item d (i - L) = Ok bar /\
    let cur := nextOs (os st) (high bar) (low bar) (fst ext) (snd ext) in
    traceOf st' =
      (cur, highs st ++ emitHigh (os st) cur (i - L) bar,
            lows st ++ emitLow (os st) cur (i - L) bar).
Proof.
  unfold pivotBody. intros E.
  apply bind_Ok in E. destruct E as (ext & Eext & E).
  apply bind_Ok in E. destruct E as (bar & Ebar & E).
  exists ext, bar. split; [assumption|]. split; [assumption|].
  cbn zeta. unfold Number in E. unfold emitHigh, emitLow.
  set (cur := nextOs _ _ _ _ _) in *.
  apply bind_Ok in E. destruct E as (st1 & E1 & E).
  apply bind_Ok in E. destruct E as (st2 & E2 & E).
  injection E as <-. unfold traceOf. cbn [os highs lows].
  destruct (isTop cur && negb (isTop (os st))) eqn:ET.
  - apply bind_Ok in E1. destruct E1 as (r & _ & [= <-]).
    cbn [os highs lows marks] in E2.
    assert (isBottom cur && negb (isBottom (os st)) = false) as EB.
    { destruct cur as [[|]|]; simpl in *; try reflexivity; discriminate. }
    rewrite EB in *. injection E2 as <-. cbn [highs lows].
    now rewrite app_nil_r.
  - injection E1 as <-.
    destruct (isBottom cur && negb (isBottom (os st))) eqn:EB.
    + apply bind_Ok in E2. destruct E2 as (r & _ & [= <-]).
      cbn [highs lows]. now rewrite app_nil_r.
    + injection E2 as <-. now rewrite !app_nil_r.
Qed.

(** C10.  The Top branch is tested first: a candidate whose high beats its
    forward window puts the register in Top whether or not its low is under
    the window; one evaluation of the pivot loop emits at most one pivot and,
    for such a candidate, no pivot-low; and in a run of [calc] no candidate
    index carries both a pivot-high and a pivot-low of a level, nor two of
    either, and a candidate that qualifies as Top (a fortiori as Top and
    Bottom at once) has no pivot-low. *)
Theorem top_takes_priority :
  (forall prev pivotHigh pivotLow maxHigh minLow,
      gt pivotHigh maxHigh = true ->
      nextOs prev pivotHigh pivotLow maxHigh minLow = Some Top) /\
  (forall lvl d L i st st',
      pivotBody lvl d L i st = Ok st' ->
      (length (highs st') + length (lows st') <=
       Datatypes.S (length (highs st) + length (lows st)))%nat /\
      forall ext bar,
        windowExtrema d (i - L) i = Ok ext -> item d (i - L) = Ok bar ->
        gt (high bar) (fst ext) = true ->
        os st' = Some Top /\ lows st' = lows st) /\
  (forall d sl il,
      0 <= sl -> 0 <= il ->
      exists o, calc d sl il = Ok o /\
        forall lvl,
          NoDup (map Pivot.index (highsOf lvl o)) /\
          NoDup (map Pivot.index (lowsOf lvl o)) /\
          (forall h l, In h (highsOf lvl o) -> In l (lowsOf lvl o) ->
                       Pivot.index h <> Pivot.index l) /\
          (forall p, qualifiesTop d (lengthOf lvl sl il) p = true ->
                     ~ In p (map Pivot.index (lowsOf lvl o)))).
Proof.
  split; [|split].
  - intros prev ph pl mx mn H. unfold nextOs. now rewrite H.
  - intros lvl d L i st st' E.
    destruct (pivotBody_inv _ _ _ _ _ _ E) as (ext & bar & Eext & Ebar & T).
    cbn zeta in T. unfold traceOf in T. injection T as To Th Tl.
    rewrite Th, Tl, To, !length_app. split.
    + unfold emitHigh, emitLow.
      destruct (nextOs _ _ _ _ _) as [[|]|], (os st) as [[|]|]; cbn; lia.
    + intros ext' bar' Eext' Ebar' Q.
      assert (ext' = ext) as -> by congruence.
      assert (bar' = bar) as -> by congruence.
      unfold nextOs, emitLow. rewrite Q. cbn. now rewrite app_nil_r.
  - intros d sl il Hs Hi.
    destruct (calc_spec d sl il Hs Hi) as (o & E & T & _).
    exists o. split; [assumption|]. intros lvl.
    destruct (T lvl) as (-> & ->).
    destruct (scanTrace_indices d (lengthOf lvl sl il)
                (evaluations d (lengthOf lvl sl il))) as (_ & _ & NH & NL).
    destruct (scanTrace_kinds d (lengthOf lvl sl il)
                (evaluations d (lengthOf lvl sl il))) as (_ & KL & D).
    split; [assumption|]. split; [assumption|]. split; [assumption|].
    intros p Q Hin. apply in_map_iff in Hin. destruct Hin as (pv & <- & Hpv).
    rewrite Forall_forall in KL. destruct (KL pv Hpv). congruence.
Qed.

Lemma top_takes_priority_witness :
  nextOs None (Fin 5) (Fin 0) (Fin 3) (Fin 1) = Some Top /\
  exists o, calc scenario 2 2 = Ok o /\
    forall lvl,
      NoDup (map Pivot.index (highsOf lvl o)) /\
      NoDup (map Pivot.index (lowsOf lvl o)) /\
      (forall h l, In h (highsOf lvl o) -> In l (lowsOf lvl o) ->
                   Pivot.index h <> Pivot.index l) /\
      (forall p, qualifiesTop scenario (lengthOf lvl 2 2) p = true ->
                 ~ In p (map Pivot.index (lowsOf lvl o))).
Proof.
  split.
  - apply (proj1 top_takes_priority None (Fin 5) (Fin 0) (Fin 3) (Fin 1)).
    reflexivity.
  - apply (proj2 (proj2 top_takes_priority) scenario 2 2); lia.
Defined.

(** * Further properties of [calc], [writeRange], [draw] and the earlier
      version *)

(** ** Loops that return *)

Section LoopInvariant.
Context {S : Type}.

(** What every turn preserves holds when the loop returns. *)
Lemma forLoop_keeps (P : S -> Prop) lo c (body : Z -> S -> Result S) s s' :
  (forall k a b, body k a = Ok b -> P a -> P b) ->
  P s -> forLoop lo c body s = Ok s' -> P s'.
Proof.
  intros Hb. revert lo s; induction c as [|c IH]; intros lo s Hs; cbn [forLoop].
  - now intros [= <-].
  - destruct (body lo s) as [s1|] eqn:E; [|discriminate].
    apply IH. eapply Hb; eauto.
Qed.

(** The last turn of a loop. *)
Lemma forLoop_last lo c (body : Z -> S -> Result S) s :
  forLoop lo (Datatypes.S c) body s =
  bind (forLoop lo c body s) (body (lo + Z.of_nat c)).
Proof.
  revert lo s; induction c as [|c IH]; intros lo s.
  - cbn [forLoop bind]. rewrite Z.add_0_r. now destruct (body lo s).
  - transitivity (match body lo s with
                  | Ok s1 => forLoop (lo + 1) (Datatypes.S c) body s1
                  | TypeError => TypeError
                  end); [reflexivity|].
    transitivity (bind (match body lo s with
                        | Ok s1 => forLoop (lo + 1) c body s1
                        | TypeError => TypeError
                        end) (body (lo + Z.of_nat (Datatypes.S c))));
      [|reflexivity].
    destruct (body lo s) as [s1|]; [|reflexivity].
    rewrite IH.
    now replace (lo + 1 + Z.of_nat c) with (lo + Z.of_nat (Datatypes.S c)) by lia.
Qed.

End LoopInvariant.

(** ** The markers of the swing pivot loop *)

(** The internal pivot loop leaves [results] alone. *)
Lemma detectPivots_internal_marks d L rs st :
  detectPivots Internal d L rs = Ok st -> marks st = rs.
Proof.
  unfold detectPivots, forUpTo.
  apply (forLoop_keeps (fun st => marks st = rs)); [|reflexivity].
  intros k a b E Ha. unfold pivotBody in E.
  apply bind_Ok in E. destruct E as (ext & _ & E).
  apply bind_Ok in E. destruct E as (bar & _ & E).
  cbn [writeMarker bind] in E.
  destruct (isTop _ && negb (isTop (os a)));
    destruct (isBottom _ && negb (isBottom _));
    cbn [bind os highs lows marks] in E; injection E as <-; exact Ha.
Qed.

(** What one evaluation of the swing pivot loop leaves in [results]: the
    marker of the pivot it pushes, if it pushes one. *)
Lemma pivotBody_markers d L i st st' :
  pivotBody Swing d L i st = Ok st' ->
  let p := i - L in
  let bar := barAt d p in
  let cur := stateAt d L (os st) p in
  0 <= p -> 0 <= L -> i < len d ->
  forall m k,
    readKey (marks st') m k =
    if (m =? p) && Key_eqb k swingHighMarker &&
       (isTop cur && negb (isTop (os st)))
    then Some (high bar)
    else if (m =? p) && Key_eqb k swingLowMarker &&
            (isBottom cur && negb (isBottom (os st)))
    then Some (low bar)
    else readKey (marks st) m k.
Proof.
  intros E p bar cur Hp HL Hi m k. unfold pivotBody in E. fold p in E.
  rewrite windowExtrema_pure in E by (unfold p; lia). cbn [bind] in E.
  rewrite item_barAt in E by (unfold p; lia). cbn [bind] in E.
  unfold Number in E. fold bar in E.
  assert (nextOs (os st) (high bar) (low bar) (fst (extrema d p i))
            (snd (extrema d p i)) = cur) as C.
  { unfold cur, stateAt. fold bar. now replace (p + L) with i by (unfold p; lia). }
  rewrite C in E. cbn [writeMarker] in E.
  destruct (isTop cur && negb (isTop (os st))) eqn:ET.
  - assert (isBottom cur && negb (isBottom (os st)) = false) as EB.
    { destruct cur as [[|]|]; simpl in *; try reflexivity; discriminate. }
    apply bind_Ok in E. destruct E as (st1 & E1 & E).
    apply bind_Ok in E1. destruct E1 as (r & Er & [= <-]).
    cbn [os highs lows marks] in E. rewrite EB in E. cbn [bind] in E.
    injection E as <-. cbn [marks].
    apply setKey_spec in Er. destruct Er as (_ & _ & R). rewrite R.
    rewrite ?EB, ?andb_true_r, ?andb_false_r.
    now destruct ((m =? p) && Key_eqb k swingHighMarker).
  - cbn [bind] in E. destruct (isBottom cur && negb (isBottom (os st))) eqn:EB.
    + apply bind_Ok in E. destruct E as (st1 & E1 & [= <-]).
      apply bind_Ok in E1. destruct E1 as (r & Er & [= <-]). cbn [marks].
      apply setKey_spec in Er. destruct Er as (_ & _ & R). rewrite R.
      rewrite ?andb_true_r, ?andb_false_r. reflexivity.
    + cbn [bind] in E. injection E as <-. cbn [marks].
      now rewrite ?andb_false_r.
Qed.

(** After the swing pivot loop over an array without markers, the markers
    are those of the pivots found. *)
Lemma detectPivots_markers d L :
  0 <= L ->
  exists st,
    detectPivots Swing d L (map (fun _ => emptyResult) d) = Ok st /\
    forall m v,
      (readKey (marks st) m swingHighMarker = Some v <->
       In (Pivot.mk m v) (highs st)) /\
      (readKey (marks st) m swingLowMarker = Some v <->
       In (Pivot.mk m v) (lows st)).
Proof.
  intros HL. unfold detectPivots, forUpTo.
  destruct (forLoop_total
    (fun i st =>
       length (marks st) = length d /\
       traceOf st = scanTrace d L (Z.to_nat (i - L)) /\
       forall m v,
         (readKey (marks st) m swingHighMarker = Some v <->
          In (Pivot.mk m v) (highs st)) /\
         (readKey (marks st) m swingLowMarker = Some v <->
          In (Pivot.mk m v) (lows st)))
    L (Z.to_nat (len d - L)) (pivotBody Swing d L)
    (mkScan None [] [] (map (fun _ => emptyResult) d)))
    as (st & E & _ & _ & M).
  - cbn [marks highs lows]. split; [apply length_map|].
    split; [now rewrite Z.sub_diag|].
    intros m v. rewrite !readKey_empty. cbn [In]. split; split; easy.
  - intros i st Hi (Lm & T & M).
    destruct (pivotBody_step Swing d L i st) as (st' & E & Lm' & _ & T');
      try lia.
    exists st'. split; [assumption|]. split; [assumption|].
    pose proof (pivotBody_markers d L i st st' E) as R. cbn zeta in R.
    split.
    { rewrite T'.
      replace (Z.to_nat (i + 1 - L)) with (Datatypes.S (Z.to_nat (i - L))) by lia.
      cbn [scanTrace]. unfold traceOf in T. rewrite <- T.
      now rewrite Z2Nat.id by lia. }
    destruct (scanTrace_indices d L (Z.to_nat (i - L))) as (IH & IL & _ & _).
    rewrite <- T in IH, IL. unfold traceOf, traceHighs, traceLows in IH, IL.
    cbn [fst snd] in IH, IL. rewrite Z2Nat.id in IH, IL by lia.
    unfold traceOf in T'. injection T' as _ TH TL.
    intros m v. rewrite !R by lia. rewrite TH, TL, !in_app_iff.
    unfold emitHigh, emitLow. cbn [Key_eqb].
    replace (Key_eqb swingHighMarker swingHighMarker) with true by reflexivity.
    replace (Key_eqb swingLowMarker swingLowMarker) with true by reflexivity.
    replace (Key_eqb swingHighMarker swingLowMarker) with false by reflexivity.
    replace (Key_eqb swingLowMarker swingHighMarker) with false by reflexivity.
    rewrite !andb_true_r, !andb_false_r. cbn [andb].
    assert (forall xs, indexIn 0 (i - L) xs -> ~ In (Pivot.mk (i - L) v) xs)
      as Fresh.
    { intros xs F IN. unfold indexIn in F. rewrite Forall_forall in F.
      apply F in IN. cbn in IN. lia. }
    destruct (M m v) as (MH & ML).
    destruct (Z.eqb_spec m (i - L)) as [->|N]; cbn [andb].
    + split.
      * destruct (isTop _ && negb (isTop (os st))) eqn:ET.
        -- split; [intros [= <-]; right; now left|].
           intros [IN|[[= <-]|[]]]; [now apply Fresh in IN|reflexivity].
        -- destruct (isBottom _ && negb (isBottom (os st)));
             (split; [intros Hr; apply MH in Hr; now apply Fresh in Hr|]);
             (intros [IN|[]]; now apply Fresh in IN).
      * destruct (isTop _ && negb (isTop (os st))) eqn:ET.
        -- assert (isBottom (stateAt d L (os st) (i - L)) &&
                   negb (isBottom (os st)) = false) as EB.
           { destruct (stateAt d L (os st) (i - L)) as [[|]|]; simpl in *;
               try reflexivity; discriminate. }
           rewrite EB.
           split; [intros Hr; apply ML in Hr; now apply Fresh in Hr|].
           intros [IN|[]]; now apply Fresh in IN.
        -- destruct (isBottom _ && negb (isBottom (os st))).
           ++ split; [intros [= <-]; right; now left|].
              intros [IN|[[= <-]|[]]]; [now apply Fresh in IN|reflexivity].
           ++ split; [intros Hr; apply ML in Hr; now apply Fresh in Hr|].
              intros [IN|[]]; now apply Fresh in IN.
    + assert (forall (b : bool) x,
                In (Pivot.mk m v) (if b then [Pivot.mk (i - L) x] else []) ->
                False) as Other.
      { intros [|] x; cbn [In]; [intros [[= ?]|[]]; congruence|easy]. }
      split.
      * rewrite MH. split; [auto|]. intros [IN|IN]; [assumption|].
        now apply Other in IN.
      * rewrite ML. split; [auto|]. intros [IN|IN]; [assumption|].
        now apply Other in IN.
  - exists st. split; assumption.
Qed.

(** In the array [calc] returns, the markers are those of the swing pivots:
    the break loop writes break keys only. *)
Lemma calc_markers d sl il o :
  0 <= sl -> 0 <= il -> calc d sl il = Ok o ->
  forall m v,
    (readKey (outResults o) m swingHighMarker = Some v <->
     In (Pivot.mk m v) (swingHighs o)) /\
    (readKey (outResults o) m swingLowMarker = Some v <->
     In (Pivot.mk m v) (swingLows o)).
Proof.
  intros Hs Hi E.
  destruct (calc_run d sl il Hs Hi)
    as (o' & E' & _ & St & LS & LI & L & F & _ & R).
  rewrite E in E'. injection E' as <-.
  destruct (breakLoop_run d (startState o) (length d) (Nat.le_refl _) LS LI)
    as (st & Ek & _ & _ & _ & _ & Mk).
  { destruct St as (_ & -> & _). assumption. }
  { destruct St as (-> & _). reflexivity. }
  { apply St. }
  rewrite F in Ek. injection Ek as <-.
  unfold calc in E.
  destruct (detectPivots_markers d sl Hs) as (sw & Esw & Msw).
  rewrite Esw in E. cbn [bind] in E.
  destruct (detectPivots Internal d il (marks sw)) as [inl|] eqn:Ein;
    [|discriminate].
  cbn [bind] in E. apply detectPivots_internal_marks in Ein.
  destruct (detectBreaks d _) as [st|]; [|discriminate].
  cbn [bind] in E. injection E as <-.
  cbn [outResults swingHighs swingLows startState finalState results] in *.
  intros m v. rewrite !Mk by reflexivity.
  rewrite Ein. apply Msw.
Qed.

(** X1.  For lookback lengths [>= 0], [calc] returns an array with one entry
    per bar, in which entry [m] has a [swingHighMarker] exactly when bar [m]
    is a swing pivot-high, and then the marker is the pivot's price; likewise
    [swingLowMarker] and the swing pivot-lows.  Internal pivots and the break
    loop leave no marker. *)
Theorem markers_sit_on_swing_pivots d sl il :
  0 <= sl -> 0 <= il ->
  exists o, calc d sl il = Ok o /\
    length (outResults o) = length d /\
    forall m v,
      (readKey (outResults o) m swingHighMarker = Some v <->
       In (Pivot.mk m v) (swingHighs o)) /\
      (readKey (outResults o) m swingLowMarker = Some v <->
       In (Pivot.mk m v) (swingLows o)).
Proof.
  intros Hs Hi.
  destruct (calc_spec d sl il Hs Hi) as (o & E & _ & L & _).
  exists o. split; [assumption|]. split; [assumption|].
  exact (calc_markers d sl il o Hs Hi E).
Qed.

Lemma markers_sit_on_swing_pivots_witness :
  exists o, calc scenario 2 2 = Ok o /\
    length (outResults o) = length scenario /\
    forall m v,
      (readKey (outResults o) m swingHighMarker = Some v <->
       In (Pivot.mk m v) (swingHighs o)) /\
      (readKey (outResults o) m swingLowMarker = Some v <->
       In (Pivot.mk m v) (swingLows o)).
Proof. apply (markers_sit_on_swing_pivots scenario 2 2); lia. Defined.

(** ** What a pivot is *)

Lemma gt_not_NaN a b : gt a b = true -> a <> NaN /\ b <> NaN.
Proof. destruct a, b; simpl; intros H; split; congruence. Qed.

Lemma ge_beaten h x : gt x h = true \/ h = NaN -> x <> NaN -> ge h x = false.
Proof.
  intros [G| ->] N; [|reflexivity].
  destruct h, x; simpl in *; try reflexivity; try congruence.
  all: try (rewrite G; reflexivity).
Qed.

Lemma le_beaten l y : lt y l = true \/ l = NaN -> y <> NaN -> le l y = false.
Proof.
  unfold le, lt. intros [G| ->] N.
  - destruct l, y; simpl in *; try reflexivity; try congruence.
    all: try (rewrite G; reflexivity).
  - now destruct y.
Qed.

(** The pivots of a trace lie where their confirming bar exists, carry the
    high (the low) of their bar, and beat every bar of their forward
    window. *)
Lemma scanTrace_beats d L :
  let t := scanTrace d L (evaluations d L) in
  Forall (fun pv =>
            0 <= Pivot.index pv /\ Pivot.index pv + L < len d /\
            Pivot.price pv = high (barAt d (Pivot.index pv)) /\
            Pivot.price pv <> NaN /\
            forall j, Pivot.index pv < j <= Pivot.index pv + L ->
                      ge (high (barAt d j)) (Pivot.price pv) = false)
         (traceHighs t) /\
  Forall (fun pv =>
            0 <= Pivot.index pv /\ Pivot.index pv + L < len d /\
            Pivot.price pv = low (barAt d (Pivot.index pv)) /\
            Pivot.price pv <> NaN /\
            forall j, Pivot.index pv < j <= Pivot.index pv + L ->
                      le (low (barAt d j)) (Pivot.price pv) = false)
         (traceLows t).
Proof.
  cbn zeta.
  destruct (scanTrace_indices d L (evaluations d L)) as (IH & IL & _ & _).
  destruct (scanTrace_prices d L (evaluations d L)) as (PH & PL).
  destruct (scanTrace_kinds d L (evaluations d L)) as (KH & KL & _).
  unfold indexIn in *. rewrite Forall_forall in *. split.
  - intros pv IN. specialize (IH pv IN). specialize (PH pv IN).
    specialize (KH pv IN). cbn beta in *.
    assert (Pivot.index pv + L < len d) as Hc by (unfold evaluations in IH; lia).
    unfold qualifiesTop in KH. rewrite <- PH in KH.
    destruct (gt_not_NaN _ _ KH) as (N & _).
    repeat split; try assumption; try lia.
    intros j Hj. apply ge_beaten; [|assumption].
    destruct (high (barAt d j)) eqn:Hh; try (now right); left; rewrite <- Hh;
      (eapply window_fold_above; [exact KH| |congruence]);
      apply zrange_In; lia.
  - apply Forall_forall.
    intros pv IN. specialize (IL pv IN). specialize (PL pv IN).
    destruct (KL pv IN) as (_ & KB). cbn beta in *.
    assert (Pivot.index pv + L < len d) as Hc by (unfold evaluations in IL; lia).
    unfold qualifiesBottom in KB. rewrite <- PL in KB.
    assert (Pivot.price pv <> NaN) as N.
    { unfold lt in KB. now destruct (gt_not_NaN _ _ KB). }
    repeat split; try assumption; try lia.
    intros j Hj. apply le_beaten; [|assumption].
    destruct (low (barAt d j)) eqn:Hh; try (now right); left; rewrite <- Hh;
      (eapply window_fold_under; [exact KB| |congruence]);
      apply zrange_In; lia.
Qed.

(** X2.  For lookback lengths [>= 0], every pivot-high [calc] finds at a
    level of lookback [L] sits at an index [p] with [0 <= p] and
    [p + L < n], carries the high of bar [p], which is a number, and none of
    the [L] bars after [p] has a high that reaches it; likewise a pivot-low
    carries the low of its bar, and none of the next [L] lows reaches down to
    it. *)
Theorem pivot_beats_forward_window d sl il :
  0 <= sl -> 0 <= il ->
  exists o, calc d sl il = Ok o /\
    forall lvl,
      let L := lengthOf lvl sl il in
      (forall pv, In pv (highsOf lvl o) ->
         0 <= Pivot.index pv /\ Pivot.index pv + L < len d /\
         Pivot.price pv = high (barAt d (Pivot.index pv)) /\
         Pivot.price pv <> NaN /\
         forall j, Pivot.index pv < j <= Pivot.index pv + L ->
                   ge (high (barAt d j)) (Pivot.price pv) = false) /\
      (forall pv, In pv (lowsOf lvl o) ->
         0 <= Pivot.index pv /\ Pivot.index pv + L < len d /\
         Pivot.price pv = low (barAt d (Pivot.index pv)) /\
         Pivot.price pv <> NaN /\
         forall j, Pivot.index pv < j <= Pivot.index pv + L ->
                   le (low (barAt d j)) (Pivot.price pv) = false).
Proof.
  intros Hs Hi.
  destruct (calc_spec d sl il Hs Hi) as (o & E & T & _).
  exists o. split; [assumption|]. intros lvl L.
  destruct (T lvl) as (TH & TL). fold L in TH, TL.
  destruct (scanTrace_beats d L) as (BH & BL).
  rewrite <- TH in BH. rewrite <- TL in BL.
  rewrite Forall_forall in BH, BL. split; assumption.
Qed.

Lemma pivot_beats_forward_window_witness :
  exists o, calc scenario 2 2 = Ok o /\
    forall lvl,
      let L := lengthOf lvl 2 2 in
      (forall pv, In pv (highsOf lvl o) ->
         0 <= Pivot.index pv /\ Pivot.index pv + L < len scenario /\
         Pivot.price pv = high (barAt scenario (Pivot.index pv)) /\
         Pivot.price pv <> NaN /\
         forall j, Pivot.index pv < j <= Pivot.index pv + L ->
                   ge (high (barAt scenario j)) (Pivot.price pv) = false) /\
      (forall pv, In pv (lowsOf lvl o) ->
         0 <= Pivot.index pv /\ Pivot.index pv + L < len scenario /\
         Pivot.price pv = low (barAt scenario (Pivot.index pv)) /\
         Pivot.price pv <> NaN /\
         forall j, Pivot.index pv < j <= Pivot.index pv + L ->
                   le (low (barAt scenario j)) (Pivot.price pv) = false).
Proof. apply (pivot_beats_forward_window scenario 2 2); lia. Defined.

(** ** The recorded events *)

Lemma levelBull_keys lvl i c ls :
  Forall (fun e => levelOfKey (Line.key e) = Some lvl /\
                   isBull (Line.key e) = true)
         (snd (levelBull lvl i c ls)).
Proof.
  unfold levelBull. destruct (findFirst _ _) as [[[pre pv] post]|];
    [|constructor].
  constructor; [|constructor]. cbn. now destruct lvl, (trend ls).
Qed.

Lemma levelBear_keys lvl i c ls :
  Forall (fun e => levelOfKey (Line.key e) = Some lvl /\
                   isBull (Line.key e) = false)
         (snd (levelBear lvl i c ls)).
Proof.
  unfold levelBear. destruct (findFirst _ _) as [[[pre pv] post]|];
    [|constructor].
  destruct (bearKey lvl (trend ls)) as [key|] eqn:K; [|constructor].
  constructor; [|constructor]. cbn.
  destruct lvl, (trend ls); simpl in K; injection K as <-; now split.
Qed.

Lemma levelRun_keys lvl d k ls0 :
  Forall (fun e => levelOfKey (Line.key e) = Some lvl)
         (snd (levelRun lvl d k ls0)).
Proof.
  induction k as [|k IH]; [constructor|].
  rewrite levelRun_S. cbn [snd]. apply Forall_app. split; [assumption|].
  unfold levelStep. cbn [snd]. apply Forall_app. split.
  - eapply Forall_impl; [|apply levelBull_keys]. cbn. tauto.
  - eapply Forall_impl; [|apply levelBear_keys]. cbn. tauto.
Qed.

Lemma eventsOf_In lvl e evs :
  In e (eventsOf lvl evs) <-> In e evs /\ Line.level e = lvl.
Proof.
  unfold eventsOf. rewrite filter_In, Level_eqb_eq. reflexivity.
Qed.

(** X3.  For lookback lengths [>= 0], every event [calc] records is a real
    crossing of a pivot it found: [0 <= pivotIndex < breakIndex < n]; the
    key is one of the four break keys of the event's [level]; a bullish event
    carries index and price of a pivot-high found at that level and the close
    of bar [breakIndex] is strictly above that price; a bearish event carries
    a pivot-low of that level and the close is strictly below its price. *)
Theorem recorded_breaks_are_crossings d sl il :
  0 <= sl -> 0 <= il ->
  exists o, calc d sl il = Ok o /\
    forall e, In e (outPivots o) ->
      0 <= Line.pivotIndex e < Line.breakIndex e /\
      Line.breakIndex e < len d /\
      levelOfKey (Line.key e) = Some (Line.level e) /\
      (if isBull (Line.key e)
       then In (pivotOf e) (highsOf (Line.level e) o) /\
            gt (closeAt d (Line.breakIndex e)) (Line.price e) = true
       else In (pivotOf e) (lowsOf (Line.level e) o) /\
            lt (closeAt d (Line.breakIndex e)) (Line.price e) = true).
Proof.
  intros Hs Hi.
  destruct (calc_spec d sl il Hs Hi) as (o & E & _ & _ & A & P & _ & K).
  exists o. split; [assumption|]. intros e IN.
  destruct (K (length d) (Nat.le_refl _)) as (st & Ek & R & F & _).
  unfold afterBars in A, Ek. rewrite A in Ek. injection Ek as <-.
  rewrite <- P in *. clear P.
  rewrite Forall_forall in F. destruct (F e IN) as (F1 & F2 & _).
  destruct (R (Line.level e)) as (_ & Ev).
  assert (In e (snd (levelRun (Line.level e) d (length d)
                       (levelStart (Line.level e) o)))) as INr.
  { rewrite <- Ev. apply eventsOf_In. now split. }
  pose proof (levelRun_before (Line.level e) d (length d)
                (levelStart (Line.level e) o)) as B.
  pose proof (levelRun_crossed (Line.level e) d (length d)
                (levelStart (Line.level e) o)) as C.
  pose proof (levelRun_keys (Line.level e) d (length d)
                (levelStart (Line.level e) o)) as Ky.
  destruct (levelRun_partition (Line.level e) d (length d)
              (levelStart (Line.level e) o)) as (PH & PL).
  rewrite Forall_forall in B, C, Ky.
  destruct (B e INr) as (_ & _ & B3). specialize (C e INr).
  specialize (Ky e INr). unfold crossed in C.
  split; [lia|]. split; [unfold len; lia|]. split; [assumption|].
  destruct (isBull (Line.key e)) eqn:Bu; (split; [|assumption]).
  - eapply Permutation_in; [exact PH|]. apply in_or_app. right.
    apply in_map. apply filter_In. split; [assumption|exact Bu].
  - eapply Permutation_in; [exact PL|]. apply in_or_app. right.
    apply in_map. apply filter_In. split; [assumption|].
    unfold bearish. now rewrite Bu.
Qed.

Lemma recorded_breaks_are_crossings_witness :
  exists o, calc scenario 2 2 = Ok o /\
    forall e, In e (outPivots o) ->
      0 <= Line.pivotIndex e < Line.breakIndex e /\
      Line.breakIndex e < len scenario /\
      levelOfKey (Line.key e) = Some (Line.level e) /\
      (if isBull (Line.key e)
       then In (pivotOf e) (highsOf (Line.level e) o) /\
            gt (closeAt scenario (Line.breakIndex e)) (Line.price e) = true
       else In (pivotOf e) (lowsOf (Line.level e) o) /\
            lt (closeAt scenario (Line.breakIndex e)) (Line.price e) = true).
Proof. apply (recorded_breaks_are_crossings scenario 2 2); lia. Defined.

(** ** The order of the recorded events *)

Lemma StronglySorted_app {A : Type} (R : A -> A -> Prop) xs ys :
  StronglySorted R xs -> StronglySorted R ys ->
  (forall x y, In x xs -> In y ys -> R x y) ->
  StronglySorted R (xs ++ ys).
Proof.
  induction 1 as [|x xs Sx IH Fx]; intros Sy Hxy; simpl; [assumption|].
  constructor.
  - apply IH; [assumption|]. intros a b Ha Hb. apply Hxy; [now right|assumption].
  - apply Forall_app. split; [assumption|].
    apply Forall_forall. intros y Hy. apply Hxy; [now left|assumption].
Qed.

(** The events a level records at bar [i]: the bullish one, then the bearish
    one. *)
Lemma levelStep_ranks lvl i c ls :
  let off := match lvl with Swing => 0 | Internal => 2 end in
  StronglySorted (fun a b => rank a < rank b) (snd (levelStep lvl i c ls)) /\
  Forall (fun e => 4 * i + off <= rank e <= 4 * i + off + 1)
         (snd (levelStep lvl i c ls)).
Proof.
  cbn zeta. unfold levelStep. cbn [snd].
  destruct (levelBull_fifo lvl i c ls) as (FB & _).
  destruct (levelBear_fifo lvl i c (fst (levelBull lvl i c ls))) as (FR & _).
  assert (Forall (fun e => rank e =
                    4 * i + match lvl with Swing => 0 | Internal => 2 end)
            (snd (levelBull lvl i c ls)) /\
          (length (snd (levelBull lvl i c ls)) <= 1)%nat) as (RB & LB).
  { destruct FB as [(_ & _ & ->)|(pre & pv & post & key & _ & _ & _ & _ & K & ->)].
    - split; [constructor|simpl; lia].
    - split; [|simpl; lia]. constructor; [|constructor].
      unfold rank. cbn. rewrite K. destruct lvl; lia. }
  assert (Forall (fun e => rank e =
                    4 * i + match lvl with Swing => 0 | Internal => 2 end + 1)
            (snd (levelBear lvl i c (fst (levelBull lvl i c ls)))) /\
          (length (snd (levelBear lvl i c (fst (levelBull lvl i c ls)))) <= 1)%nat)
    as (RR & LR).
  { destruct FR as [(_ & _ & ->)|(pre & pv & post & key & _ & _ & _ & _ & K & ->)].
    - split; [constructor|simpl; lia].
    - split; [|simpl; lia]. constructor; [|constructor].
      unfold rank. cbn. rewrite K. destruct lvl; lia. }
  assert (forall l : list Line.t, (length l <= 1)%nat ->
            StronglySorted (fun a b => rank a < rank b) l) as One.
  { intros [|a [|b l]] Hl; [constructor| |simpl in Hl; lia].
    constructor; constructor. }
  rewrite Forall_forall in RB, RR. split.
  - apply StronglySorted_app; auto.
    intros x y Hx Hy. rewrite (RB x Hx), (RR y Hy). lia.
  - apply Forall_app. split; apply Forall_forall; intros e He.
    + rewrite (RB e He). lia.
    + rewrite (RR e He). lia.
Qed.

(** The events one bar adds to [pivots]: those of the swing checks, then
    those of the internal checks. *)
Lemma breakBody_events d i st st' :
  0 <= i < len d -> liveOk (swing st) -> liveOk (internal st) ->
  breakBody d i st = Ok st' ->
  let c := close (barAt d i) in
  pivots st' =
    pivots st ++ snd (levelStep Swing i c (swing st)) ++
                 snd (levelStep Internal i c (internal st)) /\
  liveOk (swing st') /\ liveOk (internal st').
Proof.
  intros Hi HS HI E c. unfold breakBody in E.
  rewrite item_barAt in E by assumption. cbn [bind] in E.
  unfold Number in E. fold c in E.
  destruct (levelChecks_acts Swing i c st HS) as (st2 & E2 & A2 & B2 & C2 & _).
  assert (liveOk (levelState Internal st2)) as HI2.
  { rewrite B2 by discriminate. exact HI. }
  destruct (levelChecks_acts Internal i c st2 HI2) as (st4 & E4 & A4 & B4 & C4 & _).
  assert (st' = st4) as ->.
  { destruct (bullishCheck Swing i c st) as [st1|]; [|discriminate].
    cbn [bind] in *. rewrite E2 in E. cbn [bind] in E.
    rewrite E4 in E. now injection E. }
  rewrite (B2 Internal) in * by discriminate. cbn [levelState] in *.
  split; [rewrite C4, C2, app_assoc; reflexivity|].
  split.
  - specialize (B4 Swing). cbn [levelState] in B4.
    rewrite B4, A2 by discriminate. now apply levelStep_liveOk.
  - rewrite A4. now apply levelStep_liveOk.
Qed.

(** The events of the first [k] bars are in the order of the checks. *)
Lemma breakLoop_sorted d st0 k :
  (k <= length d)%nat ->
  liveOk (swing st0) -> liveOk (internal st0) -> pivots st0 = [] ->
  exists st, forLoop 0 k (breakBody d) st0 = Ok st /\
    StronglySorted (fun a b => rank a < rank b) (pivots st) /\
    Forall (fun e => 0 <= rank e < 4 * Z.of_nat k) (pivots st).
Proof.
  intros Hk HS HI HP.
  destruct (forLoop_total
    (fun i st =>
       liveOk (swing st) /\ liveOk (internal st) /\
       StronglySorted (fun a b => rank a < rank b) (pivots st) /\
       Forall (fun e => 0 <= rank e < 4 * i) (pivots st))
    0 k (breakBody d) st0) as (st & E & _ & _ & S & F).
  - rewrite HP. repeat split; try apply HS; try apply HI; constructor.
  - intros i st Hi (S1 & I1 & So & Bd).
    assert (0 <= i < len d) as Hr by (unfold len; lia).
    destruct (breakBody_step d i st Hr S1 I1) as (st' & new & E & _).
    exists st'. split; [assumption|].
    destruct (breakBody_events d i st st' Hr S1 I1 E) as (P & S' & I').
    split; [assumption|]. split; [assumption|]. rewrite P.
    destruct (levelStep_ranks Swing i (close (barAt d i)) (swing st))
      as (SS & FS).
    destruct (levelStep_ranks Internal i (close (barAt d i)) (internal st))
      as (SI & FI).
    rewrite Forall_forall in Bd, FS, FI. split.
    + apply StronglySorted_app; [assumption| |].
      * apply StronglySorted_app; [assumption|assumption|].
        intros x y Hx Hy. specialize (FS x Hx). specialize (FI y Hy). lia.
      * intros x y Hx Hy. specialize (Bd x Hx).
        apply in_app_or in Hy. destruct Hy as [Hy|Hy];
          [specialize (FS y Hy)|specialize (FI y Hy)]; lia.
    + apply Forall_forall. intros e He.
      apply in_app_or in He. destruct He as [He|He]; [specialize (Bd e He); lia|].
      apply in_app_or in He. destruct He as [He|He];
        [specialize (FS e He)|specialize (FI e He)]; lia.
  - exists st. split; [assumption|]. split; [assumption|].
    eapply Forall_impl; [|exact F]. cbn. intros; lia.
Qed.

(** X4.  For lookback lengths [>= 0], the events [calc] records are in the
    order of the checks of the break loop: bar after bar and, within a bar,
    swing bullish, swing bearish, internal bullish, internal bearish; no two
    events share bar, level and direction. *)
Theorem events_follow_the_checks d sl il :
  0 <= sl -> 0 <= il ->
  exists o, calc d sl il = Ok o /\
    StronglySorted (fun a b => rank a < rank b) (outPivots o) /\
    Forall (fun e => 0 <= rank e < 4 * len d) (outPivots o).
Proof.
  intros Hs Hi.
  destruct (calc_run d sl il Hs Hi)
    as (o & E & _ & St & LS & LI & _ & F & P & _).
  exists o. split; [assumption|].
  destruct (breakLoop_sorted d (startState o) (length d) (Nat.le_refl _) LS LI)
    as (st & Ek & So & Bd).
  { destruct St as (-> & _). reflexivity. }
  rewrite F in Ek. injection Ek as <-. rewrite P. split; assumption.
Qed.

Lemma events_follow_the_checks_witness :
  exists o, calc scenario 2 2 = Ok o /\
    StronglySorted (fun a b => rank a < rank b) (outPivots o) /\
    Forall (fun e => 0 <= rank e < 4 * len scenario) (outPivots o).
Proof. apply (events_follow_the_checks scenario 2 2); lia. Defined.

(** ** Fewer bars than the lookback *)

Lemma levelRun_idle lvl d k t :
  levelRun lvl d k (mkLevel [] [] t) = (mkLevel [] [] t, []).
Proof.
  induction k as [|k IH]; [reflexivity|].
  rewrite levelRun_S, IH. reflexivity.
Qed.

Lemma events_by_level (evs : list Line.t) :
  eventsOf Swing evs = [] -> eventsOf Internal evs = [] -> evs = [].
Proof.
  destruct evs as [|e evs]; [reflexivity|]. unfold eventsOf. simpl.
  destruct (Line.level e); simpl; discriminate.
Qed.

(** X5.  For lookback lengths [>= 0], a level whose lookback is not smaller
    than the number of bars has no pivot and records no event; when this
    holds of both levels (the empty bar list included) [calc] records no
    event at all and returns an array, one entry per bar, of empty results.
*)
Theorem short_input_has_no_structure d sl il :
  0 <= sl -> 0 <= il ->
  exists o, calc d sl il = Ok o /\
    (forall lvl, len d <= lengthOf lvl sl il ->
       highsOf lvl o = [] /\ lowsOf lvl o = [] /\
       eventsOf lvl (outPivots o) = []) /\
    (len d <= sl -> len d <= il ->
       outPivots o = [] /\ length (outResults o) = length d /\
       blank (outResults o)).
Proof.
  intros Hs Hi.
  destruct (calc_spec d sl il Hs Hi) as (o & E & T & L & A & P & R & K).
  exists o. split; [assumption|].
  destruct (K (length d) (Nat.le_refl _)) as (st & Ek & Rk & _ & Ck).
  unfold afterBars in A, Ek. rewrite A in Ek. injection Ek as <-.
  rewrite <- P, <- R in *.
  assert (forall lvl, len d <= lengthOf lvl sl il ->
            highsOf lvl o = [] /\ lowsOf lvl o = [] /\
            eventsOf lvl (outPivots o) = []) as Short.
  { intros lvl Hl. destruct (T lvl) as (TH & TL).
    unfold evaluations in TH, TL.
    replace (Z.to_nat (len d - lengthOf lvl sl il)) with O in TH, TL by lia.
    cbn in TH, TL. split; [assumption|]. split; [assumption|].
    destruct (Rk lvl) as (_ & ->). unfold levelStart. rewrite TH, TL.
    now rewrite levelRun_idle. }
  split; [exact Short|]. intros H1 H2.
  destruct (Short Swing H1) as (SH & SL & SE).
  destruct (Short Internal H2) as (_ & _ & IE).
  pose proof (events_by_level _ SE IE) as Ev.
  split; [assumption|]. split; [assumption|].
  intros m key. destruct (isBreakKey key) eqn:Bk.
  - rewrite Ck, Ev by assumption. reflexivity.
  - pose proof (calc_markers d sl il o Hs Hi E m) as M.
    cbn [highsOf lowsOf] in SH, SL. rewrite SH, SL in M.
    destruct (readKey (outResults o) m key) as [v|] eqn:Rd; [|reflexivity].
    destruct key; try discriminate; destruct (M v) as (M1 & M2);
      [apply M1 in Rd|apply M2 in Rd]; destruct Rd.
Qed.

Lemma short_input_has_no_structure_witness :
  exists o, calc scenario 9 12 = Ok o /\
    outPivots o = [] /\ length (outResults o) = length scenario /\
    blank (outResults o).
Proof.
  destruct (short_input_has_no_structure scenario 9 12) as (o & E & _ & B);
    [lia|lia|].
  exists o. split; [exact E|]. apply B; vm_compute; discriminate.
Defined.

(** ** [writeRange] at the bounds of the array *)

Lemma scanFwd_inside rs key fuel r :
  r < len rs -> r <= scanFwd rs key fuel r < len rs.
Proof.
  revert r; induction fuel as [|fuel IH]; intros r Hr; cbn [scanFwd]; [lia|].
  destruct (Z.ltb_spec (r + 1) (len rs)); cbn [andb]; [|lia].
  destruct (defined rs key (r + 1)); [|lia].
  specialize (IH (r + 1)). lia.
Qed.

(** Nothing is cut by a write that starts at or after the end of the array. *)
Lemma truncateRun_outside key start rs :
  len rs <= start -> truncateRun key start rs = Ok rs.
Proof.
  intros Hs. unfold truncateRun.
  destruct (defined rs key (Z.of_nat (Z.to_nat (Z.max 0 (start - 1))))) eqn:D.
  - pose proof (defined_range _ _ _ D) as Rg.
    destruct (scanBack_run rs key _ None D) as (a & -> & Ha & _).
    pose proof (scanFwd_inside rs key (Z.to_nat (len rs - a)) a) as In.
    replace (start <=? _) with false by lia. reflexivity.
  - now rewrite scanBack_none.
Qed.

Lemma fillRange_outside key start stop v rs :
  len rs <= start \/ stop < start -> fillRange key start stop v rs = Ok rs.
Proof.
  intros H. unfold fillRange, forUpTo.
  replace (Z.to_nat _) with O by lia. reflexivity.
Qed.

(** The first assignment of a fill that starts below index 0 throws. *)
Lemma fillRange_negative key start stop v rs :
  start < 0 -> start <= stop -> fillRange key start stop v rs = TypeError.
Proof.
  intros Hs Hr. unfold fillRange, forUpTo.
  apply forLoop_throws with (k := start); [unfold len; lia|].
  intros r. unfold setKey. rewrite getZ_None; [reflexivity|]. now left.
Qed.

(** X6.  [writeRange] from a start [>= 0] never throws and keeps the length
    of the array; it changes nothing on any other key and nothing below
    [start]; the indices of [start .. end] that lie in the array hold the
    price; an index after [end] keeps its value or loses it, and never takes
    another one; and a start at or after the end of the array changes
    nothing at all. *)
Theorem writeRange_stays_on_its_channel key start stop price rs :
  0 <= start ->
  exists rs', writeRange key start stop price rs = Ok rs' /\
    length rs' = length rs /\
    (forall m k, k <> key -> readKey rs' m k = readKey rs m k) /\
    (forall m, m < start -> readKey rs' m key = readKey rs m key) /\
    (forall m, start <= m <= stop -> m < len rs ->
               readKey rs' m key = Some price) /\
    (forall m, stop < m ->
               readKey rs' m key = readKey rs m key \/
               readKey rs' m key = None) /\
    (len rs <= start -> rs' = rs).
Proof.
  intros Hs.
  destruct (writeRange_spec key start stop price rs Hs) as (rs' & E & L & R).
  exists rs'. split; [assumption|]. split; [assumption|].
  split; [intros m k N; apply R; now left|].
  split; [intros m Hm; apply R; now right|].
  split; [intros m Hm Hl; now apply R|].
  split; [intros m Hm; now apply R|].
  intros Ho. unfold writeRange in E.
  rewrite truncateRun_outside in E by assumption. cbn [bind] in E.
  rewrite fillRange_outside in E by (now left). now injection E.
Qed.

Lemma writeRange_stays_on_its_channel_witness :
  exists rs', writeRange swingBosBull 4 8 (Fin 7) oneRun = Ok rs' /\
    length rs' = length oneRun /\
    (forall m k, k <> swingBosBull -> readKey rs' m k = readKey oneRun m k) /\
    (forall m, m < 4 -> readKey rs' m swingBosBull = readKey oneRun m swingBosBull) /\
    (forall m, 4 <= m <= 8 -> m < len oneRun ->
               readKey rs' m swingBosBull = Some (Fin 7)) /\
    (forall m, 8 < m ->
               readKey rs' m swingBosBull = readKey oneRun m swingBosBull \/
               readKey rs' m swingBosBull = None) /\
    (len oneRun <= 4 -> rs' = oneRun).
Proof. apply (writeRange_stays_on_its_channel swingBosBull 4 8 (Fin 7) oneRun); lia. Defined.

(** X7.  [writeRange] from a negative start throws as soon as it has an
    assignment or a deletion to make at that start: when the range is not
    empty ([start <= end]), or when the channel has a value at index 0, whose
    run it then sets out to cut from [start]; otherwise it returns and
    changes nothing. *)
Theorem writeRange_below_zero key start stop price rs :
  start < 0 ->
  writeRange key start stop price rs =
  if (start <=? stop) || defined rs key 0 then TypeError else Ok rs.
Proof.
  intros Hs. unfold writeRange, truncateRun.
  replace (Z.to_nat (Z.max 0 (start - 1))) with O by lia.
  cbn [scanBack]. change (Z.of_nat 0) with 0.
  destruct (defined rs key 0) eqn:D.
  - rewrite orb_true_r.
    pose proof (defined_range _ _ _ D) as Rg.
    pose proof (scanFwd_inside rs key (Z.to_nat (len rs - 0)) 0) as In.
    replace (start <=? _) with true by lia.
    rewrite fillRange_negative by lia. reflexivity.
  - rewrite orb_false_r. cbn [bind].
    destruct (Z.leb_spec start stop).
    + now apply fillRange_negative.
    + apply fillRange_outside. now right.
Qed.

Lemma writeRange_below_zero_witness :
  writeRange swingBosBull (-2) 3 (Fin 7) oneRun =
  if (-2 <=? 3) || defined oneRun swingBosBull 0 then TypeError else Ok oneRun.
Proof. apply (writeRange_below_zero swingBosBull (-2) 3 (Fin 7) oneRun); lia. Defined.

(** X8.  A run of the channel that begins exactly at the new start is kept
    by a write at a start [> 0], which cuts nothing when index [start - 1] is
    empty, so that the values after [end] survive; it is cut whole by a write
    at start 0, where the backward scan begins at index 0 itself. *)
Theorem writeRange_run_at_start key stop price rs :
  (forall start,
      0 < start -> defined rs key (start - 1) = false ->
      exists rs', writeRange key start stop price rs = Ok rs' /\
        forall m, readKey rs' m key =
                  if (start <=? m) && (m <=? stop) && (m <? len rs)
                  then Some price else readKey rs m key) /\
  (forall b,
      0 <= b -> (forall m, 0 <= m <= b -> defined rs key m = true) ->
      defined rs key (b + 1) = false ->
      exists rs', writeRange key 0 stop price rs = Ok rs' /\
        forall m, readKey rs' m key =
                  if (0 <=? m) && (m <=? stop) && (m <? len rs)
                  then Some price
                  else if (0 <=? m) && (m <=? b) then None
                  else readKey rs m key).
Proof.
  split.
  - intros start Hs D. unfold writeRange.
    rewrite truncateRun_none by assumption. cbn [bind].
    destruct (fillRange_spec key start stop (Some price) rs) as (rs' & E & _ & R);
      [lia|].
    exists rs'. split; [assumption|]. intros m. rewrite R, Key_eqb_refl.
    reflexivity.
  - intros b Hb Hall Hend. unfold writeRange, truncateRun.
    replace (Z.to_nat (Z.max 0 (0 - 1))) with O by lia.
    cbn [scanBack]. change (Z.of_nat 0) with 0.
    rewrite (Hall 0) by lia.
    assert (b < len rs) as Hlen.
    { assert (defined rs key b = true) as D by (apply Hall; lia).
      apply defined_range in D. lia. }
    rewrite (scanFwd_run rs key _ 0 b); try lia; try assumption.
    2:{ intros m Hm. apply Hall. lia. }
    replace (0 <=? b) with true by lia.
    destruct (fillRange_spec key 0 b None rs) as (rs1 & E1 & L1 & R1); [lia|].
    rewrite E1. cbn [bind].
    destruct (fillRange_spec key 0 stop (Some price) rs1) as (rs' & E & _ & R);
      [lia|].
    exists rs'. split; [assumption|]. intros m.
    rewrite R, R1, Key_eqb_refl. cbn [andb].
    replace (len rs1) with (len rs) by (unfold len; congruence).
    destruct ((0 <=? m) && (m <=? stop) && (m <? len rs)); [reflexivity|].
    destruct (Z.leb_spec 0 m); cbn [andb]; [|reflexivity].
    destruct (Z.leb_spec m b); cbn [andb]; [|reflexivity].
    replace (m <? len rs) with true by lia. reflexivity.
Qed.

Lemma writeRange_run_at_start_witness :
  (exists rs', writeRange swingBosBull 2 3 (Fin 7) oneRun = Ok rs' /\
     forall m, readKey rs' m swingBosBull =
               if (2 <=? m) && (m <=? 3) && (m <? len oneRun)
               then Some (Fin 7) else readKey oneRun m swingBosBull) /\
  (exists rs', writeRange swingBosBull 0 1 (Fin 7) headRun = Ok rs' /\
     forall m, readKey rs' m swingBosBull =
               if (0 <=? m) && (m <=? 1) && (m <? len headRun)
               then Some (Fin 7)
               else if (0 <=? m) && (m <=? 3) then None
               else readKey headRun m swingBosBull).
Proof.
  split.
  - apply (proj1 (writeRange_run_at_start swingBosBull 3 (Fin 7) oneRun) 2);
      [lia|reflexivity].
  - apply (proj2 (writeRange_run_at_start swingBosBull 1 (Fin 7) headRun) 3);
      [lia| |reflexivity].
    intros m Hm.
    assert (m = 0 \/ m = 1 \/ m = 2 \/ m = 3) as [-> | [-> | [-> | ->]]] by lia;
      reflexivity.
Defined.

(** ** [draw] *)

(** The operations [draw] issues for one event. *)
Lemma drawPivot_ops xAxis yAxis p ctx :
  drawPivot xAxis yAxis p ctx = ctx ++ drawPivot xAxis yAxis p [].
Proof.
  unfold drawPivot, call. cbn [app]. now rewrite <- !app_assoc.
Qed.

Lemma draw_ops ctx extendData xAxis yAxis :
  draw ctx extendData xAxis yAxis =
  (true, ctx ++ flat_map (fun p => drawPivot xAxis yAxis p [])
                  (recorded extendData)).
Proof.
  unfold draw. fold (recorded extendData).
  assert (forall ps c,
            fold_left (fun c p => drawPivot xAxis yAxis p c) ps c =
            c ++ flat_map (fun p => drawPivot xAxis yAxis p []) ps) as F.
  { induction ps as [|p ps IH]; intros c; cbn [fold_left flat_map].
    - now rewrite app_nil_r.
    - rewrite IH, (drawPivot_ops _ _ p c), <- app_assoc. reflexivity. }
  destruct (recorded extendData) as [|p ps]; [now rewrite app_nil_r|].
  replace (len (p :: ps) =? 0) with false by (unfold len; simpl; lia).
  now rewrite F.
Qed.

Lemma lines_balanced xAxis yAxis ps depth :
  stackDepth depth (flat_map (fun p => drawPivot xAxis yAxis p []) ps) =
  Some depth.
Proof.
  induction ps as [|p ps IH]; [reflexivity|]. exact IH.
Qed.

Lemma lines_paths xAxis yAxis ps :
  paths (flat_map (fun p => drawPivot xAxis yAxis p []) ps) =
  map (lineOf xAxis yAxis) ps.
Proof.
  induction ps as [|p ps IH]; [reflexivity|].
  cbn [flat_map map]. unfold drawPivot at 1, call. cbn [app paths].
  now rewrite IH.
Qed.

Lemma lines_strokes xAxis yAxis ps :
  strokes (flat_map (fun p => drawPivot xAxis yAxis p []) ps) = length ps.
Proof.
  unfold strokes. induction ps as [|p ps IH]; [reflexivity|].
  cbn [flat_map length]. unfold drawPivot at 1, call. cbn [app filter length].
  now rewrite IH.
Qed.

(** X9.  [draw] always returns [true] and only adds operations to the
    canvas; it adds none when [extendData] is missing or holds no event;
    otherwise it strokes one path per recorded event, in the order of the
    list: the horizontal line at the event's price from its pivot to its
    break; and whatever the events, each [save] it issues is undone by a
    [restore], so that the context's stack of states is left as it was
    found and is never popped below that. *)
Theorem draw_strokes_one_line_per_event ctx extendData xAxis yAxis :
  exists ops,
    draw ctx extendData xAxis yAxis = (true, ctx ++ ops) /\
    (recorded extendData = [] -> ops = []) /\
    paths ops = map (lineOf xAxis yAxis) (recorded extendData) /\
    strokes ops = length (recorded extendData) /\
    forall depth, stackDepth depth ops = Some depth.
Proof.
  exists (flat_map (fun p => drawPivot xAxis yAxis p []) (recorded extendData)).
  split; [apply draw_ops|]. split; [now intros ->|].
  split; [apply lines_paths|]. split; [apply lines_strokes|].
  intros depth. apply lines_balanced.
Qed.

(** The style [draw] gives a break key is the one of the figure table. *)
Lemma drawPivot_figure xAxis yAxis e :
  isBreakKey (Line.key e) = true ->
  drawPivot xAxis yAxis e [] = figureLine xAxis yAxis e.
Proof.
  destruct e as [key pi bi price lvl]. cbn [Line.key].
  destruct key; intros K; try discriminate; reflexivity.
Qed.

(** X10.  For lookback lengths [>= 0], [draw] run on what [calc] left in
    [extendData] strokes every recorded event, in order, with the colour,
    the width and the dash pattern that [figures] gives the figure of the
    event's key, never with the fallback style; and the style follows the
    event's [level]: width 2 and no dash for a swing event, width 1 and the
    dash pattern 4, 4 for an internal one. *)
Theorem events_drawn_in_figure_style d sl il xAxis yAxis :
  0 <= sl -> 0 <= il ->
  exists o, calc d sl il = Ok o /\
    draw [] (extendDataOf o) xAxis yAxis =
      (true, flat_map (figureLine xAxis yAxis) (outPivots o)) /\
    forall e, In e (outPivots o) ->
      exists f, figureOf (Line.key e) = Some f /\
        Figure.type f = line /\
        styleMap (Line.key e) <> None /\
        FigureStyle.size (Figure.styles f) =
          Some (match Line.level e with Swing => 2 | Internal => 1 end) /\
        FigureStyle.dashValue (Figure.styles f) =
          match Line.level e with Swing => None | Internal => Some [4; 4] end.
Proof.
  intros Hs Hi.
  destruct (calc_spec d sl il Hs Hi) as (o & E & _ & _ & A & P & _ & K).
  exists o. split; [assumption|].
  destruct (K (length d) (Nat.le_refl _)) as (st & Ek & R & F & _).
  unfold afterBars in A, Ek. rewrite A in Ek. injection Ek as <-.
  rewrite <- P in *. clear P. rewrite Forall_forall in F. split.
  - rewrite draw_ops. cbn [app recorded extendDataOf pivotsOf]. f_equal.
    generalize F. generalize (outPivots o).
    induction l as [|e l IH]; intros Fl; [reflexivity|].
    cbn [flat_map]. rewrite IH by (intros x Hx; apply Fl; now right).
    rewrite drawPivot_figure; [reflexivity|]. apply Fl. now left.
  - intros e IN.
    assert (levelOfKey (Line.key e) = Some (Line.level e)) as Ky.
    { destruct (R (Line.level e)) as (_ & Ev).
      pose proof (levelRun_keys (Line.level e) d (length d)
                    (levelStart (Line.level e) o)) as Kr.
      rewrite Forall_forall in Kr. apply Kr. rewrite <- Ev.
      apply eventsOf_In. now split. }
    destruct e as [key pi bi price lvl]. cbn [Line.key Line.level] in *.
    destruct key; try discriminate; injection Ky as <-;
      (eexists; split; [reflexivity|]); repeat split; discriminate.
Qed.

Lemma events_drawn_in_figure_style_witness :
  exists o, calc scenario 2 2 = Ok o /\
    draw [] (extendDataOf o) tenPerBar unitPrice =
      (true, flat_map (figureLine tenPerBar unitPrice) (outPivots o)) /\
    forall e, In e (outPivots o) ->
      exists f, figureOf (Line.key e) = Some f /\
        Figure.type f = line /\
        styleMap (Line.key e) <> None /\
        FigureStyle.size (Figure.styles f) =
          Some (match Line.level e with Swing => 2 | Internal => 1 end) /\
        FigureStyle.dashValue (Figure.styles f) =
          match Line.level e with Swing => None | Internal => Some [4; 4] end.
Proof.
  apply (events_drawn_in_figure_style scenario 2 2 tenPerBar unitPrice); lia.
Defined.

(** ** The symmetric-window detection of the earlier version *)

Lemma unbeatenBy_spec d beaten i lo count :
  unbeatenBy d beaten i lo count = true <->
  forall j, lo <= j < lo + Z.of_nat count -> j <> i ->
            beaten (barAt d j) = false.
Proof.
  unfold unbeatenBy. rewrite forallb_forall. split.
  - intros H j Hj N. specialize (H j (proj2 (zrange_In lo count j) Hj)).
    apply orb_prop in H. destruct H as [H|H]; [lia|].
    now apply negb_true_iff in H.
  - intros H j Hj. apply zrange_In in Hj.
    destruct (Z.eqb_spec j i); [reflexivity|]. cbn [orb].
    apply negb_true_iff. now apply H.
Qed.

Lemma found_In sel price k i v :
  In (Pivot.mk i v) (found sel price k) <->
  0 <= i < Z.of_nat k /\ sel i = true /\ v = price i.
Proof.
  unfold found. rewrite in_map_iff. split.
  - intros (j & [= <- <-] & IN). apply filter_In in IN.
    destruct IN as (IN & S). apply zrange_In in IN. repeat split; lia || auto.
  - intros (Hi & S & ->). exists i. split; [reflexivity|].
    apply filter_In. split; [apply zrange_In; lia|assumption].
Qed.

Lemma peak_spec d L i :
  peak d L i = true <->
  L <= i < len d - L /\
  forall j, i - L <= j <= i + L -> j <> i ->
            ge (high (barAt d j)) (high (barAt d i)) = false.
Proof.
  unfold peak, Symmetric.inRange. rewrite andb_true_iff, unbeatenBy_spec.
  rewrite andb_true_iff, Z.leb_le, Z.ltb_lt. split.
  - intros (R & U). split; [assumption|]. intros j Hj N. apply U; lia.
  - intros (R & U). split; [assumption|]. intros j Hj N. apply U; lia.
Qed.

Lemma trough_spec d L i :
  trough d L i = true <->
  L <= i < len d - L /\
  forall j, i - L <= j <= i + L -> j <> i ->
            le (low (barAt d j)) (low (barAt d i)) = false.
Proof.
  unfold trough, Symmetric.inRange. rewrite andb_true_iff, unbeatenBy_spec.
  rewrite andb_true_iff, Z.leb_le, Z.ltb_lt. split.
  - intros (R & U). split; [assumption|]. intros j Hj N. apply U; lia.
  - intros (R & U). split; [assumption|]. intros j Hj N. apply U; lia.
Qed.

(** X11.  The pivot loop of the earlier version returns for every bar list
    and every pair of lookback lengths, and finds exactly the strict window
    extremes: bar [i] is a pivot-high of a level of lookback [L], with its
    high as price, exactly when [L <= i < n - L] and no other bar of
    [i - L .. i + L] has a high [>=] its high; it is a pivot-low, with its
    low as price, exactly when no other bar of the window has a low [<=] its
    low. *)
Theorem symmetric_pivots_are_window_extremes d sl il :
  exists s, Symmetric.detectPivots d sl il = Ok s /\
    forall lvl i v,
      let L := lengthOf lvl sl il in
      (In (Pivot.mk i v) (symHighs lvl s) <->
       0 <= i < len d /\ L <= i < len d - L /\ v = high (barAt d i) /\
       forall j, i - L <= j <= i + L -> j <> i ->
                 ge (high (barAt d j)) v = false) /\
      (In (Pivot.mk i v) (symLows lvl s) <->
       0 <= i < len d /\ L <= i < len d - L /\ v = low (barAt d i) /\
       forall j, i - L <= j <= i + L -> j <> i ->
                 le (low (barAt d j)) v = false).
Proof.
  destruct (symmetric_detect d sl il) as (s & E & F).
  exists s. split; [assumption|]. intros lvl i v L.
  destruct (F lvl) as (-> & ->). fold L. rewrite !found_In.
  rewrite peak_spec, trough_spec. unfold len.
  split; split.
  - intros (Hi & (R & U) & ->). auto.
  - intros (Hi & R & -> & U). auto.
  - intros (Hi & (R & U) & ->). auto.
  - intros (Hi & R & -> & U). auto.
Qed.

Lemma ge_total a b : a <> NaN -> b <> NaN -> ge a b = true \/ ge b a = true.
Proof.
  destruct a, b; simpl; intros Ha Hb; try congruence; auto.
  destruct (Z.ltb_spec z0 z), (Z.ltb_spec z z0); simpl; auto; lia.
Qed.

Lemma comparableBars_at d j :
  comparableBars d -> 0 <= j < len d ->
  high (barAt d j) <> NaN /\ low (barAt d j) <> NaN.
Proof.
  intros F Hj. destruct (getZ_Some d j Hj) as (bar & G).
  unfold barAt. rewrite G. unfold comparableBars in F.
  rewrite Forall_forall in F. apply F.
  unfold getZ in G. destruct (j <? 0); [discriminate|].
  eapply nth_error_In; eauto.
Qed.

(** X12.  On bars whose highs and lows are numbers, two pivot-highs the
    earlier version finds at a level of lookback [L] are more than [L] bars
    apart, and so are two pivot-lows. *)
Theorem symmetric_pivots_are_spaced d sl il :
  comparableBars d ->
  exists s, Symmetric.detectPivots d sl il = Ok s /\
    forall lvl p q,
      Pivot.index p < Pivot.index q ->
      (In p (symHighs lvl s) -> In q (symHighs lvl s) ->
       lengthOf lvl sl il < Pivot.index q - Pivot.index p) /\
      (In p (symLows lvl s) -> In q (symLows lvl s) ->
       lengthOf lvl sl il < Pivot.index q - Pivot.index p).
Proof.
  intros C. destruct (symmetric_detect d sl il) as (s & E & F).
  exists s. split; [assumption|]. intros lvl [i v] [i' v'] Hlt.
  cbn [Pivot.index] in *. destruct (F lvl) as (-> & ->).
  rewrite !found_In. split.
  - intros (Hi & P & _) (Hi' & P' & _).
    apply peak_spec in P, P'. destruct P as (_ & U). destruct P' as (_ & U').
    destruct (Z_lt_le_dec (lengthOf lvl sl il) (i' - i)) as [|Near];
      [assumption|exfalso].
    specialize (U i'). specialize (U' i).
    destruct (comparableBars_at d i C) as (N & _); [unfold len; lia|].
    destruct (comparableBars_at d i' C) as (N' & _); [unfold len; lia|].
    destruct (ge_total _ _ N N') as [G|G]; [rewrite U' in G|rewrite U in G];
      discriminate || lia.
  - intros (Hi & P & _) (Hi' & P' & _).
    apply trough_spec in P, P'. destruct P as (_ & U). destruct P' as (_ & U').
    destruct (Z_lt_le_dec (lengthOf lvl sl il) (i' - i)) as [|Near];
      [assumption|exfalso].
    specialize (U i'). specialize (U' i).
    destruct (comparableBars_at d i C) as (_ & N); [unfold len; lia|].
    destruct (comparableBars_at d i' C) as (_ & N'); [unfold len; lia|].
    unfold le in U, U'.
    destruct (ge_total _ _ N N') as [G|G]; [rewrite U in G|rewrite U' in G];
      discriminate || lia.
Qed.

Lemma scenario_comparable : comparableBars scenario.
Proof. repeat constructor; discriminate. Qed.

Lemma symmetric_pivots_are_spaced_witness :
  exists s, Symmetric.detectPivots scenario 2 2 = Ok s /\
    forall lvl p q,
      Pivot.index p < Pivot.index q ->
      (In p (symHighs lvl s) -> In q (symHighs lvl s) ->
       lengthOf lvl 2 2 < Pivot.index q - Pivot.index p) /\
      (In p (symLows lvl s) -> In q (symLows lvl s) ->
       lengthOf lvl 2 2 < Pivot.index q - Pivot.index p).
Proof.
  apply (symmetric_pivots_are_spaced scenario 2 2). exact scenario_comparable.
Defined.

Lemma found_all sel price k :
  (forall i, 0 <= i < Z.of_nat k -> sel i = true) ->
  found sel price k = map (fun i => Pivot.mk i (price i)) (zrange 0 k).
Proof.
  intros H. unfold found. f_equal. apply filter_all.
  apply Forall_forall. intros i Hi. apply H. apply zrange_In in Hi. lia.
Qed.

(** X13.  With a lookback length [<= 0] the earlier version has no window to
    compare a bar with, and reports every bar as a pivot-high and as a
    pivot-low of the level, in the order of the bars. *)
Theorem symmetric_empty_window d sl il :
  exists s, Symmetric.detectPivots d sl il = Ok s /\
    forall lvl, lengthOf lvl sl il <= 0 ->
      symHighs lvl s = everyBar high d /\ symLows lvl s = everyBar low d.
Proof.
  destruct (symmetric_detect d sl il) as (s & E & F).
  exists s. split; [assumption|]. intros lvl HL.
  destruct (F lvl) as (-> & ->). unfold everyBar.
  split; apply found_all; intros i Hi.
  - apply peak_spec. split; [unfold len; lia|]. intros j Hj N. lia.
  - apply trough_spec. split; [unfold len; lia|]. intros j Hj N. lia.
Qed.

Lemma symmetric_empty_window_witness :
  exists s, Symmetric.detectPivots scenario 0 (-3) = Ok s /\
    symHighs Swing s = everyBar high scenario /\
    symLows Internal s = everyBar low scenario.
Proof.
  destruct (symmetric_empty_window scenario 0 (-3)) as (s & E & F).
  exists s. split; [exact E|]. split.
  - apply (F Swing). cbn. lia.
  - apply (F Internal). cbn. lia.
Defined.

(** X14.  A bar without a numeric high ([NaN]) that has a full window is
    always a pivot-high of the earlier version, since no comparison with
    [NaN] holds; likewise a bar without a numeric low is always a
    pivot-low. *)
Theorem symmetric_NaN_is_a_pivot d sl il lvl i :
  0 <= i < len d ->
  lengthOf lvl sl il <= i < len d - lengthOf lvl sl il ->
  exists s, Symmetric.detectPivots d sl il = Ok s /\
    (high (barAt d i) = NaN -> In (Pivot.mk i NaN) (symHighs lvl s)) /\
    (low (barAt d i) = NaN -> In (Pivot.mk i NaN) (symLows lvl s)).
Proof.
  intros Hi HL. destruct (symmetric_detect d sl il) as (s & E & F).
  exists s. split; [assumption|]. destruct (F lvl) as (-> & ->).
  rewrite !found_In. split; intros N.
  - split; [unfold len in *; lia|]. split; [|now rewrite N].
    apply peak_spec. split; [assumption|]. intros j _ _. rewrite N.
    now destruct (high (barAt d j)).
  - split; [unfold len in *; lia|]. split; [|now rewrite N].
    apply trough_spec. split; [assumption|]. intros j _ _. rewrite N.
    unfold le. now destruct (low (barAt d j)).
Qed.

Lemma symmetric_NaN_is_a_pivot_witness :
  exists s, Symmetric.detectPivots gapped 1 1 = Ok s /\
    In (Pivot.mk 1 NaN) (symHighs Swing s) /\
    In (Pivot.mk 1 NaN) (symLows Swing s).
Proof.
  destruct (symmetric_NaN_is_a_pivot gapped 1 1 Swing 1) as (s & E & H & L);
    [vm_compute; split; [discriminate|reflexivity]
    |vm_compute; split; [discriminate|reflexivity]|].
  exists s. split; [exact E|]. split; [apply H|apply L]; reflexivity.
Defined.

(** ** The break loop of the earlier version *)

(** Inside the array the plain loop of the earlier version writes what
    [fillRange] writes, and so does what [writeRange] does as far as [wrote]
    tells. *)
Lemma paint_spec lvl key pv i rs :
  0 <= Pivot.index pv -> i < len rs ->
  exists rs', Symmetric.paint key pv i rs = Ok rs' /\
    wrote (Line.mk key (Pivot.index pv) i (Pivot.price pv) lvl) rs rs'.
Proof.
  intros Hp Hi.
  destruct (fillRange_spec key (Pivot.index pv) i (Some (Pivot.price pv)) rs Hp)
    as (rs' & E & L & R).
  exists rs'. split.
  { unfold Symmetric.paint. unfold fillRange in E.
    now replace (Z.min i (len rs - 1) + 1) with (i + 1) in E by lia. }
  split; [assumption|]. cbn [Line.key Line.pivotIndex Line.breakIndex Line.price].
  intros m k. rewrite R. repeat split.
  - intros -> Hm Hl. rewrite Key_eqb_refl. cbn [andb].
    ztest; cbn [andb]; reflexivity || lia.
  - intros [N|Hm].
    + apply Key_eqb_neq in N. now rewrite N.
    + destruct (Key_eqb k key); cbn [andb]; [|reflexivity].
      ztest; cbn [andb]; reflexivity || lia.
  - intros Hm. left. destruct (Key_eqb k key); cbn [andb]; [|reflexivity].
    ztest; cbn [andb]; reflexivity || lia.
Qed.

Lemma symLevelState_setLevel lvl ls st :
  Symmetric.levelState lvl (Symmetric.setLevel lvl ls st) = ls.
Proof. now destruct lvl. Qed.

Lemma symLevelState_setLevel_other lvl lvl' ls st :
  lvl' <> lvl ->
  Symmetric.levelState lvl' (Symmetric.setLevel lvl ls st) =
  Symmetric.levelState lvl' st.
Proof. destruct lvl, lvl'; simpl; congruence. Qed.

Lemma symBullishCheck_paints lvl i c st :
  nonneg (liveHighs (Symmetric.levelState lvl st)) ->
  i < len (Symmetric.lines st) ->
  exists st', Symmetric.bullishCheck lvl i c st = Ok st' /\
              paints lvl (levelBull lvl i c) st st'.
Proof.
  intros NN Hi. unfold Symmetric.bullishCheck, paints, levelBull.
  destruct (findFirst _ _) as [[[pre pv] post]|] eqn:F.
  - apply findFirst_Some in F. destruct F as (E & _ & _).
    rewrite E in NN. apply nonneg_remove in NN. destruct NN as (_ & Hpv).
    destruct (paint_spec lvl
                (bullKey lvl (trend (Symmetric.levelState lvl st))) pv i
                (Symmetric.lines st) Hpv Hi) as (rs & E1 & W).
    rewrite E1. cbn [bind]. eexists. split; [reflexivity|]. cbn [fst snd].
    split; [apply symLevelState_setLevel|]. split.
    + intros lvl' N. rewrite symLevelState_setLevel_other by assumption.
      now destruct lvl'.
    + destruct lvl; simpl; (econstructor; [eassumption|constructor]).
  - exists st. split; [reflexivity|]. cbn [fst snd].
    repeat split; auto. constructor.
Qed.

Lemma symBearishCheck_paints lvl i c st :
  nonneg (liveLows (Symmetric.levelState lvl st)) ->
  i < len (Symmetric.lines st) ->
  exists st', Symmetric.bearishCheck lvl i c st = Ok st' /\
              paints lvl (levelBear lvl i c) st st'.
Proof.
  intros NN Hi. unfold Symmetric.bearishCheck, paints, levelBear.
  destruct (findFirst _ _) as [[[pre pv] post]|] eqn:F.
  - apply findFirst_Some in F. destruct F as (E & _ & _).
    rewrite E in NN. apply nonneg_remove in NN. destruct NN as (_ & Hpv).
    destruct (bearKey lvl (trend (Symmetric.levelState lvl st))) as [key|].
    + destruct (paint_spec lvl key pv i (Symmetric.lines st) Hpv Hi)
        as (rs & E1 & W).
      rewrite E1. cbn [bind]. eexists. split; [reflexivity|]. cbn [fst snd].
      split; [apply symLevelState_setLevel|]. split.
      * intros lvl' N. rewrite symLevelState_setLevel_other by assumption.
        now destruct lvl'.
      * destruct lvl; simpl; (econstructor; [eassumption|constructor]).
    + eexists. split; [reflexivity|]. cbn [fst snd].
      split; [apply symLevelState_setLevel|]. split.
      * intros lvl' N. now rewrite symLevelState_setLevel_other.
      * destruct lvl; simpl; constructor.
  - exists st. split; [reflexivity|]. cbn [fst snd].
    repeat split; auto. constructor.
Qed.

(** The two checks of a level, one after the other. *)
Lemma symLevelChecks_paints lvl i c st :
  liveOk (Symmetric.levelState lvl st) ->
  i < len (Symmetric.lines st) ->
  exists st2,
    (st1 <- Symmetric.bullishCheck lvl i c st ;;
     Symmetric.bearishCheck lvl i c st1) = Ok st2 /\
    paints lvl (levelStep lvl i c) st st2.
Proof.
  intros (H & L) Hi.
  destruct (symBullishCheck_paints lvl i c st H Hi) as (st1 & E1 & A1 & B1 & W1).
  assert (liveOk (Symmetric.levelState lvl st1)) as (H1 & L1).
  { rewrite A1. now apply levelBull_liveOk. }
  assert (i < len (Symmetric.lines st1)) as Hi1.
  { apply writes_length in W1. unfold len in *. lia. }
  destruct (symBearishCheck_paints lvl i c st1 L1 Hi1)
    as (st2 & E2 & A2 & B2 & W2).
  exists st2. rewrite E1. cbn [bind]. split; [assumption|].
  rewrite A1 in A2, W2.
  unfold paints, levelStep. cbn [fst snd]. repeat split.
  - assumption.
  - intros lvl' N. rewrite B2, B1 by assumption. reflexivity.
  - eapply writes_app; [exact W1|exact W2].
Qed.

(** One bar of the break loop of the earlier version. *)
Lemma symBreakBody_step d i st :
  0 <= i < len d -> i < len (Symmetric.lines st) ->
  liveOk (Symmetric.swing st) -> liveOk (Symmetric.internal st) ->
  let c := close (barAt d i) in
  exists st' new,
    Symmetric.breakBody d i st = Ok st' /\
    writes new (Symmetric.lines st) (Symmetric.lines st') /\
    (forall lvl,
        Symmetric.levelState lvl st' =
          fst (levelStep lvl i c (Symmetric.levelState lvl st)) /\
        eventsOf lvl new =
          snd (levelStep lvl i c (Symmetric.levelState lvl st))) /\
    Forall (fun e => Line.breakIndex e = i /\ 0 <= Line.pivotIndex e /\
                     isBreakKey (Line.key e) = true) new.
Proof.
  intros Hi Hl HS HI c. unfold Symmetric.breakBody.
  rewrite item_barAt by assumption. cbn [bind]. fold c.
  destruct (symLevelChecks_paints Swing i c st HS Hl) as (st2 & E2 & A2 & B2 & D2).
  assert (liveOk (Symmetric.levelState Internal st2)) as HI2.
  { rewrite B2 by discriminate. exact HI. }
  assert (i < len (Symmetric.lines st2)) as Hl2.
  { apply writes_length in D2. unfold len in *. lia. }
  destruct (symLevelChecks_paints Internal i c st2 HI2 Hl2)
    as (st4 & E4 & A4 & B4 & D4).
  rewrite (B2 Internal) in * by discriminate.
  set (sS := levelStep Swing i c (Symmetric.levelState Swing st)) in *.
  set (sI := levelStep Internal i c (Symmetric.levelState Internal st)) in *.
  exists st4, (snd sS ++ snd sI). split.
  { destruct (Symmetric.bullishCheck Swing i c st) as [st1|]; [|discriminate].
    cbn [bind] in *. rewrite E2. cbn [bind]. exact E4. }
  split; [eapply writes_app; eauto|].
  pose proof (levelStep_events Swing i c (Symmetric.levelState Swing st)) as FS.
  pose proof (levelStep_events Internal i c (Symmetric.levelState Internal st))
    as FI.
  fold sS in FS. fold sI in FI. split.
  - intros [|]; rewrite eventsOf_app.
    + rewrite (B4 Swing) by discriminate. split; [assumption|].
      rewrite (eventsOf_same _ _ _ FS), (eventsOf_other Swing Internal i) by
          (assumption || discriminate).
      apply app_nil_r.
    + split; [assumption|].
      rewrite (eventsOf_same _ _ _ FI), (eventsOf_other Internal Swing i) by
          (assumption || discriminate).
      reflexivity.
  - destruct (levelStep_liveOk Swing i c _ HS) as (_ & PS).
    destruct (levelStep_liveOk Internal i c _ HI) as (_ & PI).
    fold sS in PS. fold sI in PI.
    apply Forall_app. split.
    + rewrite Forall_forall in *. intros e He.
      destruct (FS e He) as (_ & ? & _ & ?). auto.
    + rewrite Forall_forall in *. intros e He.
      destruct (FI e He) as (_ & ? & _ & ?). auto.
Qed.

(** The break loop of the earlier version never throws on pivots of valid
    indices; every level runs its own [levelRun]; the break channels hold
    the last covering event of those the levels recorded. *)
Lemma symBreakLoop_run d st0 :
  liveOk (Symmetric.swing st0) -> liveOk (Symmetric.internal st0) ->
  length (Symmetric.lines st0) = length d ->
  (forall key m, isBreakKey key = true ->
                 readKey (Symmetric.lines st0) m key = None) ->
  exists st done,
    Symmetric.detectBreaks d st0 = Ok st /\
    length (Symmetric.lines st) = length d /\
    (forall lvl,
        eventsOf lvl done =
          snd (levelRun lvl d (length d) (Symmetric.levelState lvl st0))) /\
    Forall (fun e => isBreakKey (Line.key e) = true) done /\
    (forall key m, isBreakKey key = true ->
       readKey (Symmetric.lines st) m key = lastCovering key m done) /\
    (forall key m, isBreakKey key = false ->
       readKey (Symmetric.lines st) m key =
       readKey (Symmetric.lines st0) m key).
Proof.
  intros HS HI HL HR. unfold Symmetric.detectBreaks, forUpTo.
  destruct (forLoop_total
    (fun i st =>
       liveOk (Symmetric.swing st) /\ liveOk (Symmetric.internal st) /\
       length (Symmetric.lines st) = length d /\
       exists done,
         (forall lvl,
             Symmetric.levelState lvl st =
               fst (levelRun lvl d (Z.to_nat i) (Symmetric.levelState lvl st0)) /\
             eventsOf lvl done =
               snd (levelRun lvl d (Z.to_nat i) (Symmetric.levelState lvl st0))) /\
         Forall (fun e => 0 <= Line.pivotIndex e /\ Line.breakIndex e < i /\
                          isBreakKey (Line.key e) = true) done /\
         (forall key m, isBreakKey key = true ->
            readKey (Symmetric.lines st) m key = lastCovering key m done) /\
         (forall key m, isBreakKey key = false ->
            readKey (Symmetric.lines st) m key =
            readKey (Symmetric.lines st0) m key))
    0 (Z.to_nat (len d - 0)) (Symmetric.breakBody d) st0)
    as (st & E & _ & _ & L & done & R & F & C & M).
  - split; [assumption|]. split; [assumption|]. split; [assumption|].
    exists []. repeat split; auto; constructor.
  - intros i st Hi (S1 & I1 & L1 & done & R1 & F1 & C1 & M1).
    destruct (symBreakBody_step d i st) as (st' & new & E & W & A & N);
      try assumption; try (unfold len in *; lia).
    exists st'. split; [assumption|].
    pose proof (writes_length _ _ _ W) as L'.
    split.
    { destruct (A Swing) as (AS & _). cbn [Symmetric.levelState] in AS.
      rewrite AS. now apply levelStep_liveOk. }
    split.
    { destruct (A Internal) as (AI & _). cbn [Symmetric.levelState] in AI.
      rewrite AI. now apply levelStep_liveOk. }
    split; [congruence|].
    destruct (writes_channel i new _ _ W N) with (done := done) as (C' & M').
    { unfold len in *. lia. }
    { eapply Forall_impl; [|exact F1]. cbn. intros; lia. }
    { exact C1. }
    exists (done ++ new). split; [|split; [|split]].
    + intros lvl.
      replace (Z.to_nat (i + 1)) with (Datatypes.S (Z.to_nat i)) by lia.
      rewrite levelRun_S. cbn [fst snd]. rewrite eventsOf_app.
      destruct (A lvl) as (-> & ->). destruct (R1 lvl) as (<- & <-).
      unfold closeAt. now rewrite Z2Nat.id by lia.
    + apply Forall_app. split.
      * eapply Forall_impl; [|exact F1]. cbn. intros e (? & ? & ?).
        repeat split; auto; lia.
      * eapply Forall_impl; [|exact N]. cbn. intros e (? & ? & ?).
        repeat split; auto; lia.
    + exact C'.
    + intros key m K. rewrite M' by assumption. now apply M1.
  - exists st, done. split; [assumption|]. split; [assumption|].
    replace (Z.to_nat (0 + Z.of_nat (Z.to_nat (len d - 0)))) with (length d)
      in R by (unfold len; lia).
    split; [intros lvl; apply R|]. split; [|split; assumption].
    eapply Forall_impl; [|exact F]. cbn. tauto.
Qed.

(** The pivot loop of the earlier version keeps the length of [results] and
    writes markers only. *)
Lemma symDetect_results d sl il s :
  Symmetric.detectPivots d sl il = Ok s ->
  length (Symmetric.results s) = length d /\
  forall key m, isBreakKey key = true ->
                readKey (Symmetric.results s) m key = None.
Proof.
  unfold Symmetric.detectPivots, forUpTo. intros E.
  apply (forLoop_keeps
           (fun st => length (Symmetric.results st) = length d /\
                      forall key m, isBreakKey key = true ->
                        readKey (Symmetric.results st) m key = None))
    in E; [exact E| |].
  - clear E s. intros k a b E (La & Ra).
    assert (forall key v (x y : Symmetric.Scan) j,
              isMarker key = true ->
              setKey (Symmetric.results x) j key v = Ok (Symmetric.results y) ->
              (length (Symmetric.results x) = length d /\
               forall key m, isBreakKey key = true ->
                 readKey (Symmetric.results x) m key = None) ->
              length (Symmetric.results y) = length d /\
              forall key m, isBreakKey key = true ->
                readKey (Symmetric.results y) m key = None) as Mark.
    { intros key v x y j K Es (Lx & Rx). apply setKey_spec in Es.
      destruct Es as (Ly & _ & Ry). split; [congruence|].
      intros key' m K'. rewrite Ry.
      destruct (Key_eqb key' key) eqn:EK.
      - apply Key_eqb_eq in EK. subst key'. apply isBreakKey_marker in K'.
        congruence.
      - rewrite andb_false_r. now apply Rx. }
    assert (forall lvl L h x y,
              Symmetric.highBlock lvl d L k h x = Ok y ->
              (length (Symmetric.results x) = length d /\
               forall key m, isBreakKey key = true ->
                 readKey (Symmetric.results x) m key = None) ->
              length (Symmetric.results y) = length d /\
              forall key m, isBreakKey key = true ->
                readKey (Symmetric.results y) m key = None) as High.
    { intros lvl L h x y Eb Px. unfold Symmetric.highBlock in Eb.
      destruct (Symmetric.inRange d L k); [|now injection Eb as <-].
      apply bind_Ok in Eb. destruct Eb as ([|] & _ & Eb);
        [|now injection Eb as <-].
      destruct lvl; cbn [Symmetric.pushHigh] in Eb.
      - apply bind_Ok in Eb. destruct Eb as (r & Er & [= <-]).
        eapply (Mark swingHighMarker _ x); [reflexivity|exact Er|exact Px].
      - now injection Eb as <-. }
    assert (forall lvl L l x y,
              Symmetric.lowBlock lvl d L k l x = Ok y ->
              (length (Symmetric.results x) = length d /\
               forall key m, isBreakKey key = true ->
                 readKey (Symmetric.results x) m key = None) ->
              length (Symmetric.results y) = length d /\
              forall key m, isBreakKey key = true ->
                readKey (Symmetric.results y) m key = None) as Low.
    { intros lvl L l x y Eb Px. unfold Symmetric.lowBlock in Eb.
      destruct (Symmetric.inRange d L k); [|now injection Eb as <-].
      apply bind_Ok in Eb. destruct Eb as ([|] & _ & Eb);
        [|now injection Eb as <-].
      destruct lvl; cbn [Symmetric.pushLow] in Eb.
      - apply bind_Ok in Eb. destruct Eb as (r & Er & [= <-]).
        eapply (Mark swingLowMarker _ x); [reflexivity|exact Er|exact Px].
      - now injection Eb as <-. }
    unfold Symmetric.pivotBody in E.
    apply bind_Ok in E. destruct E as (bar & _ & E).
    apply bind_Ok in E. destruct E as (s1 & E1 & E).
    apply bind_Ok in E. destruct E as (s2 & E2 & E).
    apply bind_Ok in E. destruct E as (s3 & E3 & E).
    eapply Low; [exact E|]. eapply High; [exact E3|].
    eapply Low; [exact E2|]. eapply High; [exact E1|]. now split.
  - cbn [Symmetric.results]. split; [apply length_map|].
    intros key m _. apply readKey_empty.
Qed.

Lemma found_nonneg sel price k : nonneg (found sel price k).
Proof.
  unfold nonneg, found. apply Forall_forall. intros pv IN.
  apply in_map_iff in IN. destruct IN as (i & <- & IN).
  apply filter_In in IN. destruct IN as (IN & _). apply zrange_In in IN.
  cbn. lia.
Qed.

(** On a channel, only the events of the channel's level count. *)
Lemma lastCovering_level key lvl m evs :
  (forall e, In e evs -> levelOfKey (Line.key e) = Some (Line.level e)) ->
  levelOfKey key = Some lvl ->
  lastCovering key m evs = lastCovering key m (eventsOf lvl evs).
Proof.
  intros F K. induction evs as [|e evs IH]; [reflexivity|].
  assert (lastCovering key m evs = lastCovering key m (eventsOf lvl evs)) as IH'.
  { apply IH. intros x Hx. apply F. now right. }
  unfold eventsOf. cbn [filter lastCovering]. fold (eventsOf lvl evs).
  destruct (Level_eqb (Line.level e) lvl) eqn:El.
  - cbn [lastCovering]. now rewrite IH'.
  - rewrite IH'. destruct (lastCovering key m (eventsOf lvl evs));
      [reflexivity|].
    unfold covers. destruct (Key_eqb (Line.key e) key) eqn:EK; [|reflexivity].
    apply Key_eqb_eq in EK. specialize (F e (or_introl eq_refl)).
    rewrite EK, K in F. injection F as F. rewrite <- F in El.
    now destruct lvl.
Qed.

(** The events the levels recorded carry keys of their own level. *)
Lemma events_keys_by_level d k (ls : Level -> LevelState) evs :
  (forall lvl, eventsOf lvl evs = snd (levelRun lvl d k (ls lvl))) ->
  forall e, In e evs -> levelOfKey (Line.key e) = Some (Line.level e).
Proof.
  intros Ev e IN.
  pose proof (levelRun_keys (Line.level e) d k (ls (Line.level e))) as Kr.
  rewrite Forall_forall in Kr. apply Kr. rewrite <- Ev.
  apply eventsOf_In. now split.
Qed.

(** The earlier version's [calc] never throws, and its break channels are
    those of the events its levels record. *)
Lemma earlier_calc_channels d sl il :
  exists s rs,
    Symmetric.detectPivots d sl il = Ok s /\
    Symmetric.calc d sl il = Ok rs /\
    length rs = length d /\
    (forall key lvl m,
        levelOfKey key = Some lvl ->
        readKey rs m key =
        lastCovering key m (breaksOf lvl d (symHighs lvl s) (symLows lvl s))) /\
    forall key m, isBreakKey key = false ->
                  readKey rs m key = readKey (Symmetric.results s) m key.
Proof.
  destruct (symmetric_detect d sl il) as (s & E & F).
  destruct (symDetect_results d sl il s E) as (Ls & Rs).
  exists s. unfold Symmetric.calc. rewrite E. cbn [bind].
  set (st0 := Symmetric.mkBreak _ _ _).
  destruct (symBreakLoop_run d st0) as (st & done & Eb & L & Ev & _ & C & M).
  - destruct (F Swing) as (FH & FL). cbn [symHighs symLows] in FH, FL.
    unfold st0. cbn [Symmetric.swing]. split; cbn [liveHighs liveLows].
    + rewrite FH. apply found_nonneg.
    + rewrite FL. apply found_nonneg.
  - destruct (F Internal) as (FH & FL). cbn [symHighs symLows] in FH, FL.
    unfold st0. cbn [Symmetric.internal]. split; cbn [liveHighs liveLows].
    + rewrite FH. apply found_nonneg.
    + rewrite FL. apply found_nonneg.
  - exact Ls.
  - exact Rs.
  - rewrite Eb. cbn [bind]. exists (Symmetric.lines st).
    split; [reflexivity|]. split; [reflexivity|]. split; [assumption|].
    split; [|exact M].
    intros key lvl m K.
    assert (isBreakKey key = true) as Bk by (destruct key; now try discriminate).
    rewrite (C key m Bk).
    rewrite (lastCovering_level key lvl m done); [|
      exact (events_keys_by_level d (length d)
               (fun l => Symmetric.levelState l st0) done Ev)|assumption].
    rewrite Ev. unfold breaksOf. now destruct lvl.
Qed.


(** X15.  The earlier version's [calc], which draws a break line by plain
    assignment, returns for every bar list and every pair of lookback
    lengths, negative ones included, with one entry per bar; its levels run
    the same checks as the later version's, on the pivots of the symmetric
    detection; and every break channel holds, at every index, the price of
    the last event of the channel's level whose range [pivotIndex ..
    breakIndex] covers the index, and nothing where none does. *)
Theorem earlier_calc_draws_the_last_break d sl il :
  exists s rs,
    Symmetric.detectPivots d sl il = Ok s /\
    Symmetric.calc d sl il = Ok rs /\
    length rs = length d /\
    forall key lvl m,
      levelOfKey key = Some lvl ->
      readKey rs m key =
      lastCovering key m (breaksOf lvl d (symHighs lvl s) (symLows lvl s)).
Proof.
  destruct (earlier_calc_channels d sl il) as (s & rs & Es & Er & L & C & _).
  exists s, rs. repeat split; assumption.
Qed.

(** The later version's break channels, by level. *)
Lemma calc_channels_by_level d sl il o :
  0 <= sl -> 0 <= il -> calc d sl il = Ok o ->
  forall key lvl m,
    levelOfKey key = Some lvl ->
    readKey (outResults o) m key =
    lastCovering key m (breaksOf lvl d (highsOf lvl o) (lowsOf lvl o)).
Proof.
  intros Hs Hi E key lvl m K.
  destruct (calc_spec d sl il Hs Hi) as (o' & E' & _ & _ & A & P & R & Kk).
  rewrite E in E'. injection E' as <-.
  destruct (Kk (length d) (Nat.le_refl _)) as (st & Ek & Ev & _ & C).
  unfold afterBars in A, Ek. rewrite A in Ek. injection Ek as <-.
  assert (isBreakKey key = true) as Bk by (destruct key; now try discriminate).
  rewrite R, (C key m Bk).
  rewrite (lastCovering_level key lvl m (pivots (finalState o))); [|
    exact (events_keys_by_level d (length d) (fun l => levelStart l o) _
             (fun l => proj2 (Ev l)))|assumption].
  destruct (Ev lvl) as (_ & ->). reflexivity.
Qed.

(** X16.  The two versions differ in how they find pivots and in how they
    write a line, not in what the lines are: when the symmetric detection
    and the offset scan find the same pivot-highs and pivot-lows at both
    levels, the array of the earlier version and the array of the later one
    agree on every break channel at every index. *)
Theorem versions_agree_on_equal_pivots d sl il sl' il' o s rs :
  calc d sl il = Ok o ->
  Symmetric.detectPivots d sl' il' = Ok s ->
  Symmetric.calc d sl' il' = Ok rs ->
  (forall lvl, symHighs lvl s = highsOf lvl o /\
               symLows lvl s = lowsOf lvl o) ->
  forall key m, isBreakKey key = true ->
                readKey rs m key = readKey (outResults o) m key.
Proof.
  intros E Es Er Same key m Bk.
  assert (0 <= sl /\ 0 <= il) as (Hs & Hi).
  { destruct (Z_lt_le_dec sl 0); [rewrite calc_throws in E by auto; discriminate|].
    destruct (Z_lt_le_dec il 0); [rewrite calc_throws in E by auto; discriminate|].
    now split. }
  destruct (earlier_calc_channels d sl' il')
    as (s' & rs' & Es' & Er' & _ & C & _).
  rewrite Es in Es'. injection Es' as <-.
  rewrite Er in Er'. injection Er' as <-.
  destruct (levelOfKey key) as [lvl|] eqn:K; [|destruct key; discriminate].
  rewrite (C key lvl m K).
  rewrite (calc_channels_by_level d sl il o Hs Hi E key lvl m K).
  now destruct (Same lvl) as (-> & ->).
Qed.

Lemma versions_agree_on_equal_pivots_witness :
  exists o s rs,
    calc oneTop 1 1 = Ok o /\
    Symmetric.detectPivots oneTop 1 1 = Ok s /\
    Symmetric.calc oneTop 1 1 = Ok rs /\
    (forall lvl, symHighs lvl s = highsOf lvl o /\
                 symLows lvl s = lowsOf lvl o) /\
    forall key m, isBreakKey key = true ->
                  readKey rs m key = readKey (outResults o) m key.
Proof.
  destruct (calc oneTop 1 1) as [o|] eqn:E; [|vm_compute in E; discriminate].
  destruct (Symmetric.detectPivots oneTop 1 1) as [s|] eqn:Es;
    [|vm_compute in Es; discriminate].
  destruct (Symmetric.calc oneTop 1 1) as [rs|] eqn:Er;
    [|vm_compute in Er; discriminate].
  assert (forall lvl, symHighs lvl s = highsOf lvl o /\
                      symLows lvl s = lowsOf lvl o) as Same.
  { pose proof E as E0. pose proof Es as Es0.
    vm_compute in E0, Es0. injection E0 as <-. injection Es0 as <-.
    intros [|]; split; reflexivity. }
  exists o, s, rs. split; [reflexivity|]. split; [reflexivity|].
  split; [reflexivity|]. split; [exact Same|].
  exact (versions_agree_on_equal_pivots oneTop 1 1 1 1 o s rs E Es Er Same).
Defined.

(** ** A lookback of zero *)

(** With an empty forward window every bar of finite high is a Top
    candidate, so that the register goes to Top at bar 0 and stays there. *)
Lemma scanTrace_zero d k :
  finiteBars d -> (k < length d)%nat ->
  scanTrace d 0 (Datatypes.S k) =
  (Some Top, [Pivot.mk 0 (high (barAt d 0))], []).
Proof.
  intros F. induction k as [|k IH]; intros Hk.
  - cbn [scanTrace]. change (Z.of_nat 0) with 0.
    unfold stateAt, extrema.
    replace (Z.to_nat (0 + 0 + 1 - (0 + 1))) with O by lia.
    cbn [zrange fold_left fst snd]. unfold nextOs, emitHigh, emitLow.
    destruct (finiteBars_at d 0 F) as (Hh & _); [unfold len; lia|].
    rewrite Hh. reflexivity.
  - rewrite scanTrace_S, IH by lia.
    unfold traceOs, traceHighs, traceLows. cbn [fst snd].
    unfold stateAt, extrema.
    replace (Z.to_nat (Z.of_nat (Datatypes.S k) + 0 + 1 -
                       (Z.of_nat (Datatypes.S k) + 1))) with O by lia.
    cbn [zrange fold_left fst snd]. unfold nextOs, emitHigh, emitLow.
    destruct (finiteBars_at d (Z.of_nat (Datatypes.S k)) F) as (Hh & _);
      [unfold len; lia|].
    rewrite Hh. reflexivity.
Qed.

(** X17.  With a lookback of 0 and bars of finite highs and lows, the offset
    scan of the level finds one pivot only, the high of bar 0: every bar
    beats its empty forward window, and the register never leaves Top. *)
Theorem zero_lookback_marks_first_bar d sl il lvl :
  0 <= sl -> 0 <= il -> lengthOf lvl sl il = 0 -> finiteBars d ->
  exists o, calc d sl il = Ok o /\
    highsOf lvl o =
      match d with
      | [] => []
      | bar :: _ => [Pivot.mk 0 (high bar)]
      end /\
    lowsOf lvl o = [].
Proof.
  intros Hs Hi HL F.
  destruct (calc_spec d sl il Hs Hi) as (o & E & T & _).
  exists o. split; [assumption|]. destruct (T lvl) as (-> & ->).
  rewrite HL. unfold evaluations. rewrite Z.sub_0_r.
  unfold len. rewrite Nat2Z.id.
  destruct d as [|bar d']; [now split|].
  cbn [length]. rewrite scanTrace_zero; [now split|assumption|simpl; lia].
Qed.

Lemma zero_lookback_marks_first_bar_witness :
  exists o, calc scenario 0 2 = Ok o /\
    highsOf Swing o = [Pivot.mk 0 (Fin 1)] /\ lowsOf Swing o = [].
Proof.
  apply (zero_lookback_marks_first_bar scenario 0 2 Swing);
    [lia|lia|reflexivity|exact scenario_finite].
Defined.

(** ** Pivots that are never broken *)

Lemma inPushOrder_before pre x post pv :
  inPushOrder (pre ++ x :: post) -> In pv post ->
  Pivot.index x < Pivot.index pv.
Proof.
  intros O IN. apply inPushOrder_app in O. destruct O as (_ & (F & _) & _).
  rewrite Forall_forall in F. now apply F.
Qed.

Lemma inPushOrder_absent pre x post :
  inPushOrder (pre ++ x :: post) -> ~ In x (pre ++ post).
Proof.
  intros O IN. pose proof O as O'.
  apply inPushOrder_app in O. destruct O as (_ & (F & _) & P).
  rewrite Forall_forall in F, P.
  apply in_app_or in IN. destruct IN as [IN|IN].
  - specialize (P x IN). rewrite Forall_forall in P.
    specialize (P x (or_introl eq_refl)). lia.
  - specialize (F x IN). lia.
Qed.

(** A live pivot-high that a bar crosses and that stays live has yielded to
    an older one. *)
Lemma levelBull_yields lvl i c ls pv :
  inPushOrder (liveHighs ls) -> In pv (liveHighs ls) ->
  breaksHigh i c pv = true ->
  In pv (liveHighs (fst (levelBull lvl i c ls))) ->
  exists e, In e (snd (levelBull lvl i c ls)) /\
            isBull (Line.key e) = true /\ Line.breakIndex e = i /\
            Line.pivotIndex e < Pivot.index pv.
Proof.
  intros O IN T Still. unfold levelBull in *.
  destruct (findFirst _ _) as [[[pre x] post]|] eqn:F.
  - apply findFirst_Some in F. destruct F as (E & Tx & Fp).
    cbn [fst snd liveHighs] in *. rewrite E in O, IN.
    apply in_app_or in IN. destruct IN as [IN|[<-|IN]].
    + rewrite Forall_forall in Fp. rewrite (Fp pv IN) in T. discriminate.
    + now apply inPushOrder_absent in O.
    + eexists. split; [now left|]. cbn. split; [apply bullKey_break|].
      split; [reflexivity|]. eapply inPushOrder_before; eauto.
  - apply findFirst_None in F. rewrite Forall_forall in F.
    rewrite (F pv IN) in T. discriminate.
Qed.

Lemma levelBear_yields lvl i c ls pv :
  inPushOrder (liveLows ls) -> In pv (liveLows ls) ->
  breaksLow i c pv = true ->
  In pv (liveLows (fst (levelBear lvl i c ls))) ->
  exists e, In e (snd (levelBear lvl i c ls)) /\
            isBull (Line.key e) = false /\ Line.breakIndex e = i /\
            Line.pivotIndex e < Pivot.index pv.
Proof.
  intros O IN T Still. unfold levelBear in *.
  destruct (findFirst _ _) as [[[pre x] post]|] eqn:F.
  - apply findFirst_Some in F. destruct F as (E & Tx & Fp).
    destruct (bearKey_total lvl (trend ls)) as (key & K). rewrite K in *.
    cbn [fst snd liveLows] in *. rewrite E in O, IN.
    apply in_app_or in IN. destruct IN as [IN|[<-|IN]].
    + rewrite Forall_forall in Fp. rewrite (Fp pv IN) in T. discriminate.
    + now apply inPushOrder_absent in O.
    + eexists. split; [now left|]. cbn.
      split; [eapply bearKey_break; eauto|].
      split; [reflexivity|]. eapply inPushOrder_before; eauto.
  - apply findFirst_None in F. rewrite Forall_forall in F.
    rewrite (F pv IN) in T. discriminate.
Qed.

(** The live lists only lose pivots. *)
Lemma levelStep_live lvl i c ls :
  incl (liveHighs (fst (levelStep lvl i c ls))) (liveHighs ls) /\
  incl (liveLows (fst (levelStep lvl i c ls))) (liveLows ls).
Proof.
  unfold levelStep. cbn [fst].
  destruct (levelBull_fifo lvl i c ls) as (FB & LB).
  destruct (levelBear_fifo lvl i c (fst (levelBull lvl i c ls))) as (FR & HR).
  rewrite HR. rewrite LB in FR. split.
  - destruct FB as [(_ & -> & _)|(pre & x & post & key & -> & _ & _ & -> & _)];
      [apply incl_refl|].
    intros y Hy. apply in_app_or in Hy. apply in_or_app.
    destruct Hy; [now left|right; now right].
  - destruct FR as [(_ & -> & _)|(pre & x & post & key & -> & _ & _ & -> & _)];
      [apply incl_refl|].
    intros y Hy. apply in_app_or in Hy. apply in_or_app.
    destruct Hy; [now left|right; now right].
Qed.

Lemma levelRun_live lvl d k1 k2 ls0 :
  (k1 <= k2)%nat ->
  incl (liveHighs (fst (levelRun lvl d k2 ls0)))
       (liveHighs (fst (levelRun lvl d k1 ls0))) /\
  incl (liveLows (fst (levelRun lvl d k2 ls0)))
       (liveLows (fst (levelRun lvl d k1 ls0))).
Proof.
  induction 1 as [|k2 Hle (IH & IL)]; [split; apply incl_refl|].
  rewrite levelRun_S. cbn [fst].
  destruct (levelStep_live lvl (Z.of_nat k2) (closeAt d (Z.of_nat k2))
              (fst (levelRun lvl d k2 ls0))) as (SH & SL).
  split; eapply incl_tran; eauto.
Qed.

(** In a run over [n] bars, a pivot that is live at the end and that bar
    [k < n] crosses has yielded that bar to an older pivot. *)
Lemma levelRun_yields lvl d n k ls0 :
  (k < n)%nat ->
  inPushOrder (liveHighs ls0) -> inPushOrder (liveLows ls0) ->
  let i := Z.of_nat k in
  (forall pv, In pv (liveHighs (fst (levelRun lvl d n ls0))) ->
     breaksHigh i (closeAt d i) pv = true ->
     exists e, In e (snd (levelRun lvl d n ls0)) /\
               isBull (Line.key e) = true /\ Line.breakIndex e = i /\
               Line.pivotIndex e < Pivot.index pv) /\
  (forall pv, In pv (liveLows (fst (levelRun lvl d n ls0))) ->
     breaksLow i (closeAt d i) pv = true ->
     exists e, In e (snd (levelRun lvl d n ls0)) /\
               isBull (Line.key e) = false /\ Line.breakIndex e = i /\
               Line.pivotIndex e < Pivot.index pv).
Proof.
  intros Hk OH OL i.
  destruct (levelRun_inPushOrder lvl d k ls0 OH OL) as (PH & PL).
  destruct (levelRun_live lvl d (Datatypes.S k) n ls0) as (IH & IL); [lia|].
  destruct (levelRun_live lvl d k (Datatypes.S k) ls0) as (JH & JL); [lia|].
  destruct (levelRun_le lvl d (Datatypes.S k) n ls0) as (later & El & _);
    [lia|].
  rewrite El. rewrite levelRun_S in *. cbn [fst snd] in *.
  fold i in IH, IL, JH, JL |- *.
  set (ls := fst (levelRun lvl d k ls0)) in *.
  set (c := closeAt d i) in *.
  unfold levelStep in *. cbn [fst snd] in *.
  destruct (levelBull_fifo lvl i c ls) as (_ & LB).
  destruct (levelBear_fifo lvl i c (fst (levelBull lvl i c ls))) as (_ & HR).
  split; intros pv Live T.
  - destruct (levelBull_yields lvl i c ls pv PH) as (e & IN & K);
      [apply JH, IH, Live|assumption| |].
    { rewrite <- HR. apply IH, Live. }
    exists e. split; [|exact K]. apply in_or_app. left.
    apply in_or_app. right. apply in_or_app. now left.
  - destruct (levelBear_yields lvl i c (fst (levelBull lvl i c ls)) pv)
      as (e & IN & K).
    + rewrite LB. exact PL.
    + rewrite LB. apply JL, IL, Live.
    + assumption.
    + apply IL, Live.
    + exists e. split; [|exact K]. apply in_or_app. left.
      apply in_or_app. right. apply in_or_app. now right.
Qed.

(** X18.  For lookback lengths [>= 0], a pivot that is still live when
    [calc] returns was passed over only in favour of older pivots: at every
    later bar whose close is strictly above the price of a live pivot-high,
    the level recorded a bullish event on a pivot-high of smaller index; at
    every later bar whose close is strictly below the price of a live
    pivot-low, it recorded a bearish event on a pivot-low of smaller
    index. *)
Theorem unbroken_pivots_yielded_to_older_ones d sl il :
  0 <= sl -> 0 <= il ->
  exists o, calc d sl il = Ok o /\
    forall lvl i, 0 <= i < len d ->
      (forall pv, In pv (liveHighs (levelState lvl (finalState o))) ->
         Pivot.index pv < i -> gt (closeAt d i) (Pivot.price pv) = true ->
         exists e, In e (outPivots o) /\ Line.level e = lvl /\
                   isBull (Line.key e) = true /\ Line.breakIndex e = i /\
                   Line.pivotIndex e < Pivot.index pv) /\
      (forall pv, In pv (liveLows (levelState lvl (finalState o))) ->
         Pivot.index pv < i -> lt (closeAt d i) (Pivot.price pv) = true ->
         exists e, In e (outPivots o) /\ Line.level e = lvl /\
                   isBull (Line.key e) = false /\ Line.breakIndex e = i /\
                   Line.pivotIndex e < Pivot.index pv).
Proof.
  intros Hs Hi.
  destruct (calc_spec d sl il Hs Hi) as (o & E & T & _ & A & P & _ & K).
  exists o. split; [assumption|]. intros lvl i Hr.
  destruct (K (length d) (Nat.le_refl _)) as (st & Ek & R & _).
  unfold afterBars in A, Ek. rewrite A in Ek. injection Ek as <-.
  destruct (R lvl) as (RS & RE). rewrite RS.
  assert (inPushOrder (liveHighs (levelStart lvl o)) /\
          inPushOrder (liveLows (levelStart lvl o))) as (OH & OL).
  { unfold levelStart. cbn [liveHighs liveLows].
    destruct (T lvl) as (-> & ->). apply scanTrace_inPushOrder. }
  destruct (levelRun_yields lvl d (length d) (Z.to_nat i) (levelStart lvl o))
    as (YH & YL); [unfold len in Hr; lia|assumption|assumption|].
  rewrite Z2Nat.id in YH, YL by lia.
  split; intros pv Live Hlt Cross.
  - destruct (YH pv Live) as (e & IN & K1 & K2 & K3).
    { unfold breaksHigh. rewrite Cross. replace (_ <? _) with true by lia.
      reflexivity. }
    rewrite <- RE, <- P in IN. apply eventsOf_In in IN. exists e. tauto.
  - destruct (YL pv Live) as (e & IN & K1 & K2 & K3).
    { unfold breaksLow. rewrite Cross. replace (_ <? _) with true by lia.
      reflexivity. }
    rewrite <- RE, <- P in IN. apply eventsOf_In in IN. exists e. tauto.
Qed.

Lemma unbroken_pivots_yielded_to_older_ones_witness :
  exists o, calc stairs 1 1 = Ok o /\
    forall lvl i, 0 <= i < len stairs ->
      (forall pv, In pv (liveHighs (levelState lvl (finalState o))) ->
         Pivot.index pv < i ->
         gt (closeAt stairs i) (Pivot.price pv) = true ->
         exists e, In e (outPivots o) /\ Line.level e = lvl /\
                   isBull (Line.key e) = true /\ Line.breakIndex e = i /\
                   Line.pivotIndex e < Pivot.index pv) /\
      (forall pv, In pv (liveLows (levelState lvl (finalState o))) ->
         Pivot.index pv < i ->
         lt (closeAt stairs i) (Pivot.price pv) = true ->
         exists e, In e (outPivots o) /\ Line.level e = lvl /\
                   isBull (Line.key e) = false /\ Line.breakIndex e = i /\
                   Line.pivotIndex e < Pivot.index pv).
Proof. apply (unbroken_pivots_yielded_to_older_ones stairs 1 1); lia. Defined.

(** ** Prices on another scale *)

Section Rescale.
Variable f : num -> num.
Hypothesis Hf : orderPreserving f.

Lemma rescale_gt a b : gt (f a) (f b) = gt a b.
Proof. apply Hf. Qed.

Lemma rescale_lt a b : lt (f a) (f b) = lt a b.
Proof. unfold lt. apply Hf. Qed.

Lemma rescale_NaN : f NaN = NaN.
Proof.
  destruct Hf as (G & _ & P).
  pose proof (G PosInf NaN) as H1. pose proof (G NaN NegInf) as H2.
  rewrite P in H1. destruct Hf as (_ & N & _). rewrite N in H2.
  destruct (f NaN); simpl in *; congruence.
Qed.

Lemma barAt_rescale d j : barAt (map (rescale f) d) j = rescale f (barAt d j).
Proof.
  unfold barAt, getZ. destruct (j <? 0).
  - unfold rescale. cbn. now rewrite rescale_NaN.
  - rewrite nth_error_map. destruct (nth_error d (Z.to_nat j)); [reflexivity|].
    unfold rescale. cbn. now rewrite rescale_NaN.
Qed.

Lemma windowStep_rescale bar a b :
  windowStep (rescale f bar) (f a, f b) =
  (f (fst (windowStep bar (a, b))), f (snd (windowStep bar (a, b)))).
Proof.
  unfold windowStep, Number. cbn [fst snd rescale high low].
  rewrite rescale_gt, rescale_lt.
  now destruct (gt (high bar) a), (lt (low bar) b).
Qed.

Lemma window_fold_rescale d ws a b :
  fold_left (fun acc j => windowStep (barAt (map (rescale f) d) j) acc) ws
    (f a, f b) =
  (f (fst (fold_left (fun acc j => windowStep (barAt d j) acc) ws (a, b))),
   f (snd (fold_left (fun acc j => windowStep (barAt d j) acc) ws (a, b)))).
Proof.
  revert a b. induction ws as [|j ws IH]; intros a b; [reflexivity|].
  cbn [fold_left]. rewrite barAt_rescale, windowStep_rescale.
  rewrite IH. now destruct (windowStep (barAt d j) (a, b)).
Qed.

Lemma extrema_rescale d p i :
  extrema (map (rescale f) d) p i =
  (f (fst (extrema d p i)), f (snd (extrema d p i))).
Proof.
  unfold extrema. rewrite <- window_fold_rescale.
  destruct Hf as (_ & -> & ->). reflexivity.
Qed.

Lemma stateAt_rescale d L prev p :
  stateAt (map (rescale f) d) L prev p = stateAt d L prev p.
Proof.
  unfold stateAt, nextOs. rewrite extrema_rescale, barAt_rescale.
  cbn [fst snd rescale high low]. now rewrite rescale_gt, rescale_lt.
Qed.

Lemma scanTrace_rescale d L k :
  scanTrace (map (rescale f) d) L k =
  (traceOs (scanTrace d L k),
   map (rescalePivot f) (traceHighs (scanTrace d L k)),
   map (rescalePivot f) (traceLows (scanTrace d L k))).
Proof.
  induction k as [|k IH]; [reflexivity|].
  rewrite !scanTrace_S, IH. unfold traceOs, traceHighs, traceLows.
  cbn [fst snd]. rewrite stateAt_rescale, barAt_rescale, !map_app.
  f_equal; [f_equal|]; f_equal; unfold emitHigh, emitLow;
    match goal with |- context [if ?b then _ else _] => destruct b end;
    reflexivity.
Qed.

Lemma findFirst_map {A B : Type} (g : A -> B) (t : B -> bool) xs :
  findFirst t (map g xs) =
  match findFirst (fun x => t (g x)) xs with
  | Some (pre, x, post) => Some (map g pre, g x, map g post)
  | None => None
  end.
Proof.
  induction xs as [|x xs IH]; [reflexivity|]. cbn [map findFirst].
  destruct (t (g x)); [reflexivity|]. rewrite IH.
  now destruct (findFirst (fun x => t (g x)) xs) as [[[pre y] post]|].
Qed.

Lemma breaksHigh_rescale i c pv :
  breaksHigh i (f c) (rescalePivot f pv) = breaksHigh i c pv.
Proof. unfold breaksHigh. cbn. now rewrite rescale_gt. Qed.

Lemma breaksLow_rescale i c pv :
  breaksLow i (f c) (rescalePivot f pv) = breaksLow i c pv.
Proof. unfold breaksLow. cbn. now rewrite rescale_lt. Qed.

Lemma findFirst_ext {A : Type} (t t' : A -> bool) xs :
  (forall x, t x = t' x) -> findFirst t xs = findFirst t' xs.
Proof.
  intros H. induction xs as [|x xs IH]; [reflexivity|]. cbn [findFirst].
  now rewrite H, IH.
Qed.

Lemma levelBull_rescale lvl i c ls :
  levelBull lvl i (f c) (rescaleLevel f ls) =
  (rescaleLevel f (fst (levelBull lvl i c ls)),
   map (rescaleLine f) (snd (levelBull lvl i c ls))).
Proof.
  unfold levelBull, rescaleLevel. cbn [liveHighs liveLows trend].
  rewrite findFirst_map.
  rewrite (findFirst_ext _ (breaksHigh i c)) by apply breaksHigh_rescale.
  destruct (findFirst (breaksHigh i c) (liveHighs ls)) as [[[pre x] post]|];
    [|reflexivity].
  cbn [fst snd liveHighs liveLows trend map]. now rewrite map_app.
Qed.

Lemma levelBear_rescale lvl i c ls :
  levelBear lvl i (f c) (rescaleLevel f ls) =
  (rescaleLevel f (fst (levelBear lvl i c ls)),
   map (rescaleLine f) (snd (levelBear lvl i c ls))).
Proof.
  unfold levelBear, rescaleLevel. cbn [liveHighs liveLows trend].
  rewrite findFirst_map.
  rewrite (findFirst_ext _ (breaksLow i c)) by apply breaksLow_rescale.
  destruct (findFirst (breaksLow i c) (liveLows ls)) as [[[pre x] post]|];
    [|reflexivity].
  destruct (bearKey lvl (trend ls));
    cbn [fst snd liveHighs liveLows trend map]; now rewrite map_app.
Qed.

Lemma levelStep_rescale lvl i c ls :
  levelStep lvl i (f c) (rescaleLevel f ls) =
  (rescaleLevel f (fst (levelStep lvl i c ls)),
   map (rescaleLine f) (snd (levelStep lvl i c ls))).
Proof.
  unfold levelStep. rewrite levelBull_rescale. cbn [fst snd].
  rewrite levelBear_rescale. cbn [fst snd]. now rewrite map_app.
Qed.

Lemma levelRun_rescale lvl d k ls0 :
  levelRun lvl (map (rescale f) d) k (rescaleLevel f ls0) =
  (rescaleLevel f (fst (levelRun lvl d k ls0)),
   map (rescaleLine f) (snd (levelRun lvl d k ls0))).
Proof.
  induction k as [|k IH]; [reflexivity|].
  rewrite !levelRun_S, IH. cbn [fst snd].
  unfold closeAt. rewrite barAt_rescale. cbn [close rescale].
  rewrite levelStep_rescale. cbn [fst snd]. now rewrite map_app.
Qed.

Lemma lastCovering_rescale key m evs :
  lastCovering key m (map (rescaleLine f) evs) =
  option_map f (lastCovering key m evs).
Proof.
  induction evs as [|e evs IH]; [reflexivity|]. cbn [map lastCovering].
  rewrite IH. destruct (lastCovering key m evs); [reflexivity|].
  unfold covers. cbn. now destruct (_ && _).
Qed.

Lemma eventsOf_rescale lvl evs :
  eventsOf lvl (map (rescaleLine f) evs) =
  map (rescaleLine f) (eventsOf lvl evs).
Proof.
  unfold eventsOf. induction evs as [|e evs IH]; [reflexivity|].
  cbn [map filter rescaleLine Line.level].
  destruct (Level_eqb (Line.level e) lvl); cbn [map]; now rewrite IH.
Qed.

End Rescale.

(** A list in strict order of rank is determined by its elements. *)
Lemma ranked_unique (l1 l2 : list Line.t) :
  StronglySorted (fun a b => rank a < rank b) l1 ->
  StronglySorted (fun a b => rank a < rank b) l2 ->
  (forall x, In x l1 <-> In x l2) -> l1 = l2.
Proof.
  intros S1. revert l2. induction S1 as [|a t1 S1 IH F1]; intros l2 S2 Same.
  - destruct l2 as [|b t2]; [reflexivity|].
    destruct (proj2 (Same b) (or_introl eq_refl)).
  - destruct l2 as [|b t2];
      [destruct (proj1 (Same a) (or_introl eq_refl))|].
    inversion S2 as [|? ? S2' F2]; subst.
    rewrite Forall_forall in F1, F2.
    assert (a = b) as <-.
    { destruct (proj1 (Same a) (or_introl eq_refl)) as [E|Ia]; [now symmetry|].
      destruct (proj2 (Same b) (or_introl eq_refl)) as [E|Ib]; [assumption|].
      specialize (F1 b Ib). specialize (F2 a Ia). lia. }
    f_equal. apply IH; [assumption|]. intros x. split; intros Hx.
    + destruct (proj1 (Same x) (or_intror Hx)) as [<-|]; [|assumption].
      specialize (F1 a Hx). lia.
    + destruct (proj2 (Same x) (or_intror Hx)) as [<-|]; [|assumption].
      specialize (F2 a Hx). lia.
Qed.

Lemma ranked_map (g : Line.t -> Line.t) l :
  (forall e, rank (g e) = rank e) ->
  StronglySorted (fun a b => rank a < rank b) l ->
  StronglySorted (fun a b => rank a < rank b) (map g l).
Proof.
  intros G. induction 1 as [|a l S IH F]; cbn [map]; constructor;
    [assumption|].
  rewrite Forall_forall in *. intros y Hy. apply in_map_iff in Hy.
  destruct Hy as (x & <- & Hx). rewrite !G. now apply F.
Qed.

(** The events of a run, from those of its two levels. *)
Lemma events_of_levels d sl il o :
  0 <= sl -> 0 <= il -> calc d sl il = Ok o ->
  StronglySorted (fun a b => rank a < rank b) (outPivots o) /\
  forall lvl,
    highsOf lvl o =
      traceHighs (scanTrace d (lengthOf lvl sl il)
                    (evaluations d (lengthOf lvl sl il))) /\
    lowsOf lvl o =
      traceLows (scanTrace d (lengthOf lvl sl il)
                   (evaluations d (lengthOf lvl sl il))) /\
    eventsOf lvl (outPivots o) =
      snd (levelRun lvl d (length d) (levelStart lvl o)).
Proof.
  intros Hs Hi E.
  destruct (calc_run d sl il Hs Hi)
    as (o' & E' & T & St & LS & LI & L & F & P & _).
  rewrite E in E'. injection E' as <-.
  destruct (breakLoop_sorted d (startState o) (length d) (Nat.le_refl _) LS LI)
    as (st & Ek & So & _).
  { destruct St as (-> & _). reflexivity. }
  rewrite F in Ek. injection Ek as <-. rewrite P. split; [assumption|].
  destruct (breakLoop_run d (startState o) (length d) (Nat.le_refl _) LS LI)
    as (st & Ek & _ & R & _).
  { destruct St as (_ & -> & _). assumption. }
  { destruct St as (-> & _). reflexivity. }
  { apply St. }
  rewrite F in Ek. injection Ek as <-.
  intros lvl. destruct (T lvl) as (TH & TL). split; [assumption|].
  split; [assumption|]. destruct (R lvl) as (_ & ->).
  now rewrite (levelState_start lvl o St).
Qed.

(** X19.  [calc] uses prices only to compare them and to copy them: on
    bars whose prices went through a change of scale that keeps the order of
    any two numbers, with lookback lengths [>= 0], it finds the same pivots
    and records the same events, at the same indices and with the same keys,
    with the rescaled prices, and returns the same array with the rescaled
    values. *)
Theorem structure_depends_on_order_only f d sl il :
  orderPreserving f -> 0 <= sl -> 0 <= il ->
  exists o o',
    calc d sl il = Ok o /\
    calc (map (rescale f) d) sl il = Ok o' /\
    (forall lvl,
        highsOf lvl o' = map (rescalePivot f) (highsOf lvl o) /\
        lowsOf lvl o' = map (rescalePivot f) (lowsOf lvl o)) /\
    outPivots o' = map (rescaleLine f) (outPivots o) /\
    forall m key,
      readKey (outResults o') m key =
      option_map f (readKey (outResults o) m key).
Proof.
  intros Hf Hs Hi.
  destruct (calc_spec d sl il Hs Hi) as (o & E & _ & _ & A & P & R & K).
  destruct (calc_spec (map (rescale f) d) sl il Hs Hi)
    as (o' & E' & _ & _ & A' & P' & R' & K').
  exists o, o'. split; [assumption|]. split; [assumption|].
  destruct (events_of_levels d sl il o Hs Hi E) as (So & Lv).
  destruct (events_of_levels _ sl il o' Hs Hi E') as (So' & Lv').
  assert (forall lvl,
             highsOf lvl o' = map (rescalePivot f) (highsOf lvl o) /\
             lowsOf lvl o' = map (rescalePivot f) (lowsOf lvl o)) as Pv.
  { intros lvl. destruct (Lv lvl) as (-> & -> & _).
    destruct (Lv' lvl) as (-> & -> & _).
    unfold evaluations, len. rewrite length_map.
    rewrite (scanTrace_rescale f Hf). now split. }
  assert (forall lvl, eventsOf lvl (outPivots o') =
                      map (rescaleLine f) (eventsOf lvl (outPivots o))) as Ev.
  { intros lvl. destruct (Lv lvl) as (_ & _ & ->).
    destruct (Lv' lvl) as (_ & _ & ->). rewrite length_map.
    replace (levelStart lvl o') with (rescaleLevel f (levelStart lvl o)).
    - now rewrite (levelRun_rescale f Hf).
    - unfold levelStart, rescaleLevel. cbn [liveHighs liveLows trend].
      now destruct (Pv lvl) as (-> & ->). }
  assert (outPivots o' = map (rescaleLine f) (outPivots o)) as Evs.
  { apply ranked_unique; [assumption|apply ranked_map; [reflexivity|assumption]|].
    intros e. split; intros IN.
    - assert (In e (eventsOf (Line.level e) (outPivots o'))) as IN'
          by (apply eventsOf_In; now split).
      rewrite Ev in IN'. apply in_map_iff in IN'.
      destruct IN' as (x & <- & Hx). apply eventsOf_In in Hx.
      apply in_map. apply Hx.
    - apply in_map_iff in IN. destruct IN as (x & <- & Hx).
      assert (In (rescaleLine f x)
                (map (rescaleLine f) (eventsOf (Line.level x) (outPivots o))))
        as IN' by (apply in_map, eventsOf_In; now split).
      rewrite <- Ev in IN'. now apply eventsOf_In in IN'. }
  split; [exact Pv|]. split; [exact Evs|].
  destruct (K (length d) (Nat.le_refl _)) as (st & Ek & _ & _ & C).
  unfold afterBars in A, Ek. rewrite A in Ek. injection Ek as <-.
  destruct (K' (length (map (rescale f) d)) (Nat.le_refl _))
    as (st' & Ek' & _ & _ & C').
  unfold afterBars in A', Ek'. rewrite A' in Ek'. injection Ek' as <-.
  intros m key. destruct (isBreakKey key) eqn:Bk.
  - rewrite R', R, C', C by assumption. rewrite <- P', <- P, Evs.
    apply (lastCovering_rescale f).
  - pose proof (calc_markers d sl il o Hs Hi E m) as M.
    pose proof (calc_markers _ sl il o' Hs Hi E' m) as M'.
    destruct (Pv Swing) as (PH & PL). cbn [highsOf lowsOf] in PH, PL.
    assert (forall (xs : list Pivot.t) a b,
              (forall v, a = Some v <-> In (Pivot.mk m v) xs) ->
              (forall v, b = Some v <->
                         In (Pivot.mk m v) (map (rescalePivot f) xs)) ->
              b = option_map f a) as Same.
    { intros xs a b Ha Hb. destruct a as [w|]; cbn [option_map].
      - apply Hb. apply in_map_iff. exists (Pivot.mk m w).
        split; [reflexivity|]. now apply Ha.
      - destruct b as [v|]; [|reflexivity].
        pose proof (proj1 (Hb v) eq_refl) as IN. apply in_map_iff in IN.
        destruct IN as ([j w] & [= -> <-] & IN).
        apply Ha in IN. discriminate. }
    destruct key; try discriminate.
    + apply (Same (swingHighs o)); intros v; [apply M|].
      rewrite <- PH. apply M'.
    + apply (Same (swingLows o)); intros v; [apply M|].
      rewrite <- PL. apply M'.
Qed.

Lemma doubled_keeps_order : orderPreserving doubled.
Proof.
  split; [|now split].
  intros [| |x|] [| |y|]; try reflexivity. unfold doubled, gt.
  destruct (Z.ltb_spec y x), (Z.ltb_spec (2 * y + 3) (2 * x + 3));
    reflexivity || lia.
Qed.

Lemma structure_depends_on_order_only_witness :
  exists o o',
    calc scenario 2 2 = Ok o /\
    calc (map (rescale doubled) scenario) 2 2 = Ok o' /\
    (forall lvl,
        highsOf lvl o' = map (rescalePivot doubled) (highsOf lvl o) /\
        lowsOf lvl o' = map (rescalePivot doubled) (lowsOf lvl o)) /\
    outPivots o' = map (rescaleLine doubled) (outPivots o) /\
    forall m key,
      readKey (outResults o') m key =
      option_map doubled (readKey (outResults o) m key).
Proof.
  apply (structure_depends_on_order_only doubled scenario 2 2);
    [exact doubled_keeps_order|lia|lia].
Defined.

(** ** Breaks and confirmation on well-formed bars *)

(** X20.  On bars with [low <= close <= high] and lookback lengths [>= 0],
    no event of [calc] comes before its pivot is confirmed: the break bar of
    every event lies after bar [pivotIndex + L], the last bar of the pivot's
    forward window, [L] being the lookback of the event's level. *)
Theorem breaks_follow_confirmation d sl il :
  0 <= sl -> 0 <= il -> consistentBars d ->
  exists o, calc d sl il = Ok o /\
    forall e, In e (outPivots o) ->
      Line.pivotIndex e + lengthOf (Line.level e) sl il < Line.breakIndex e.
Proof. exact (consistent_bars_break_after_confirmation d sl il). Qed.

Lemma scenario_consistent : consistentBars scenario.
Proof. repeat constructor. Qed.

Lemma breaks_follow_confirmation_witness :
  exists o, calc scenario 2 2 = Ok o /\
    forall e, In e (outPivots o) ->
      Line.pivotIndex e + lengthOf (Line.level e) 2 2 < Line.breakIndex e.
Proof.
  apply (breaks_follow_confirmation scenario 2 2);
    [lia|lia|exact scenario_consistent].
Defined.

(** ** The two detections side by side *)

Lemma window_fold_top d ws acc x :
  gt x (fst acc) = true ->
  (forall j, In j ws -> gt x (high (barAt d j)) = true) ->
  gt x (fst (fold_left (fun a j => windowStep (barAt d j) a) ws acc)) = true.
Proof.
  revert acc. induction ws as [|j ws IH]; intros acc Ha Hw; [assumption|].
  cbn [fold_left]. apply IH; [|intros; apply Hw; now right].
  unfold windowStep, Number. cbn [fst].
  destruct (gt (high (barAt d j)) (fst acc)); [|assumption].
  apply Hw. now left.
Qed.

Lemma window_fold_bottom d ws acc y :
  lt y (snd acc) = true ->
  (forall j, In j ws -> lt y (low (barAt d j)) = true) ->
  lt y (snd (fold_left (fun a j => windowStep (barAt d j) a) ws acc)) = true.
Proof.
  revert acc. induction ws as [|j ws IH]; intros acc Ha Hw; [assumption|].
  cbn [fold_left]. apply IH; [|intros; apply Hw; now right].
  unfold windowStep, Number. cbn [snd].
  destruct (lt (low (barAt d j)) (snd acc)); [|assumption].
  apply Hw. now left.
Qed.

Lemma ge_false_gt a b : ge a b = false -> a <> NaN -> b <> NaN -> gt b a = true.
Proof.
  destruct a, b; simpl; intros H Ha Hb; try congruence;
    try (apply negb_false_iff in H; exact H).
Qed.

(** The register after one evaluation of the pivot loop. *)
Lemma pivotBody_register lvl d L i st :
  0 <= i - L -> 0 <= L -> i < len d -> length (marks st) = length d ->
  exists st', pivotBody lvl d L i st = Ok st' /\
    os st' = if qualifiesTop d L (i - L) then Some Top
             else if qualifiesBottom d L (i - L) then Some Bottom
             else os st.
Proof.
  intros Hp HL Hi Hm.
  destruct (pivotBody_step lvl d L i st Hp HL Hi Hm) as (st' & E & _ & _ & T).
  exists st'. split; [assumption|]. unfold traceOf in T.
  injection T as -> _ _. apply stateAt_cases.
Qed.

(** X21.  On bars of finite highs and lows and for a lookback [L >= 0],
    every pivot-high of the earlier, symmetric detection is a Top candidate
    of the later version's offset scan, whose evaluation at index
    [pivot + L] puts the register in Top; and every pivot-low is a Bottom
    candidate, whose evaluation never leaves the register unset: the later
    version looks at the forward half of the same window. *)
Theorem symmetric_pivots_are_offset_candidates d sl il :
  finiteBars d ->
  exists s, Symmetric.detectPivots d sl il = Ok s /\
    forall lvl pv,
      let L := lengthOf lvl sl il in
      0 <= L ->
      (In pv (symHighs lvl s) ->
       qualifiesTop d L (Pivot.index pv) = true /\
       forall st, length (marks st) = length d ->
         exists st', pivotBody lvl d L (Pivot.index pv + L) st = Ok st' /\
                     os st' = Some Top) /\
      (In pv (symLows lvl s) ->
       qualifiesBottom d L (Pivot.index pv) = true /\
       forall st, length (marks st) = length d ->
         exists st', pivotBody lvl d L (Pivot.index pv + L) st = Ok st' /\
                     os st' <> None).
Proof.
  intros Fb. destruct (symmetric_detect d sl il) as (s & E & F).
  exists s. split; [assumption|]. intros lvl [i v] L HL.
  cbn [Pivot.index]. destruct (F lvl) as (-> & ->). fold L. rewrite !found_In.
  split; intros (Hi & P & _).
  - apply peak_spec in P. destruct P as (R & U).
    assert (qualifiesTop d L i = true) as Q.
    { unfold qualifiesTop, extrema.
      destruct (finiteBars_at d i Fb) as (Hh & _); [unfold len in *; lia|].
      apply window_fold_top; [rewrite Hh; reflexivity|].
      intros j Hj. apply zrange_In in Hj.
      destruct (finiteBars_at d j Fb) as (Hj' & _); [unfold len in *; lia|].
      apply ge_false_gt; [apply U; lia|rewrite Hj'|rewrite Hh]; discriminate. }
    split; [assumption|]. intros st Hm.
    destruct (pivotBody_register lvl d L (i + L) st) as (st' & Eb & O);
      try lia; try assumption.
    exists st'. split; [assumption|].
    replace (i + L - L) with i in O by lia. now rewrite Q in O.
  - apply trough_spec in P. destruct P as (R & U).
    assert (qualifiesBottom d L i = true) as Q.
    { unfold qualifiesBottom, extrema.
      destruct (finiteBars_at d i Fb) as (_ & Hl); [unfold len in *; lia|].
      apply window_fold_bottom; [rewrite Hl; reflexivity|].
      intros j Hj. apply zrange_In in Hj.
      destruct (finiteBars_at d j Fb) as (_ & Hj'); [unfold len in *; lia|].
      unfold lt. apply ge_false_gt; [apply U; lia|rewrite Hl|rewrite Hj'];
        discriminate. }
    split; [assumption|]. intros st Hm.
    destruct (pivotBody_register lvl d L (i + L) st) as (st' & Eb & O);
      try lia; try assumption.
    exists st'. split; [assumption|].
    replace (i + L - L) with i in O by lia. rewrite Q in O. rewrite O.
    destruct (qualifiesTop d L i); discriminate.
Qed.

Lemma symmetric_pivots_are_offset_candidates_witness :
  exists s, Symmetric.detectPivots scenario 2 2 = Ok s /\
    forall lvl pv,
      let L := lengthOf lvl 2 2 in
      0 <= L ->
      (In pv (symHighs lvl s) ->
       qualifiesTop scenario L (Pivot.index pv) = true /\
       forall st, length (marks st) = length scenario ->
         exists st', pivotBody lvl scenario L (Pivot.index pv + L) st = Ok st' /\
                     os st' = Some Top) /\
      (In pv (symLows lvl s) ->
       qualifiesBottom scenario L (Pivot.index pv) = true /\
       forall st, length (marks st) = length scenario ->
         exists st', pivotBody lvl scenario L (Pivot.index pv + L) st = Ok st' /\
                     os st' <> None).
Proof.
  apply (symmetric_pivots_are_offset_candidates scenario 2 2).
  exact scenario_finite.
Defined.

(** ** Appending bars, in the earlier version *)

Lemma filter_found N sel price k :
  filter (fun pv => Pivot.index pv <? N) (found sel price k) =
  found (fun i => sel i && (i <? N)) price k.
Proof.
  unfold found. induction (zrange 0 k) as [|i l IH]; [reflexivity|].
  cbn [filter]. destruct (sel i); cbn [andb map filter Pivot.index].
  - destruct (i <? N); cbn [map]; now rewrite IH.
  - exact IH.
Qed.

Lemma found_ext sel sel' price price' k :
  (forall i, 0 <= i < Z.of_nat k ->
             sel i = sel' i /\ (sel i = true -> price i = price' i)) ->
  found sel price k = found sel' price' k.
Proof.
  intros H. unfold found.
  assert (Forall (fun i => 0 <= i < Z.of_nat k) (zrange 0 k)) as F.
  { apply Forall_forall. intros i Hi. apply zrange_In in Hi. lia. }
  induction F as [|i l Hi _ IH]; [reflexivity|].
  destruct (H i Hi) as (S & P). cbn [filter]. rewrite <- S.
  destruct (sel i); cbn [map]; [rewrite P by reflexivity|]; now rewrite IH.
Qed.

Lemma found_more sel price n e :
  (forall i, Z.of_nat n <= i -> sel i = false) ->
  found sel price (n + e) = found sel price n.
Proof.
  intros H. unfold found. rewrite zrange_app, filter_app, map_app.
  rewrite (filter_none sel (zrange (0 + Z.of_nat n) e)); [apply app_nil_r|].
  apply Forall_forall. intros i Hi. apply zrange_In in Hi. apply H. lia.
Qed.

Lemma unbeatenBy_app d ext beaten i lo count :
  lo + Z.of_nat count <= len d ->
  unbeatenBy (d ++ ext) beaten i lo count = unbeatenBy d beaten i lo count.
Proof.
  intros H. unfold unbeatenBy. apply Bool.eq_iff_eq_true.
  rewrite !forallb_forall.
  split; intros Hf j Hj; specialize (Hf j Hj); apply zrange_In in Hj.
  - now rewrite barAt_app in Hf by lia.
  - now rewrite barAt_app by lia.
Qed.

(** X22.  In the earlier version, for lookback lengths [>= 0], the pivots
    of index below [n_old - L] are final: detection over a bar list extended
    at its end finds, below that index, exactly the pivots it found over the
    old list, which has none at or above it. *)
Theorem symmetric_pivots_are_final d ext sl il :
  0 <= sl -> 0 <= il ->
  exists s s',
    Symmetric.detectPivots d sl il = Ok s /\
    Symmetric.detectPivots (d ++ ext) sl il = Ok s' /\
    forall lvl,
      let N := len d - lengthOf lvl sl il in
      filter (fun pv => Pivot.index pv <? N) (symHighs lvl s') =
        symHighs lvl s /\
      filter (fun pv => Pivot.index pv <? N) (symLows lvl s') =
        symLows lvl s.
Proof.
  intros Hs Hi.
  destruct (symmetric_detect d sl il) as (s & E & F).
  destruct (symmetric_detect (d ++ ext) sl il) as (s' & E' & F').
  exists s, s'. split; [assumption|]. split; [assumption|].
  intros lvl N. destruct (F lvl) as (-> & ->). destruct (F' lvl) as (-> & ->).
  assert (0 <= lengthOf lvl sl il) as HL by (now destruct lvl).
  set (L := lengthOf lvl sl il) in *.
  rewrite !filter_found, length_app.
  rewrite !found_more by (intros i Hi'; replace (i <? N) with false
                            by (unfold N, len; lia); apply andb_false_r).
  clearbody L. subst N.
  split; apply found_ext; intros i Hr.
  - rewrite barAt_app by (unfold len; lia). split; [|reflexivity].
    unfold peak, Symmetric.inRange. rewrite len_app.
    destruct (Z.ltb_spec i (len d - L)) as [Lt|Ge].
    + rewrite andb_true_r, barAt_app by (unfold len; lia).
      rewrite unbeatenBy_app by lia.
      replace (i <? len d + len ext - L) with true
        by (symmetry; apply Z.ltb_lt; unfold len in *; lia).
      now replace (i <? len d - L) with true by lia.
    + rewrite andb_false_r. symmetry.
      replace (i <? len d - L) with false by lia.
      now rewrite andb_false_r.
  - rewrite barAt_app by (unfold len; lia). split; [|reflexivity].
    unfold trough, Symmetric.inRange. rewrite len_app.
    destruct (Z.ltb_spec i (len d - L)) as [Lt|Ge].
    + rewrite andb_true_r, barAt_app by (unfold len; lia).
      rewrite unbeatenBy_app by lia.
      replace (i <? len d + len ext - L) with true
        by (symmetry; apply Z.ltb_lt; unfold len in *; lia).
      now replace (i <? len d - L) with true by lia.
    + rewrite andb_false_r. symmetry.
      replace (i <? len d - L) with false by lia.
      now rewrite andb_false_r.
Qed.

Lemma symmetric_pivots_are_final_witness :
  exists s s',
    Symmetric.detectPivots scenario 2 2 = Ok s /\
    Symmetric.detectPivots (scenario ++ [flat (Fin 9)]) 2 2 = Ok s' /\
    forall lvl,
      let N := len scenario - lengthOf lvl 2 2 in
      filter (fun pv => Pivot.index pv <? N) (symHighs lvl s') =
        symHighs lvl s /\
      filter (fun pv => Pivot.index pv <? N) (symLows lvl s') =
        symLows lvl s.
Proof.
  apply (symmetric_pivots_are_final scenario [flat (Fin 9)] 2 2); lia.
Defined.

(** ** The markers of the earlier version *)

(** What the high block of the swing level does to the swing lists and to
    [results]. *)
Lemma symHighBlock_swing d L k h st st' :
  Symmetric.highBlock Swing d L k h st = Ok st' ->
  st' = st \/
  (setKey (Symmetric.results st) k swingHighMarker (Some h) =
     Ok (Symmetric.results st') /\
   Symmetric.swingHighs st' = Symmetric.swingHighs st ++ [Pivot.mk k h] /\
   Symmetric.swingLows st' = Symmetric.swingLows st).
Proof.
  unfold Symmetric.highBlock.
  destruct (Symmetric.inRange d L k); [|intros [= <-]; now left].
  intros E. apply bind_Ok in E. destruct E as ([|] & _ & E);
    [|injection E as <-; now left].
  cbn [Symmetric.pushHigh Pivot.index Pivot.price] in E.
  apply bind_Ok in E. destruct E as (r & Er & [= <-]). right.
  cbn [Symmetric.results Symmetric.swingHighs Symmetric.swingLows]. auto.
Qed.

Lemma symLowBlock_swing d L k l st st' :
  Symmetric.lowBlock Swing d L k l st = Ok st' ->
  st' = st \/
  (setKey (Symmetric.results st) k swingLowMarker (Some l) =
     Ok (Symmetric.results st') /\
   Symmetric.swingLows st' = Symmetric.swingLows st ++ [Pivot.mk k l] /\
   Symmetric.swingHighs st' = Symmetric.swingHighs st).
Proof.
  unfold Symmetric.lowBlock.
  destruct (Symmetric.inRange d L k); [|intros [= <-]; now left].
  intros E. apply bind_Ok in E. destruct E as ([|] & _ & E);
    [|injection E as <-; now left].
  cbn [Symmetric.pushLow Pivot.index Pivot.price] in E.
  apply bind_Ok in E. destruct E as (r & Er & [= <-]). right.
  cbn [Symmetric.results Symmetric.swingHighs Symmetric.swingLows]. auto.
Qed.

(** The blocks of the internal level leave the swing lists and [results]
    alone. *)
Lemma symBlocks_internal d L k x st st' :
  Symmetric.highBlock Internal d L k x st = Ok st' \/
  Symmetric.lowBlock Internal d L k x st = Ok st' ->
  Symmetric.results st' = Symmetric.results st /\
  Symmetric.swingHighs st' = Symmetric.swingHighs st /\
  Symmetric.swingLows st' = Symmetric.swingLows st.
Proof.
  unfold Symmetric.highBlock, Symmetric.lowBlock.
  destruct (Symmetric.inRange d L k);
    [|intros [[= <-]|[= <-]]; now repeat split].
  intros [E|E]; apply bind_Ok in E; destruct E as ([|] & _ & E);
    cbn [Symmetric.pushHigh Symmetric.pushLow] in E; injection E as <-;
    now repeat split.
Qed.

(** The markers a pivot list accounts for: a marker at [m] exactly for the
    pivots of index [m], every pivot carrying the field [price] of its bar. *)
Lemma marker_pushed (price : KLineData -> num) d key rs rs' xs k :
  (forall m v, readKey rs m key = Some v <-> In (Pivot.mk m v) xs) ->
  Forall (fun pv => Pivot.price pv = price (barAt d (Pivot.index pv))) xs ->
  setKey rs k key (Some (price (barAt d k))) = Ok rs' ->
  (forall m v, readKey rs' m key = Some v <->
               In (Pivot.mk m v) (xs ++ [Pivot.mk k (price (barAt d k))])) /\
  Forall (fun pv => Pivot.price pv = price (barAt d (Pivot.index pv)))
         (xs ++ [Pivot.mk k (price (barAt d k))]).
Proof.
  intros M P E. apply setKey_spec in E. destruct E as (_ & _ & R). split.
  - intros m v. rewrite R, Key_eqb_refl, andb_true_r, in_app_iff.
    destruct (Z.eqb_spec m k) as [->|N].
    + split.
      * intros [= <-]. right. now left.
      * intros [IN|[[= <-]|[]]]; [|reflexivity].
        rewrite Forall_forall in P. specialize (P _ IN). cbn in P.
        now rewrite P.
    + rewrite M. split; [auto|]. intros [IN|[[= ? _]|[]]]; [assumption|].
      congruence.
  - apply Forall_app. split; [assumption|]. constructor; [reflexivity|constructor].
Qed.

Lemma marker_kept key key' rs rs' k v' (xs : list Pivot.t) :
  key <> key' ->
  (forall m v, readKey rs m key = Some v <-> In (Pivot.mk m v) xs) ->
  setKey rs k key' v' = Ok rs' ->
  forall m v, readKey rs' m key = Some v <-> In (Pivot.mk m v) xs.
Proof.
  intros N M E m v. apply setKey_spec in E. destruct E as (_ & _ & R).
  rewrite R. apply Key_eqb_neq in N. rewrite N, andb_false_r. apply M.
Qed.

(** After the pivot loop of the earlier version the markers are those of the
    swing pivots. *)
Lemma symDetect_markers d sl il s :
  Symmetric.detectPivots d sl il = Ok s ->
  forall m v,
    (readKey (Symmetric.results s) m swingHighMarker = Some v <->
     In (Pivot.mk m v) (Symmetric.swingHighs s)) /\
    (readKey (Symmetric.results s) m swingLowMarker = Some v <->
     In (Pivot.mk m v) (Symmetric.swingLows s)).
Proof.
  unfold Symmetric.detectPivots, forUpTo. intros E.
  pose (P := fun st : Symmetric.Scan =>
    (forall m v, readKey (Symmetric.results st) m swingHighMarker = Some v <->
                 In (Pivot.mk m v) (Symmetric.swingHighs st)) /\
    (forall m v, readKey (Symmetric.results st) m swingLowMarker = Some v <->
                 In (Pivot.mk m v) (Symmetric.swingLows st)) /\
    Forall (fun pv => Pivot.price pv = high (barAt d (Pivot.index pv)))
           (Symmetric.swingHighs st) /\
    Forall (fun pv => Pivot.price pv = low (barAt d (Pivot.index pv)))
           (Symmetric.swingLows st)).
  assert (P s) as (MH & ML & _).
  { apply (forLoop_keeps P) in E; [exact E| |].
    - clear E s. intros k a b E Pa. unfold Symmetric.pivotBody in E.
      apply bind_Ok in E. destruct E as (bar & Eb & E).
      assert (bar = barAt d k) as ->.
      { unfold item in Eb. unfold barAt.
        destruct (getZ d k); [now injection Eb|discriminate]. }
      apply bind_Ok in E. destruct E as (s1 & E1 & E).
      apply bind_Ok in E. destruct E as (s2 & E2 & E).
      apply bind_Ok in E. destruct E as (s3 & E3 & E).
      assert (P s1) as P1.
      { destruct Pa as (MH & ML & PH & PL).
        apply symHighBlock_swing in E1. destruct E1 as [->|(Es & Eh & El)];
          [exact (conj MH (conj ML (conj PH PL)))|].
        destruct (marker_pushed high d _ _ _ _ _ MH PH Es) as (MH' & PH').
        pose proof (marker_kept swingLowMarker swingHighMarker _ _ _ _ _
                      ltac:(discriminate) ML Es) as ML'.
        unfold P. rewrite Eh, El. exact (conj MH' (conj ML' (conj PH' PL))). }
      assert (P s2) as P2.
      { destruct P1 as (MH & ML & PH & PL).
        apply symLowBlock_swing in E2. destruct E2 as [->|(Es & El & Eh)];
          [exact (conj MH (conj ML (conj PH PL)))|].
        destruct (marker_pushed low d _ _ _ _ _ ML PL Es) as (ML' & PL').
        pose proof (marker_kept swingHighMarker swingLowMarker _ _ _ _ _
                      ltac:(discriminate) MH Es) as MH'.
        unfold P. rewrite Eh, El. exact (conj MH' (conj ML' (conj PH PL'))). }
      assert (P s3) as P3.
      { destruct (symBlocks_internal d il k _ s2 s3 (or_introl E3))
          as (Er & Eh & El).
        unfold P. now rewrite Er, Eh, El. }
      destruct (symBlocks_internal d il k _ s3 b (or_intror E))
        as (Er & Eh & El).
      unfold P. now rewrite Er, Eh, El.
    - unfold P. cbn [Symmetric.results Symmetric.swingHighs Symmetric.swingLows].
      split; [|split; [|split; constructor]];
        intros m v; rewrite readKey_empty; cbn [In]; split; easy. }
  intros m v. split; [apply MH|apply ML].
Qed.

(** X23.  In the array the earlier version's [calc] returns, entry [m] has
    a [swingHighMarker] exactly when bar [m] is a swing pivot-high of the
    symmetric detection, the marker being the pivot's price, and likewise
    [swingLowMarker] and the swing pivot-lows; internal pivots and the break
    loop leave no marker. *)
Theorem earlier_markers_sit_on_swing_pivots d sl il :
  exists s rs,
    Symmetric.detectPivots d sl il = Ok s /\
    Symmetric.calc d sl il = Ok rs /\
    forall m v,
      (readKey rs m swingHighMarker = Some v <->
       In (Pivot.mk m v) (symHighs Swing s)) /\
      (readKey rs m swingLowMarker = Some v <->
       In (Pivot.mk m v) (symLows Swing s)).
Proof.
  destruct (earlier_calc_channels d sl il) as (s & rs & Es & Er & _ & _ & M).
  exists s, rs. split; [assumption|]. split; [assumption|].
  intros m v. rewrite !M by reflexivity. cbn [symHighs symLows].
  exact (symDetect_markers d sl il s Es m v).
Qed.
